(** * dml: a database mapping layer — shallow embedding and verified properties

    The development follows the Go sources of the package:
    - [intermediate.go]: [ScanMap], the [iln] queue, [BuildMap], [NamedFields],
      [BuildNamedFields], [postScan];
    - [scaninto.go]: [QuickScan], [Scan], [ScanWithFields], [ScanWithMap],
      [ScanWithMappedFields];
    - the field cache ([buildFieldCacheEntryForType], [getFieldCachesFor], ...);
    - the row-source interfaces and [scannableWrapper];
    - [ScanArray].

    Conventions.  A Go [int] is a [Z]; a slice whose nil-ness is observed by the
    code is an [option (list _)] ([None] is the nil slice); a Go [error] is an
    [option error] ([None] is the nil error); a run-time panic (index out of
    range, nil dereference) is the [None] of the [option] monad. *)

From Stdlib Require Import ZArith Lia.
From stdpp Require Import base option list sorting gmap strings.

Open Scope Z_scope.

(** ** Machine integers *)

(** Go's [int] on the 64-bit targets of the package: products wrap around. *)
Definition int_wrap (z : Z) : Z := (z + 2 ^ 63) mod 2 ^ 64 - 2 ^ 63.
Definition int_mul (x y : Z) : Z := int_wrap (x * y).
Definition int_sub (x y : Z) : Z := int_wrap (x - y).
(** [len(s)] *)
Definition len {A} (s : list A) : Z := Z.of_nat (length s).

(** ** ScanMap *)

(** [type ScanMap []int]: entry [j] is the index of the field that receives
    column [j], or the special value [-1]. *)
Abbreviation ScanMap := (list Z).

(** ** The iln queue *)

Module Iln.

(** [type iln struct { index int; next, end *iln }].  Nodes live in a heap;
    a [*iln] is [None] (nil) or the address of a node. *)
Record iln := mk { index : Z; next : option nat; end_ : option nat }.

Abbreviation heap := (list iln).

Definition set_next (n : iln) (p : option nat) : iln := mk (index n) p (end_ n).
Definition set_end (n : iln) (p : option nat) : iln := mk (index n) (next n) p.

(** [&iln{index: i}]: allocation of a fresh node. *)
Definition alloc (i : Z) (h : heap) : nat * heap :=
  (length h, h ++ [mk i None None]).

(** [func (n *iln) add(i int) *iln] *)
Definition add (n : option nat) (i : Z) (h : heap) : option (option nat * heap) :=
  match n with
  | None =>
      let '(x, h) := alloc i h in
      nx ← h !! x;
      Some (Some x, <[x := set_end nx (Some x)]> h)
  | Some a =>
      (* n.end.next = &iln{index: i} *)
      na ← h !! a;
      e ← end_ na;
      let '(x, h) := alloc i h in
      ne ← h !! e;
      let h := <[e := set_next ne (Some x)]> h in
      (* n.end = n.end.next *)
      na ← h !! a;
      e ← end_ na;
      ne ← h !! e;
      let h := <[a := set_end na (next ne)]> h in
      Some (Some a, h)
  end.

(** [func (n *iln) yoink()], returning a pointer to the index and the new
    head.  The returned pointer is only ever dereferenced by the caller, so
    the model returns the pointee. *)
Definition yoink (n : option nat) (h : heap) : option (option Z * option nat * heap) :=
  match n with
  | None => Some (None, None, h)
  | Some a =>
      na ← h !! a;
      h ← (if decide (end_ na ≠ Some a)
           then nx ← next na; nn ← h !! nx; Some (<[nx := set_end nn (end_ na)]> h)
           else Some h);
      na ← h !! a;
      Some (Some (index na), next na, h)
  end.

End Iln.

(** ** Columns *)

(** [*sql.ColumnType] of database/sql: only its [Name()] is consulted. *)
Module Sql.
Record ColumnType := mkColumnType { Name : string; DatabaseTypeName : string }.
End Sql.

(** The column types of a result set with the given column names. *)
Definition columnsNamed (names : list string) : list Sql.ColumnType :=
  (λ n, Sql.mkColumnType n "") <$> names.

(** ** The two matching strategies of BuildMap *)

(** [columnsByName[k]] on a [map[string]*iln]: a missing key reads as nil. *)
Definition bucket (columnsByName : gmap string (option nat)) (k : string) : option nat :=
  default None (columnsByName !! k).

(** [for i, c := range columns { columnsByName[c.Name()] = columnsByName[c.Name()].add(i) }] *)
Fixpoint fillBuckets (i : nat) (columns : list Sql.ColumnType)
    (h : Iln.heap) (columnsByName : gmap string (option nat))
  : option (Iln.heap * gmap string (option nat)) :=
  match columns with
  | [] => Some (h, columnsByName)
  | c :: columns =>
      '(p, h) ← Iln.add (bucket columnsByName (Sql.Name c)) (Z.of_nat i) h;
      fillBuckets (S i) columns h (<[Sql.Name c := p]> columnsByName)
  end.

(** [output[j] = i] with Go's bounds check. *)
Definition store_index (output : ScanMap) (j : Z) (i : Z) : option ScanMap :=
  if decide (0 ≤ j < len output) then Some (<[Z.to_nat j := i]> output) else None.

(** [for i, n := range fields.Names {
       var x *int
       x, columnsByName[n] = columnsByName[n].yoink()
       if x != nil { output[*x] = i } }] *)
Fixpoint drainBuckets (i : nat) (names : list string)
    (h : Iln.heap) (columnsByName : gmap string (option nat)) (output : ScanMap)
  : option ScanMap :=
  match names with
  | [] => Some output
  | n :: names =>
      '(x, p, h) ← Iln.yoink (bucket columnsByName n) h;
      let columnsByName := <[n := p]> columnsByName in
      output ← match x with
               | Some j => store_index output j (Z.of_nat i)
               | None => Some output
               end;
      drainBuckets (S i) names h columnsByName output
  end.

(** The hash-bucketed strategy (the [then] branch of BuildMap). *)
Definition bucketMatch (columns : list Sql.ColumnType) (names : list string)
    (output : ScanMap) : option ScanMap :=
  '(h, columnsByName) ← fillBuckets 0 columns [] ∅;
  drainBuckets 0 names h columnsByName output.

(** The inner loop [for j, c := range columns] of the nested scan for field
    [i] named [n]; the result is the output after [continue MainLoop] or after
    the loop ran to its end. *)
Fixpoint scanColumns (n : string) (i : Z) (j : nat) (columns : list Sql.ColumnType)
    (output : ScanMap) : option ScanMap :=
  match columns with
  | [] => Some output
  | c :: columns =>
      o ← output !! j;
      if decide (o ≠ -1) then scanColumns n i (S j) columns output
      else if decide (n = Sql.Name c) then Some (<[j := i]> output)
      else scanColumns n i (S j) columns output
  end.

(** [MainLoop: for i, n := range fields.Names { ... }] *)
Fixpoint nestedLoop (i : nat) (names : list string) (columns : list Sql.ColumnType)
    (output : ScanMap) : option ScanMap :=
  match names with
  | [] => Some output
  | n :: names =>
      output ← scanColumns n (Z.of_nat i) 0 columns output;
      nestedLoop (S i) names columns output
  end.

(** The direct nested scan (the [else] branch of BuildMap). *)
Definition nestedMatch (columns : list Sql.ColumnType) (names : list string)
    (output : ScanMap) : option ScanMap :=
  nestedLoop 0 names columns output.

(** [(len(columns) - 5) * (len(fields.Names) - 5) > 100] *)
Definition useBuckets (columns : list Sql.ColumnType) (names : list string) : bool :=
  bool_decide (int_mul (int_sub (len columns) 5) (int_sub (len names) 5) > 100).

(** The part of BuildMap after the column list is known to be non-nil. *)
Definition matchColumns (columns : list Sql.ColumnType) (names : list string)
  : option ScanMap :=
  let output := replicate (length columns) (-1) in
  if useBuckets columns names
  then bucketMatch columns names output
  else nestedMatch columns names output.

(** ** Errors *)

(** A Go [error] value is represented by its message. *)
Definition error := string.

(** ** Run-time types: the part of package reflect the code relies on *)

Module Reflect.

(** [reflect.Kind], restricted to the kinds that the package tells apart
    plus a few others. *)
Inductive Kind := Invalid | Bool | Int | Str | Map | Ptr | Interface | Slice | Struct.

(** [Kind.String()], as printed by the verb [%v]. *)
Definition Kind_String (k : Kind) : string :=
  match k with
  | Invalid => "invalid" | Bool => "bool" | Int => "int" | Str => "string"
  | Map => "map" | Ptr => "ptr" | Interface => "interface" | Slice => "slice"
  | Struct => "struct"
  end.

(** Which of the three interfaces of interest a type implements:
    [GetFields], [sql.Scanner] and [ScanIntoPostProcessable]. *)
Record MethodSet := mkMethodSet { GetFields : bool; Scanner : bool; PostProcessable : bool }.
Definition noMethods : MethodSet := mkMethodSet false false false.

(** [reflect.StructTag], already split into its [key:"value"] pairs. *)
Definition StructTag := list (string * string).

(** [StructTag.Lookup]: the value and whether the key is present. *)
Fixpoint Lookup (tag : StructTag) (key : string) : string * bool :=
  match tag with
  | [] => ("", false)
  | (k, v) :: tag => if decide (k = key) then (v, true) else Lookup tag key
  end.

(** [reflect.Type].  A defined type carries the method set [ms] of its
    values and [pms] of pointers to it.  Embedding by value cannot be
    cyclic in Go, so struct types form a finite tree; a type reached through
    a pointer, map or slice inside a field is kept opaque ([Defined]). *)
Inductive rtype :=
| Defined (k : Kind) (name : string) (ms pms : MethodSet)
| StructOf (name : string) (fields : list StructField) (ms pms : MethodSet)
| PtrTo (elem : rtype)
| SliceOf (elem : rtype)
| InterfaceOf (name : string) (ms : MethodSet)
(** [reflect.StructField] *)
with StructField :=
| mkStructField (Name PkgPath : string) (Typ : rtype) (Tag : StructTag) (Anonymous : bool).

Definition Name (f : StructField) : string := let '(mkStructField n _ _ _ _) := f in n.
Definition PkgPath (f : StructField) : string := let '(mkStructField _ p _ _ _) := f in p.
Definition Typ (f : StructField) : rtype := let '(mkStructField _ _ t _ _) := f in t.
Definition Tag (f : StructField) : StructTag := let '(mkStructField _ _ _ t _) := f in t.
Definition Anonymous (f : StructField) : bool := let '(mkStructField _ _ _ _ a) := f in a.

(** [Type.Kind()] *)
Definition kind (t : rtype) : Kind :=
  match t with
  | Defined k _ _ _ => k
  | StructOf _ _ _ _ => Struct
  | PtrTo _ => Ptr
  | SliceOf _ => Slice
  | InterfaceOf _ _ => Interface
  end.

(** The declared fields: [Type.Field(i)] for [i < Type.NumField()]. *)
Definition fields (t : rtype) : list StructField :=
  match t with StructOf _ fs _ _ => fs | _ => [] end.

(** The method set of a type: a pointer type has the pointer-receiver
    methods of its element. *)
Definition methods (t : rtype) : MethodSet :=
  match t with
  | Defined _ _ ms _ | StructOf _ _ ms _ | InterfaceOf _ ms => ms
  | PtrTo (Defined _ _ _ pms) | PtrTo (StructOf _ _ _ pms) => pms
  | PtrTo _ | SliceOf _ => noMethods
  end.

(** [Type.Elem()]; it panics on kinds that have no element type. *)
Definition Elem (t : rtype) : option rtype :=
  match t with
  | PtrTo e | SliceOf e => Some e
  | _ => None
  end.

Global Instance Kind_eq_dec : EqDecision Kind.
Proof. solve_decision. Defined.
Global Instance MethodSet_eq_dec : EqDecision MethodSet.
Proof. solve_decision. Defined.

(** Type identity, the key of the field cache. *)
Fixpoint rtype_eq_dec (t1 t2 : rtype) {struct t1} : {t1 = t2} + {t1 ≠ t2}
with StructField_eq_dec (f1 f2 : StructField) {struct f1} : {f1 = f2} + {f1 ≠ f2}.
Proof.
  - pose proof (list_eq_dec (dec:=StructField_eq_dec)).
    decide equality; try solve_decision.
  - decide equality; try solve_decision.
Defined.
Global Instance rtype_EqDecision : EqDecision rtype := rtype_eq_dec.

End Reflect.

(** ** The field cache *)

(** [type fieldCacheEntry struct { Names []string; Fields [][]int; IsScanner []bool }],
    the instance-agnostic descriptor of a struct type. *)
Module fieldCacheEntry.
Record t := mk { Names : list string; Fields : list (list nat); IsScanner : list bool }.

(** The zero value [fieldCacheEntry{}]. *)
Definition zero : t := mk [] [] [].

(** [func (c *fieldCacheEntry) Push(name string, prefix []int, value int, scanner bool)].
    The three-index slice expression makes [append] copy the prefix. *)
Definition Push (c : t) (name : string) (prefix : list nat) (value : nat) (scanner : bool) : t :=
  mk (Names c ++ [name]) (Fields c ++ [prefix ++ [value]]) (IsScanner c ++ [scanner]).

(** [func (c *fieldCacheEntry) Append(other fieldCacheEntry)] *)
Definition Append (c other : t) : t :=
  mk (Names c ++ Names other) (Fields c ++ Fields other) (IsScanner c ++ IsScanner other).
End fieldCacheEntry.

(** The loop [for i := 0; i < t.NumField(); i++] of
    [buildFieldCacheEntryForType], from field [i] on; [rec] is the function
    itself, called on the type of an embedded field. *)
Definition fieldLoop (rec : Reflect.rtype → list nat → fieldCacheEntry.t * option error)
    (path : list nat)
  : nat → list Reflect.StructField → fieldCacheEntry.t → fieldCacheEntry.t * option error :=
  fix loop (i : nat) (fields : list Reflect.StructField) (output : fieldCacheEntry.t) :=
    match fields with
    | [] => (output, None)
    | field :: fields =>
        let '(db_field, ok) := Reflect.Lookup (Reflect.Tag field) "dml" in
        if bool_decide (String.length (Reflect.PkgPath field) = 0%nat) && ok
        then loop (S i) fields
               (fieldCacheEntry.Push output db_field path i
                  (Reflect.Scanner (Reflect.methods (Reflect.Typ field))))
        else if Reflect.Anonymous field
                && bool_decide (Reflect.kind (Reflect.Typ field) = Reflect.Struct)
        then match rec (Reflect.Typ field) (path ++ [i]) with
             | (_, Some sub_error) =>
                 (fieldCacheEntry.zero,
                  Some ("error examining field " +:+ Reflect.Name field +:+ ": " +:+ sub_error))
             | (sub_cache, None) =>
                 loop (S i) fields (fieldCacheEntry.Append output sub_cache)
             end
        else loop (S i) fields output
    end.

(** [func buildFieldCacheEntryForType(t reflect.Type, path []int) (fieldCacheEntry, error)];
    [buildNamedFieldsCacheForType] of the earlier cache.go has the same body.
    No operation of the model panics, so the deferred [recover] never fires.
    A struct type whose fields are kept opaque has no field to visit. *)
Fixpoint buildFieldCacheEntryForType (t : Reflect.rtype) (path : list nat)
  : fieldCacheEntry.t * option error :=
  if decide (Reflect.kind t ≠ Reflect.Struct)
  then (fieldCacheEntry.zero, Some "tried to analyze field structure of non-struct type")
  else
    match t with
    | Reflect.StructOf _ fields _ _ =>
        fieldLoop buildFieldCacheEntryForType path 0%nat fields fieldCacheEntry.zero
    | _ => (fieldCacheEntry.zero, None)
    end.

(** [var fieldsCache = make(map[reflect.Type]fieldCacheEntry)]: a map keyed by
    type identity, kept as an association list that is searched from the
    most recent binding. *)
Abbreviation fieldsCacheMap := (list (Reflect.rtype * fieldCacheEntry.t)).

(** [fieldsCache[t]] *)
Fixpoint cacheLookup (fieldsCache : fieldsCacheMap) (t : Reflect.rtype)
  : option fieldCacheEntry.t :=
  match fieldsCache with
  | [] => None
  | (t', cached) :: fieldsCache =>
      if decide (t' = t) then Some cached else cacheLookup fieldsCache t
  end.

(** [type NamedFieldsMaker interface] and its two implementations,
    [namedFieldsFromGetFields] and [fieldCacheEntry]. *)
Inductive NamedFieldsMaker :=
| namedFieldsFromGetFields
| cachedFields (c : fieldCacheEntry.t).

(** [for t.Kind() == reflect.Ptr || t.Kind() == reflect.Interface { t = t.Elem() }].
    [Type.Elem] panics on an interface type, and the element of an opaque
    pointer type is not available to the model. *)
Fixpoint unwrapType (t : Reflect.rtype) : option Reflect.rtype :=
  match t with
  | Reflect.PtrTo e => unwrapType e
  | Reflect.InterfaceOf _ _ => None
  | Reflect.Defined k _ _ _ =>
      if decide (k = Reflect.Ptr ∨ k = Reflect.Interface) then None else Some t
  | _ => Some t
  end.

(** [func getFieldCachesFor(t reflect.Type) (NamedFieldsMaker, error)], as a
    transition of the cache.  The locks are not modelled; the second lookup
    is the re-check made under the write lock. *)
Definition getFieldCachesFor (t : Reflect.rtype) (fieldsCache : fieldsCacheMap)
  : option (NamedFieldsMaker * option error * fieldsCacheMap) :=
  if Reflect.GetFields (Reflect.methods t)
  then Some (namedFieldsFromGetFields, None, fieldsCache)
  else
    t ← unwrapType t;
    if decide (Reflect.kind t ≠ Reflect.Struct)
    then Some (cachedFields fieldCacheEntry.zero, Some "nested object is not struct", fieldsCache)
    else
      match cacheLookup fieldsCache t with
      | Some cached => Some (cachedFields cached, None, fieldsCache)
      | None =>
          match cacheLookup fieldsCache t with
          | Some cached => Some (cachedFields cached, None, fieldsCache)
          | None =>
              match buildFieldCacheEntryForType t [] with
              | (_, Some err) => Some (cachedFields fieldCacheEntry.zero, Some err, fieldsCache)
              | (cached, None) => Some (cachedFields cached, None, (t, cached) :: fieldsCache)
              end
          end
      end.

(** ** Values, receivers and memory *)

(** Where a struct instance lives: in a variable of its own, as an element of
    a slice variable, or in an object allocated by [reflect.New] during the
    current call. *)
Inductive Place := PVar (l : nat) | PElem (l : nat) (i : nat) | PNew (k : nat).

(** The Go values handed to the package as [ScanInto] or [ScanIntoArray]. *)
Inductive Value :=
| Nil                                                 (* the nil interface *)
| NilPointer (t : Reflect.rtype)                      (* a nil pointer of type [t] *)
| Pointer (t : Reflect.rtype) (target : Value)        (* a pointer of type [t] to a variable *)
| InterfaceVar (t : Reflect.rtype) (dyn : Value)      (* a variable of interface type [t] *)
| StructVal (t : Reflect.rtype) (at_ : Place)         (* a struct of type [t] *)
| SliceVal (t : Reflect.rtype) (at_ : nat)            (* the slice variable at [at_] *)
| Opaque (t : Reflect.rtype).                         (* any other value *)

(** The [interface{}] receivers passed to [Scannable.Scan]. *)
Inductive Receiver :=
| FieldAddr (p : Place) (path : list nat)   (* [f.Addr().Interface()]: the address of a field *)
| FieldValue (p : Place) (path : list nat)  (* [f.Interface()]: a self-scanning field *)
| noopScanner                               (* [noopScanner{}] *)
| UserReceiver (id : nat).                  (* anything else a caller or a GetFields method supplies *)

(** [type NamedFields struct { Names []string; Fields []interface{} }] *)
Module NamedFields.
Record t := mk { Names : list string; Fields : list Receiver }.

(** The zero value [NamedFields{}]. *)
Definition zero : t := mk [] [].

(** [func (n *NamedFields) Append(other NamedFields)] *)
Definition Append (n other : t) : t :=
  mk (Names n ++ Names other) (Fields n ++ Fields other).

(** [func (n *NamedFields) Push(name string, field interface{})] *)
Definition Push (n : t) (name : string) (field : Receiver) : t :=
  mk (Names n ++ [name]) (Fields n ++ [field]).
End NamedFields.

(** A struct instance: the raw value last stored in each field, by field
    path; a field that was never stored to holds its zero value. *)
Abbreviation instance := (gmap (list nat) string).

(** The variables that receivers point into. *)
Record Memory := mkMemory {
  structs : gmap nat instance;
  slices : gmap nat (list instance)
}.

(** A store through a pointer to a field. *)
Definition writeField (p : Place) (path : list nat) (v : string) (mem : Memory) : Memory :=
  match p with
  | PVar l => mkMemory (alter (<[path := v]>) l (structs mem)) (slices mem)
  | PElem l i => mkMemory (structs mem) (alter (alter (<[path := v]>) i) l (slices mem))
  | PNew _ => mem
  end.

(** What one [Scan] call did: the value it stored into each receiver, if any,
    and the error it returned. *)
Record ScanResult := mkScanResult {
  stored : list (option string);
  scanError : option error
}.

Fixpoint applyStores (receivers : list Receiver) (values : list (option string))
    (mem : Memory) : Memory :=
  match receivers, values with
  | FieldAddr p path :: receivers, Some v :: values =>
      applyStores receivers values (writeField p path v mem)
  | _ :: receivers, _ :: values => applyStores receivers values mem
  | _, _ => mem
  end.

(** ** Row sources *)

(** [type Scannable interface { Scan(...interface{}) error }], as a state
    machine on the state [Src] of the row source. *)
Class Scannable (Src : Type) := {
  Scan : list Receiver → Src → ScanResult * Src
}.

(** [type AdvancedScannable interface { Scannable; ColumnTypes() ([]*sql.ColumnType, error) }] *)
Class AdvancedScannable (Src : Type) := {
  AdvancedScannable_Scannable :: Scannable Src;
  ColumnTypes : Src → (option (list Sql.ColumnType) * option error) * Src
}.

(** [type IterableScannable interface { AdvancedScannable; Next() bool; Err() error }] *)
Class IterableScannable (Src : Type) := {
  IterableScannable_AdvancedScannable :: AdvancedScannable Src;
  Next : Src → bool * Src;
  Err : Src → option error * Src
}.

(** [type scannableWrapper struct { Scannable; done bool }] *)
Record scannableWrapper (Src : Type) := mkScannableWrapper {
  inner : Src;
  done_ : bool
}.
Arguments mkScannableWrapper {Src} _ _.
Arguments inner {Src} _.
Arguments done_ {Src} _.

(** The methods of [*scannableWrapper]; [Scan] is promoted from the embedded
    [Scannable]. *)
Module wrapper.
Section Methods.
Context {Src : Type} `{!Scannable Src}.

Definition Scan (receivers : list Receiver) (s : scannableWrapper Src)
  : ScanResult * scannableWrapper Src :=
  let '(r, x) := Scan receivers (inner s) in (r, mkScannableWrapper x (done_ s)).

(** [func (s *scannableWrapper) Next() bool] *)
Definition Next (s : scannableWrapper Src) : bool * scannableWrapper Src :=
  if done_ s then (false, s)
  else (true, mkScannableWrapper (inner s) true).

(** [func (s *scannableWrapper) Err() error] *)
Definition Err (s : scannableWrapper Src) : option error * scannableWrapper Src :=
  (None, s).

(** [func (s *scannableWrapper) ColumnTypes() ([]*sql.ColumnType, error)];
    named [ColumnNames], with a [[]string] result, in scannables.go. *)
Definition ColumnTypes (s : scannableWrapper Src)
  : (option (list Sql.ColumnType) * option error) * scannableWrapper Src :=
  ((None, None), s).
End Methods.
End wrapper.

Global Instance scannableWrapper_Scannable {Src} `{!Scannable Src}
  : Scannable (scannableWrapper Src) := {| Scan := wrapper.Scan |}.
Global Instance scannableWrapper_AdvancedScannable {Src} `{!Scannable Src}
  : AdvancedScannable (scannableWrapper Src) := {| ColumnTypes := wrapper.ColumnTypes |}.
Global Instance scannableWrapper_IterableScannable {Src} `{!Scannable Src}
  : IterableScannable (scannableWrapper Src) := {| Next := wrapper.Next; Err := wrapper.Err |}.

(** [func WrapBasic(inner Scannable) IterableScannable] *)
Definition WrapBasic {Src} (inner : Src) : scannableWrapper Src := mkScannableWrapper inner false.

(** ** User-defined methods of the targets *)

(** The [GetFields] and [PostScan] methods that target types may define,
    given by their results on each receiver value. *)
Class UserMethods := {
  GetFields_method : Value → NamedFields.t * option error;
  PostScan_method : Value → option error
}.

(** ** The world of a call *)

(** Calls into code outside the package, in the order they are made. *)
Inductive Event :=
| CallScan (receivers : list Receiver)
| CallColumnTypes
| CallNext
| CallErr
| CallGetFields (g : Value)
| CallPostScan (pp : Value).

(** The state a call runs in: the row source, the memory the receivers point
    into, the package-level field cache, and the calls made so far. *)
Record World (Src : Type) := mkWorld {
  source : Src;
  memory : Memory;
  fieldsCache : fieldsCacheMap;
  trace : list Event
}.
Arguments mkWorld {Src} _ _ _ _.
Arguments source {Src} _.
Arguments memory {Src} _.
Arguments fieldsCache {Src} _.
Arguments trace {Src} _.

(** Computations of the package: a state transformer that may panic ([None]). *)
Definition M (Src A : Type) : Type := World Src → option (A * World Src).

Global Instance M_ret {Src} : MRet (M Src) := λ A a w, Some (a, w).
Global Instance M_bind {Src} : MBind (M Src) :=
  λ A B k m w, match m w with
               | Some (a, w) => k a w
               | None => None
               end.
(** A step that panics when the pure computation does. *)
Definition orPanic {Src A} (o : option A) : M Src A :=
  λ w, match o with Some a => Some (a, w) | None => None end.

Section Calls.
Context {Src : Type}.

(** [s.Scan(receivers...)] *)
Definition callScan `{!Scannable Src} (receivers : list Receiver) : M Src (option error) :=
  λ w, let '(r, s) := Scan receivers (source w) in
       Some (scanError r,
             mkWorld s (applyStores receivers (stored r) (memory w)) (fieldsCache w)
               (trace w ++ [CallScan receivers])).

(** [adv.ColumnTypes()] *)
Definition callColumnTypes `{!AdvancedScannable Src}
  : M Src (option (list Sql.ColumnType) * option error) :=
  λ w, let '(r, s) := ColumnTypes (source w) in
       Some (r, mkWorld s (memory w) (fieldsCache w) (trace w ++ [CallColumnTypes])).

(** [it.Next()] *)
Definition callNext `{!IterableScannable Src} : M Src bool :=
  λ w, let '(r, s) := Next (source w) in
       Some (r, mkWorld s (memory w) (fieldsCache w) (trace w ++ [CallNext])).

(** [it.Err()] *)
Definition callErr `{!IterableScannable Src} : M Src (option error) :=
  λ w, let '(r, s) := Err (source w) in
       Some (r, mkWorld s (memory w) (fieldsCache w) (trace w ++ [CallErr])).

(** [g.GetFields()] *)
Definition callGetFields `{!UserMethods} (g : Value) : M Src (NamedFields.t * option error) :=
  λ w, Some (GetFields_method g,
             mkWorld (source w) (memory w) (fieldsCache w) (trace w ++ [CallGetFields g])).

(** [pp.PostScan()] *)
Definition callPostScan `{!UserMethods} (pp : Value) : M Src (option error) :=
  λ w, Some (PostScan_method pp,
             mkWorld (source w) (memory w) (fieldsCache w) (trace w ++ [CallPostScan pp])).

(** A transition of the field cache, run in the world. *)
Definition onCache {A} (f : fieldsCacheMap → option (A * fieldsCacheMap)) : M Src A :=
  λ w, match f (fieldsCache w) with
       | Some (a, c) => Some (a, mkWorld (source w) (memory w) c (trace w))
       | None => None
       end.

(** A transition of the memory, run in the world. *)
Definition onMemory {A} (f : Memory → option (A * Memory)) : M Src A :=
  λ w, match f (memory w) with
       | Some (a, mem) => Some (a, mkWorld (source w) mem (fieldsCache w) (trace w))
       | None => None
       end.
End Calls.

(** ** BuildMap and ScanWithMappedFields *)

Section Scanning.
Context {Src : Type}.

(** [func BuildMap(adv AdvancedScannable, fields NamedFields) (ScanMap, error)] *)
Definition BuildMap `{!AdvancedScannable Src} (fields : NamedFields.t)
  : M Src (option ScanMap * option error) :=
  '(columns, err) ← callColumnTypes;
  match err with
  | Some err => mret (None, Some err)
  | None =>
      match columns with
      | None => mret (None, None)
      | Some columns =>
          output ← orPanic (matchColumns columns (NamedFields.Names fields));
          mret (Some output, None)
      end
  end.

(** [s[i]] with Go's bounds check. *)
Definition index {A} (s : list A) (i : Z) : option A :=
  if decide (0 ≤ i) then s !! Z.to_nat i else None.

(** [func ScanWithMappedFields(s Scannable, m ScanMap, fields NamedFields) error] *)
Definition ScanWithMappedFields `{!Scannable Src} (m : option ScanMap)
    (fields : NamedFields.t) : M Src (option error) :=
  field_list ←
    match m with
    | None => mret (NamedFields.Fields fields)
    | Some m =>
        orPanic (mapM (λ idx_into,
                         if decide (idx_into = -1) then Some noopScanner
                         else index (NamedFields.Fields fields) idx_into) m)
    end;
  if decide (len field_list = 0)
  then mret (Some "cannot scan into empty list of fields")
  else callScan field_list.

(** [func ScanWithFields(adv AdvancedScannable, fields NamedFields) error] *)
Definition ScanWithFields `{!AdvancedScannable Src} (fields : NamedFields.t)
  : M Src (option error) :=
  '(m, err) ← BuildMap fields;
  match err with
  | Some err => mret (Some err)
  | None => ScanWithMappedFields m fields
  end.
End Scanning.

(** ** reflect.Value *)

(** A [reflect.Value]: the value it holds and whether it is addressable and
    settable (it was reached through a pointer). *)
Record rvalue := mkValue { val : Value; canSet : bool }.

(** [type ScanInto interface{}]: any Go value, possibly a [reflect.Value]. *)
Inductive ScanInto :=
| Plain (v : Value)
| Reflected (v : rvalue).

(** [type ScanIntoArray interface{}] *)
Abbreviation ScanIntoArray := Value.

Module Rv.
(** [reflect.ValueOf(i)] *)
Definition ValueOf (i : Value) : rvalue := mkValue i false.

(** The zero [reflect.Value]. *)
Definition zero : rvalue := mkValue Nil false.

(** [Value.Kind()] *)
Definition Kind (v : rvalue) : Reflect.Kind :=
  match val v with
  | Nil => Reflect.Invalid
  | NilPointer _ | Pointer _ _ => Reflect.Ptr
  | InterfaceVar _ _ => Reflect.Interface
  | StructVal _ _ => Reflect.Struct
  | SliceVal _ _ => Reflect.Slice
  | Opaque t => Reflect.kind t
  end.

(** [Value.Type()]; it panics on the zero Value. *)
Definition Typ (v : rvalue) : option Reflect.rtype :=
  match val v with
  | Nil => None
  | NilPointer t | Pointer t _ | InterfaceVar t _ | StructVal t _ | SliceVal t _
  | Opaque t => Some t
  end.

(** [Value.Elem()]: the target of a pointer (the zero Value for a nil
    pointer) or the content of an interface; it panics on other kinds. *)
Definition Elem (v : rvalue) : option rvalue :=
  match val v with
  | Pointer _ x => Some (mkValue x true)
  | NilPointer _ => Some zero
  | InterfaceVar _ x => Some (mkValue x false)
  | _ => None
  end.

(** [Value.CanSet()] *)
Definition CanSet (v : rvalue) : bool := canSet v.

(** [Value.Interface()]: the value as an [interface{}]; it panics on the
    zero Value. *)
Definition Interface (v : rvalue) : option Value :=
  match val v with
  | Nil => None
  | InterfaceVar _ x => Some x
  | x => Some x
  end.

(** The dynamic type of an [interface{}], if it is not nil. *)
Definition dynamicType (i : Value) : option Reflect.rtype := Typ (ValueOf i).

(** The type reached from a struct type along an index path, as walked by
    [Value.FieldByIndex]; it panics when an index is out of range or the
    path leaves the struct. *)
Fixpoint fieldType (t : Reflect.rtype) (path : list nat) : option Reflect.rtype :=
  match path with
  | [] => Some t
  | i :: path => f ← Reflect.fields t !! i; fieldType (Reflect.Typ f) path
  end.

(** The value of type [t] held at place [p].  The memory tracks the contents
    of structs only; anything else holds its zero value. *)
Definition valueAt (t : Reflect.rtype) (p : Place) : Value :=
  match t with
  | Reflect.StructOf _ _ _ _ => StructVal t p
  | Reflect.PtrTo _ => NilPointer t
  | Reflect.InterfaceOf _ _ => InterfaceVar t Nil
  | _ => Opaque t
  end.
End Rv.

(** ** From target objects to NamedFields *)

(** What the unwrapping loop of [internalNormalizeObjects] ends with: a value
    whose type implements [GetFields], or the value at which the loop stopped. *)
Inductive Unwrapped :=
| Implementor (v : rvalue)
| Stopped (v : rvalue).

(** [for v.Kind() != reflect.Invalid {
       if v.Type().Implements(getFieldsType) { ...; continue Outer }
       if v.Kind() == reflect.Ptr || v.Kind() == reflect.Interface { v = v.Elem(); continue }
       break }] *)
Fixpoint unwrapValue (x : Value) (settable : bool) : option Unwrapped :=
  match x with
  | Nil => Some (Stopped (mkValue x settable))
  | NilPointer t =>
      if Reflect.GetFields (Reflect.methods t) then Some (Implementor (mkValue x settable))
      else Some (Stopped Rv.zero)
  | Pointer t y =>
      if Reflect.GetFields (Reflect.methods t) then Some (Implementor (mkValue x settable))
      else unwrapValue y true
  | InterfaceVar t y =>
      if Reflect.GetFields (Reflect.methods t) then Some (Implementor (mkValue x settable))
      else unwrapValue y false
  | StructVal t _ | SliceVal t _ =>
      if Reflect.GetFields (Reflect.methods t) then Some (Implementor (mkValue x settable))
      else Some (Stopped (mkValue x settable))
  | Opaque t =>
      if Reflect.GetFields (Reflect.methods t) then Some (Implementor (mkValue x settable))
      else if decide (Reflect.kind t = Reflect.Ptr ∨ Reflect.kind t = Reflect.Interface)
      then None
      else Some (Stopped (mkValue x settable))
  end.

(** [func internalNormalizeObjects(into []ScanInto, ignoreUnsettable bool)
       (out_vals []reflect.Value, out_types []reflect.Type, err error)] *)
Fixpoint internalNormalizeObjects (into : list ScanInto) (ignoreUnsettable : bool)
    (out_vals : list rvalue) (out_types : list Reflect.rtype)
  : option (list rvalue * list Reflect.rtype * option error) :=
  match into with
  | [] => Some (out_vals, out_types, None)
  | i :: into =>
      let v := match i with Reflected v => v | Plain i => Rv.ValueOf i end in
      u ← unwrapValue (val v) (canSet v);
      match u with
      | Implementor v =>
          t ← Rv.Typ v;
          internalNormalizeObjects into ignoreUnsettable (out_vals ++ [v]) (out_types ++ [t])
      | Stopped v =>
          if (ignoreUnsettable || Rv.CanSet v) && bool_decide (Rv.Kind v = Reflect.Struct)
          then
            t ← Rv.Typ v;
            internalNormalizeObjects into ignoreUnsettable (out_vals ++ [v]) (out_types ++ [t])
          else
            Some ([], [], Some ("incompatible object type: " +:+ Reflect.Kind_String (Rv.Kind v)
                                +:+ " (need a pointer or an sql.Scanner)"))
      end
  end.

(** [func NormalizeObjects(into []ScanInto) (...)] *)
Definition NormalizeObjects (into : list ScanInto)
  : option (list rvalue * list Reflect.rtype * option error) :=
  internalNormalizeObjects into false [] [].

Section Fields.
Context {Src : Type} `{!UserMethods}.

(** [func GetNamedFieldsMakers(types []reflect.Type) (output []NamedFieldsMaker, err error)] *)
Fixpoint GetNamedFieldsMakers_from (types : list Reflect.rtype) (output : list NamedFieldsMaker)
  : M Src (list NamedFieldsMaker * option error) :=
  match types with
  | [] => mret (output, None)
  | t :: types =>
      '(cached, err) ← onCache (getFieldCachesFor t);
      match err with
      | Some err => mret ([], Some err)
      | None => GetNamedFieldsMakers_from types (output ++ [cached])
      end
  end.
Definition GetNamedFieldsMakers (types : list Reflect.rtype)
  : M Src (list NamedFieldsMaker * option error) :=
  GetNamedFieldsMakers_from types [].

(** [func (n namedFieldsFromGetFields) NamedFields(v reflect.Value) (NamedFields, error)] *)
Definition namedFieldsFromGetFields_NamedFields (v : rvalue)
  : M Src (NamedFields.t * option error) :=
  g ← orPanic (Rv.Interface v);
  match Rv.dynamicType g with
  | Some t =>
      if Reflect.GetFields (Reflect.methods t) then callGetFields g
      else mret (NamedFields.zero, Some "Object does not implement GetFields")
  | None => mret (NamedFields.zero, Some "Object does not implement GetFields")
  end.

(** The body of the loop of [fieldCacheEntry.NamedFields] for entry [i]:
    [f := v.FieldByIndex(c.Fields[i]); if !c.IsScanner[i] { f = f.Addr() };
     n.Push(c.Names[i], f.Interface())]. *)
Definition renderField (c : fieldCacheEntry.t) (v : rvalue) (i : nat) (n : NamedFields.t)
  : option NamedFields.t :=
  path ← fieldCacheEntry.Fields c !! i;
  '(t, p) ← match val v with StructVal t p => Some (t, p) | _ => None end;
  _ ← Rv.fieldType t path;
  scanner ← fieldCacheEntry.IsScanner c !! i;
  name ← fieldCacheEntry.Names c !! i;
  if (scanner : bool) then Some (NamedFields.Push n name (FieldValue p path))
  else if canSet v then Some (NamedFields.Push n name (FieldAddr p path))
  else None.

(** [func (c fieldCacheEntry) NamedFields(v reflect.Value) (n NamedFields, err error)] *)
Definition fieldCacheEntry_NamedFields (c : fieldCacheEntry.t) (v : rvalue)
  : option (NamedFields.t * option error) :=
  n ← foldl (λ n i, n ← n; renderField c v i n) (Some NamedFields.zero)
        (seq 0 (length (fieldCacheEntry.Names c)));
  Some (n, None).

(** [n.NamedFields(v)] on a [NamedFieldsMaker]. *)
Definition NamedFieldsMaker_NamedFields (n : NamedFieldsMaker) (v : rvalue)
  : M Src (NamedFields.t * option error) :=
  match n with
  | namedFieldsFromGetFields => namedFieldsFromGetFields_NamedFields v
  | cachedFields c => orPanic (fieldCacheEntry_NamedFields c v)
  end.

(** The loop of [RenderNamedFields]; [values[i]] panics when out of range. *)
Fixpoint RenderNamedFields_from (i : nat) (nfm : list NamedFieldsMaker)
    (values : list rvalue) (output : NamedFields.t)
  : M Src (NamedFields.t * option error) :=
  match nfm with
  | [] => mret (output, None)
  | n :: nfm =>
      v ← orPanic (values !! i);
      '(fields, err) ← NamedFieldsMaker_NamedFields n v;
      match err with
      | Some err => mret (NamedFields.zero, Some err)
      | None => RenderNamedFields_from (S i) nfm values (NamedFields.Append output fields)
      end
  end.

(** [func RenderNamedFields(nfm []NamedFieldsMaker, values []reflect.Value) (NamedFields, error)] *)
Definition RenderNamedFields (nfm : list NamedFieldsMaker) (values : list rvalue)
  : M Src (NamedFields.t * option error) :=
  if decide (len nfm ≠ len values)
  then mret (NamedFields.zero, Some "incorrect number of parameters")
  else RenderNamedFields_from 0 nfm values NamedFields.zero.

(** [func GetFieldsFrom(into ...ScanInto) (output NamedFields, err error)] *)
Definition GetFieldsFrom (into : list ScanInto) : M Src (NamedFields.t * option error) :=
  '(values, types, err) ← orPanic (NormalizeObjects into);
  match err with
  | Some err => mret (NamedFields.zero, Some err)
  | None =>
      '(nfm, err) ← GetNamedFieldsMakers types;
      match err with
      | Some err => mret (NamedFields.zero, Some err)
      | None => RenderNamedFields nfm values
      end
  end.

(** The loop [for _, x := range into[1:]] of [BuildNamedFields]. *)
Fixpoint BuildNamedFields_rest (rest : list ScanInto) (fields : NamedFields.t)
  : M Src (NamedFields.t * option error) :=
  match rest with
  | [] => mret (fields, None)
  | x :: rest =>
      '(new_fields, new_err) ← GetFieldsFrom [x];
      match new_err with
      | Some new_err => mret (NamedFields.zero, Some new_err)
      | None => BuildNamedFields_rest rest (NamedFields.Append fields new_fields)
      end
  end.

(** [func BuildNamedFields(into []ScanInto) (NamedFields, error)] *)
Definition BuildNamedFields (into : list ScanInto) : M Src (NamedFields.t * option error) :=
  match into with
  | [] => mret (NamedFields.zero, Some "empty output object list")
  | into0 :: rest =>
      '(fields, err) ← GetFieldsFrom [into0];
      match err with
      | Some err => mret (NamedFields.zero, Some err)
      | None => BuildNamedFields_rest rest fields
      end
  end.

(** [pp, ok := i.(ScanIntoPostProcessable)]: the assertion succeeds when the
    dynamic type of [i] has a [PostScan] method. *)
Definition asPostProcessable (i : ScanInto) : option Value :=
  match i with
  | Plain v =>
      match Rv.dynamicType v with
      | Some t => if Reflect.PostProcessable (Reflect.methods t) then Some v else None
      | None => None
      end
  | Reflected _ => None
  end.

(** [func postScan(into []ScanInto) error] *)
Fixpoint postScan (into : list ScanInto) : M Src (option error) :=
  match into with
  | [] => mret None
  | i :: into =>
      match asPostProcessable i with
      | Some pp =>
          err ← callPostScan pp;
          match err with
          | Some err => mret (Some err)
          | None => postScan into
          end
      | None => postScan into
      end
  end.

(** [func QuickScan(s Scannable, into ...ScanInto) error] *)
Definition QuickScan `{!Scannable Src} (into : list ScanInto) : M Src (option error) :=
  '(fields, err) ← BuildNamedFields into;
  match err with
  | Some err => mret (Some err)
  | None =>
      err ← ScanWithMappedFields None fields;
      match err with
      | Some err => mret (Some err)
      | None => postScan into
      end
  end.

(** [func Scan(adv AdvancedScannable, into ...ScanInto) error] *)
Definition Scan_ `{!AdvancedScannable Src} (into : list ScanInto) : M Src (option error) :=
  '(fields, err) ← BuildNamedFields into;
  match err with
  | Some err => mret (Some err)
  | None =>
      err ← ScanWithFields fields;
      match err with
      | Some err => mret (Some err)
      | None => postScan into
      end
  end.

(** [func ScanWithMap(s Scannable, m ScanMap, into ...ScanInto) error] *)
Definition ScanWithMap `{!Scannable Src} (m : option ScanMap) (into : list ScanInto)
  : M Src (option error) :=
  '(fields, err) ← BuildNamedFields into;
  match err with
  | Some err => mret (Some err)
  | None =>
      err ← ScanWithMappedFields m fields;
      match err with
      | Some err => mret (Some err)
      | None => postScan into
      end
  end.
End Fields.

(** ** ScanArray *)

(** How a call ended: it returned, or the model ran out of fuel while the row
    source kept announcing rows. *)
Inductive Outcome :=
| Returned (err : option error)
| Unfinished.

(** How the loop [for it.Next()] was left. *)
Inductive LoopExit :=
| Failed (err : error)   (* a [return err] inside the loop *)
| Exhausted              (* [it.Next()] returned false *)
| OutOfFuel.

(** [func getSlices(into []ScanIntoArray) (out []reflect.Value, err error)] *)
Fixpoint getSlices_from (into : list ScanIntoArray) (out : list rvalue)
  : option (list rvalue * option error) :=
  match into with
  | [] => Some (out, None)
  | x :: into =>
      let ps := Rv.ValueOf x in
      if decide (Rv.Kind ps ≠ Reflect.Ptr)
      then Some ([], Some "elements must be pointers to slice")
      else
        ps ← Rv.Elem ps;
        if decide (Rv.Kind ps ≠ Reflect.Slice)
        then Some ([], Some "elements must be pointers to slice")
        else getSlices_from into (out ++ [ps])
  end.
Definition getSlices (into : list ScanIntoArray) : option (list rvalue * option error) :=
  getSlices_from into [].

(** [func newValueForSliceContents(slice reflect.Value) interface{}]:
    [reflect.New(slice.Type().Elem()).Interface()], the [k]-th allocation of
    the call. *)
Definition newValueForSliceContents (k : nat) (slice : rvalue) : option Value :=
  t ← Rv.Typ slice;
  e ← Reflect.Elem t;
  Some (Pointer (Reflect.PtrTo e) (Rv.valueAt e (PNew k))).

(** [zeros := make([]ScanInto, len(slices));
     for i := range slices { zeros[i] = newValueForSliceContents(slices[i]) }] *)
Definition newZeros (slices : list rvalue) : option (list ScanInto) :=
  mapM (λ '(i, s), Plain <$> newValueForSliceContents i s) (imap pair slices).

(** [s.Set(reflect.Append(s, reflect.Indirect(reflect.ValueOf(zero))))]: the
    object behind [zero] is never stored to, so the appended element is the
    zero instance. *)
Definition appendZero (s : rvalue) (zero : ScanInto) (mem : Memory) : option Memory :=
  match val s with
  | SliceVal _ l =>
      xs ← slices mem !! l;
      Some (mkMemory (structs mem) (<[l := xs ++ [∅]]> (slices mem)))
  | _ => None
  end.

(** [for i, s := range slices { s.Set(reflect.Append(s, ...zeros[i]...)) }] *)
Fixpoint appendZeros (i : nat) (slices : list rvalue) (zeros : list ScanInto)
    (mem : Memory) : option Memory :=
  match slices with
  | [] => Some mem
  | s :: slices =>
      zero ← zeros !! i;
      mem ← appendZero s zero mem;
      appendZeros (S i) slices zeros mem
  end.

(** [s.Index(s.Len() - 1)] *)
Definition lastElement (s : rvalue) (mem : Memory) : option rvalue :=
  match val s with
  | SliceVal t l =>
      xs ← slices mem !! l;
      e ← Reflect.Elem t;
      if decide (length xs = 0%nat) then None
      else Some (mkValue (Rv.valueAt e (PElem l (length xs - 1))) true)
  | _ => None
  end.

(** [func renderInto(slices []reflect.Value) (out []reflect.Value)] *)
Definition renderInto (slices : list rvalue) (mem : Memory) : option (list rvalue) :=
  mapM (λ s, lastElement s mem) slices.

(** [slices[i].SetLen(slices[i].Len() - 1)]; a negative length panics. *)
Definition dropLast (s : rvalue) (mem : Memory) : option Memory :=
  match val s with
  | SliceVal _ l =>
      xs ← slices mem !! l;
      if decide (length xs = 0%nat) then None
      else Some (mkMemory (structs mem) (<[l := take (length xs - 1) xs]> (slices mem)))
  | _ => None
  end.

(** The deferred function of [ScanArray] when [rewind] is still true:
    [for i := range slices { slices[i].SetLen(slices[i].Len() - 1) }]. *)
Fixpoint rewindSlices (slices : list rvalue) (mem : Memory) : option Memory :=
  match slices with
  | [] => Some mem
  | s :: slices => mem ← dropLast s mem; rewindSlices slices mem
  end.

Section Arrays.
Context {Src : Type} `{!IterableScannable Src} `{!UserMethods}.

(** What [ScanArray] has computed when it reaches its loop. *)
Record Prepared := mkPrepared {
  p_slices : list rvalue;
  p_zeros : list ScanInto;
  p_nfm : list NamedFieldsMaker;
  p_smap : option ScanMap
}.

(** The statements of [ScanArray] before [rewind := true]: each failure
    returns its error at once. *)
Definition prepare (into : list ScanIntoArray) : M Src (error + Prepared) :=
  '(slices, err) ← orPanic (getSlices into);
  match err with
  | Some err => mret (inl err)
  | None =>
      zeros ← orPanic (newZeros slices);
      '(values, types, err) ← orPanic (internalNormalizeObjects zeros true [] []);
      match err with
      | Some err => mret (inl err)
      | None =>
          '(nfm, err) ← GetNamedFieldsMakers types;
          match err with
          | Some err => mret (inl err)
          | None =>
              '(named_fields, err) ← RenderNamedFields nfm values;
              match err with
              | Some err => mret (inl err)
              | None =>
                  '(smap, err) ← BuildMap named_fields;
                  match err with
                  | Some err => mret (inl err)
                  | None => mret (inr (mkPrepared slices zeros nfm smap))
                  end
              end
          end
      end
  end.

(** The body of the loop, after [it.Next()] returned true; [Some err] is a
    [return err]. *)
Definition row (p : Prepared) : M Src (option error) :=
  _ ← onMemory (λ mem, mem ← appendZeros 0 (p_slices p) (p_zeros p) mem; Some ((), mem));
  err ← callErr;
  match err with
  | Some err => mret (Some err)
  | None =>
      elements ← onMemory (λ mem, out ← renderInto (p_slices p) mem; Some (out, mem));
      '(named_fields, err) ← RenderNamedFields (p_nfm p) elements;
      match err with
      | Some err => mret (Some err)
      | None => ScanWithMappedFields (p_smap p) named_fields
      end
  end.

(** [for it.Next() { ... }], for at most [fuel] calls of [it.Next()]. *)
Fixpoint rows (fuel : nat) (p : Prepared) : M Src LoopExit :=
  match fuel with
  | O => mret OutOfFuel
  | S fuel =>
      more ← callNext;
      if (more : bool)
      then err ← row p;
           match err with
           | Some err => mret (Failed err)
           | None => rows fuel p
           end
      else mret Exhausted
  end.

(** [func ScanArray(it IterableScannable, into ...ScanIntoArray) error] *)
Definition ScanArray (fuel : nat) (into : list ScanIntoArray) : M Src Outcome :=
  p ← prepare into;
  match p with
  | inl err => mret (Returned (Some err))
  | inr p =>
      exit ← rows fuel p;
      match exit with
      | Failed err =>
          (* the deferred function runs with [rewind == true] *)
          _ ← onMemory (λ mem, mem ← rewindSlices (p_slices p) mem; Some ((), mem));
          mret (Returned (Some err))
      | Exhausted => mret (Returned None)
      | OutOfFuel => mret Unfinished
      end
  end.
End Arrays.

(** ** Calls on a wrapped row source *)

(** The methods a caller can invoke on the [IterableScannable] returned by
    [WrapBasic], and what each call returns. *)
Inductive WrapperCall :=
| DoScan (receivers : list Receiver)
| DoColumnTypes
| DoNext
| DoErr.

Inductive WrapperReturn :=
| ScanReturned (r : ScanResult)
| ColumnTypesReturned (columns : option (list Sql.ColumnType)) (err : option error)
| NextReturned (more : bool)
| ErrReturned (err : option error).

Section WrapperCalls.
Context {Src : Type} `{!Scannable Src}.

Definition perform (c : WrapperCall) (s : scannableWrapper Src)
  : WrapperReturn * scannableWrapper Src :=
  match c with
  | DoScan receivers => let '(r, s) := Scan receivers s in (ScanReturned r, s)
  | DoColumnTypes => let '((columns, err), s) := ColumnTypes s in (ColumnTypesReturned columns err, s)
  | DoNext => let '(more, s) := Next s in (NextReturned more, s)
  | DoErr => let '(err, s) := Err s in (ErrReturned err, s)
  end.

(** The returns of a sequence of calls, in order. *)
Fixpoint performAll (cs : list WrapperCall) (s : scannableWrapper Src) : list WrapperReturn :=
  match cs with
  | [] => []
  | c :: cs => let '(r, s) := perform c s in r :: performAll cs s
  end.
End WrapperCalls.

Definition isNext (c : WrapperCall) : bool :=
  match c with DoNext => true | _ => false end.

(** What the calls of [Next] returned. *)
Definition nextReturns (rs : list WrapperReturn) : list bool :=
  omap (λ r, match r with NextReturned more => Some more | _ => None end) rs.

(** ** A row source for examples *)

(** One row of a result set: the values its transfer stores, receiver by
    receiver, and the error the transfer ends with, if any. *)
Record Row := mkRow { values : list string; failure : option error }.

(** A result set: its column names (nil when unavailable), the row the
    cursor is on and the rows still to come. *)
Record Rows := mkRows {
  columnNames : option (list string);
  current : option Row;
  pending : list Row
}.

Global Instance Rows_Scannable : Scannable Rows := {|
  Scan _ s :=
    match current s with
    | Some r => (mkScanResult (Some <$> values r) (failure r), s)
    | None => (mkScanResult [] (Some "Scan called without calling Next"), s)
    end
|}.
Global Instance Rows_AdvancedScannable : AdvancedScannable Rows := {|
  ColumnTypes s :=
    (columnsNamed <$> columnNames s, None, s)
|}.
Global Instance Rows_IterableScannable : IterableScannable Rows := {|
  Next s :=
    match pending s with
    | r :: rest => (true, mkRows (columnNames s) (Some r) rest)
    | [] => (false, mkRows (columnNames s) None [])
    end;
  Err s := (None, s)
|}.

(** The post-scan hooks called, in order. *)
Definition hooksCalled (tr : list Event) : list Value :=
  omap (λ e, match e with CallPostScan pp => Some pp | _ => None end) tr.

(** The targets of a scan that have a post-scan hook, in target order. *)
Definition postProcessables (into : list ScanInto) : list Value :=
  omap asPostProcessable into.

(** ** Descriptors, stated on the declared fields

    The reference against which the builder is checked.  An entry of a
    descriptor is an external name, a field path and the self-scanning flag. *)

Abbreviation Entry := (string * list nat * bool)%type.

(** The entries of a descriptor, and the descriptor with given entries. *)
Definition entriesOf (c : fieldCacheEntry.t) : list Entry :=
  zip (zip (fieldCacheEntry.Names c) (fieldCacheEntry.Fields c)) (fieldCacheEntry.IsScanner c).
Definition ofEntries (es : list Entry) : fieldCacheEntry.t :=
  fieldCacheEntry.mk (es.*1.*1) (es.*1.*2) (es.*2).

(** The external name of a field: the value of its [dml] tag, if the field is
    exported and carries one. *)
Definition dmlName (f : Reflect.StructField) : option string :=
  let '(name, ok) := Reflect.Lookup (Reflect.Tag f) "dml" in
  if bool_decide (String.length (Reflect.PkgPath f) = 0%nat) && ok then Some name else None.

(** A field that is expanded: an anonymous field of struct kind that has no
    external name of its own. *)
Definition expanded (f : Reflect.StructField) : bool :=
  match dmlName f with
  | Some _ => false
  | None => Reflect.Anonymous f && bool_decide (Reflect.kind (Reflect.Typ f) = Reflect.Struct)
  end.

(** The entries that the fields [fs], declared from index [i] on, contribute
    in declaration order: a field with an external name gives one entry, an
    expanded field gives the entries [rec] of its own type under the path
    extended by its index, any other field gives none. *)
Definition describeFields (rec : Reflect.rtype → list nat → list Entry) (path : list nat)
  : nat → list Reflect.StructField → list Entry :=
  fix go (i : nat) (fs : list Reflect.StructField) :=
    match fs with
    | [] => []
    | f :: fs =>
        match dmlName f with
        | Some name => [(name, path ++ [i], Reflect.Scanner (Reflect.methods (Reflect.Typ f)))]
        | None => if expanded f then rec (Reflect.Typ f) (path ++ [i]) else []
        end ++ go (S i) fs
    end.

Fixpoint describe (t : Reflect.rtype) (path : list nat) : list Entry :=
  match t with
  | Reflect.StructOf _ fs _ _ => describeFields describe path 0%nat fs
  | _ => []
  end.

(** [reaches t q f]: the index path [q] leads from the struct type [t] to its
    field [f], through expanded fields only. *)
Inductive reaches : Reflect.rtype → list nat → Reflect.StructField → Prop :=
| reaches_field t i f :
    Reflect.fields t !! i = Some f → reaches t [i] f
| reaches_embedded t i g q f :
    Reflect.fields t !! i = Some g → expanded g = true →
    reaches (Reflect.Typ g) q f → reaches t (i :: q) f.

(** Declaration order, depth first, is the lexicographic order of the index
    paths. *)
Fixpoint lexlt (p q : list nat) : Prop :=
  match p, q with
  | _, [] => False
  | [], _ :: _ => True
  | a :: p, b :: q => (a < b)%nat ∨ (a = b ∧ lexlt p q)
  end.

(** The field paths of a list of entries. *)
Definition pathsOf (es : list Entry) : list (list nat) := es.*1.*2.

(** The reading of "the entries of every anonymous embedded structure are
    expanded where it is declared": whatever the builder lists for the type of
    an anonymous field of struct kind, under the path of that field, is listed
    for the enclosing type. *)
Definition expandsEveryEmbedded (t : Reflect.rtype) : Prop :=
  ∀ i f e,
    Reflect.fields t !! i = Some f →
    Reflect.Anonymous f = true →
    Reflect.kind (Reflect.Typ f) = Reflect.Struct →
    e ∈ entriesOf (buildFieldCacheEntryForType (Reflect.Typ f) [i]).1 →
    e ∈ entriesOf (buildFieldCacheEntryForType t []).1.

(** Field and type declarations for examples. *)
Definition stringType : Reflect.rtype :=
  Reflect.Defined Reflect.Str "string" Reflect.noMethods Reflect.noMethods.
(** An exported field [name T `dml:"tag"`]. *)
Definition taggedField (name : string) (t : Reflect.rtype) (tag : string) : Reflect.StructField :=
  Reflect.mkStructField name "" t [("dml", tag)] false.
(** An exported anonymous field [T], with the given tag. *)
Definition embeddedField (name : string) (t : Reflect.rtype) (tag : Reflect.StructTag)
  : Reflect.StructField :=
  Reflect.mkStructField name "" t tag true.
Definition structType (name : string) (fs : list Reflect.StructField) : Reflect.rtype :=
  Reflect.StructOf name fs Reflect.noMethods Reflect.noMethods.

(** [type Inner struct { A string `dml:"a"` }] and
    [type Tagged struct { Inner `dml:"x"` }]: an anonymous embedded struct
    that carries a tag itself. *)
Definition InnerType : Reflect.rtype := structType "Inner" [taggedField "A" stringType "a"].
Definition TaggedType : Reflect.rtype :=
  structType "Tagged" [embeddedField "Inner" InnerType [("dml", "x")]].

(** ** Soundness of the field cache *)

(** Every cached descriptor is the one the builder returns for its type.
    This holds of the empty cache and is kept by every resolution. *)
Definition cacheSound (fieldsCache : fieldsCacheMap) : Prop :=
  ∀ t cached, cacheLookup fieldsCache t = Some cached →
    buildFieldCacheEntryForType t [] = (cached, None).

(** ** The hooks that a scan runs *)

Section Hooks.
Context `{!UserMethods}.

(** The hooks that [postScan] calls on targets with hooks [pps]: in order,
    up to and including the first that fails. *)
Fixpoint hooksRun (pps : list Value) : list Value :=
  match pps with
  | [] => []
  | pp :: pps =>
      match PostScan_method pp with
      | Some _ => [pp]
      | None => pp :: hooksRun pps
      end
  end.

(** The error of the first hook that fails. *)
Fixpoint hooksResult (pps : list Value) : option error :=
  match pps with
  | [] => None
  | pp :: pps =>
      match PostScan_method pp with
      | Some err => Some err
      | None => hooksResult pps
      end
  end.
End Hooks.

(** The world after further calls that change nothing else. *)
Definition afterCalls {Src} (w : World Src) (calls : list Event) : World Src :=
  mkWorld (source w) (memory w) (fieldsCache w) (trace w ++ calls).

(** What an entry point does with the hooks, when it builds the field list of
    [into], scans with [scan] and then runs [postScan]: no hook is called
    before the scan has succeeded, and then the hooks of [hooksRun] are. *)
Definition hooksAfterScan {Src} `{!UserMethods}
    (scan : NamedFields.t → M Src (option error))
    (entry : list ScanInto → M Src (option error))
    (into : list ScanInto) (w : World Src) : Prop :=
  match BuildNamedFields into w with
  | None => entry into w = None
  | Some (_, Some err, w1) =>
      entry into w = Some (Some err, w1)
      ∧ hooksCalled (trace w1) = hooksCalled (trace w)
  | Some (fields, None, w1) =>
      match scan fields w1 with
      | None => entry into w = None
      | Some (Some err, w2) =>
          entry into w = Some (Some err, w2)
          ∧ hooksCalled (trace w2) = hooksCalled (trace w)
      | Some (None, w2) =>
          entry into w
          = Some (hooksResult (postProcessables into),
                  afterCalls w2 (CallPostScan <$> hooksRun (postProcessables into)))
          ∧ hooksCalled (trace w2) = hooksCalled (trace w)
      end
  end.

(** Two targets with a [PostScan] method, of which the first one's fails:
    [type Z2 struct { Name string `dml:"name"` }] with
    [func (z *Z2) PostScan() error], targets [&z0] and [&z1]. *)
Definition hookedType : Reflect.rtype :=
  Reflect.StructOf "Z2" [taggedField "Name" stringType "name"]
    Reflect.noMethods (Reflect.mkMethodSet false false true).
Definition hookedTarget (l : nat) : Value :=
  Pointer (Reflect.PtrTo hookedType) (StructVal hookedType (PVar l)).
Definition abortingHooks : UserMethods := {|
  GetFields_method _ := (NamedFields.zero, None);
  PostScan_method pp :=
    match pp with
    | Pointer _ (StructVal _ (PVar 0)) => Some "abort!"
    | _ => None
    end
|}.

(** ** Rows that went through *)

(** The slice variables behind the targets of [ScanArray], one per target. *)
Definition targets (slices : list rvalue) : list nat :=
  omap (λ s, match val s with SliceVal _ l => Some l | _ => None end) slices.

(** How many of the targets are the slice variable [l]. *)
Definition occurrences (l : nat) (ls : list nat) : nat :=
  length (filter (λ l', l' = l) ls).

Section Completed.
Context {Src : Type} `{!IterableScannable Src} `{!UserMethods}.

(** [completed p k w w']: from [w], the loop of [ScanArray] went [k] times
    through its body without error, reaching [w']. *)
Inductive completed (p : Prepared) : nat → World Src → World Src → Prop :=
| completed_O w : completed p 0 w w
| completed_S k w w1 w2 w3 :
    callNext w = Some (true, w1) →
    row p w1 = Some (None, w2) →
    completed p k w2 w3 →
    completed p (S k) w w3.
End Completed.

(** A target for examples: [var xs []X2] with
    [type X2 struct { Field1 string `dml:"field_1"`; Field2 string `dml:"field_2"` }],
    the slice variable being at address [l]; the target is [&xs]. *)
Definition X2 : Reflect.rtype :=
  structType "X2" [taggedField "Field1" stringType "field_1";
                   taggedField "Field2" stringType "field_2"].
Definition sliceTarget (l : nat) : ScanIntoArray :=
  Pointer (Reflect.PtrTo (Reflect.SliceOf X2)) (SliceVal (Reflect.SliceOf X2) l).
(** No target type defines methods of its own. *)
Definition noUserMethods : UserMethods := {|
  GetFields_method _ := (NamedFields.zero, None);
  PostScan_method _ := None
|}.
(** A result set of two rows, the transfer of the second of which fails
    after it has stored one value. *)
Definition twoRows : Rows :=
  mkRows (Some ["field_2"; "extra"; "field_1"]) None
    [mkRow ["b1"; "x1"; "a1"] None; mkRow ["b2"] (Some "transfer failed")].

(** ** The pairing rule, stated on names alone

    The reference against which both strategies are checked: the [k]-th column
    named [c] (counting from the left) is received by the [k]-th field named
    [c], when there is one, and is discarded otherwise. *)

(** Indices (counted from [k]) at which [x] occurs in [l], in increasing order. *)
Fixpoint positions_from (k : nat) (x : string) (l : list string) : list nat :=
  match l with
  | [] => []
  | y :: l => if decide (y = x) then k :: positions_from (S k) x l
              else positions_from (S k) x l
  end.
Definition positions (x : string) (l : list string) : list nat := positions_from 0 x l.

(** How many times [x] occurs among the first [j] entries of [l]. *)
Definition rank (x : string) (l : list string) (j : nat) : nat :=
  length (positions x (take j l)).

Definition fifoEntry (columns names : list string) (j : nat) (c : string) : Z :=
  match positions c names !! rank c columns j with
  | Some i => Z.of_nat i
  | None => -1
  end.

Definition fifoMap (columns names : list string) : ScanMap :=
  imap (fifoEntry columns names) columns.

(** The matching rule in the words of the specification, as a relation
    between the column names, the field names and a position map. *)
Record FifoPairing (columns names : list string) (out : ScanMap) : Prop := {
  (** one entry per column *)
  fp_length : length out = length columns;
  (** an entry is the discard value or the index of a field of the same name *)
  fp_entry : ∀ j v, out !! j = Some v →
    v = -1 ∨ ∃ i, v = Z.of_nat i ∧ is_Some (names !! i) ∧ names !! i = columns !! j;
  (** a field claims at most one column *)
  fp_once : ∀ j j' i, out !! j = Some (Z.of_nat i) → out !! j' = Some (Z.of_nat i) → j = j';
  (** the column a field claims is the leftmost of its name that no earlier
      field has claimed *)
  fp_leftmost : ∀ j i, out !! j = Some (Z.of_nat i) →
    ∀ j', (j' < j)%nat → columns !! j' = columns !! j →
    ∃ i', (i' < i)%nat ∧ out !! j' = Some (Z.of_nat i');
  (** a field is left without a column only when every column of its name
      is claimed by an earlier field *)
  fp_unmatched : ∀ i n, names !! i = Some n → (∀ j, out !! j ≠ Some (Z.of_nat i)) →
    ∀ j, columns !! j = Some n → ∃ i', (i' < i)%nat ∧ out !! j = Some (Z.of_nat i')
}.

(** ** Representation of the iln queues

    [linked h ns tl] reads the chain of nodes [ns] (address and index of each)
    in the heap, the [next] of the last node being [tl]; [is_iln h p ns] says
    that the pointer [p] heads the queue [ns], whose head node records the
    address of the last node in its [end] field. *)

Fixpoint linked (h : list Iln.iln) (ns : list (nat * Z)) (tl : option nat) : Prop :=
  match ns with
  | [] => True
  | (a, v) :: ns' =>
      ∃ nd, h !! a = Some nd ∧ Iln.index nd = v
            ∧ Iln.next nd = match ns' with [] => tl | (a', _) :: _ => Some a' end
            ∧ linked h ns' tl
  end.

Definition is_iln (h : list Iln.iln) (p : option nat) (ns : list (nat * Z)) : Prop :=
  linked h ns None ∧ NoDup ns.*1 ∧ p = head ns.*1
  ∧ (∀ a nd, p = Some a → h !! a = Some nd → Iln.end_ nd = last ns.*1).


(** The buckets of [columnsByName] hold, for every name [x], the queue [Q x]
    of column indices, in chains that share no node. *)
Definition buckets_inv (h : list Iln.iln) (m : gmap string (option nat))
    (Q : string → list nat) : Prop :=
  ∃ B : string → list (nat * Z),
    (∀ x, is_iln h (bucket m x) (B x))
    ∧ (∀ x, (B x).*2 = Z.of_nat <$> Q x)
    ∧ (∀ x y a, x ≠ y → a ∈ (B x).*1 → a ∉ (B y).*1).


(** ** Relations between worlds and an induction principle *)

(** Induction on run-time types, with the hypothesis for every field of a
    struct type. *)
Section rtype_induction.
Import Reflect.
Variable P : rtype → Prop.
Hypothesis Hdefined : ∀ k n ms pms, P (Defined k n ms pms).
Hypothesis Hstruct : ∀ n fs ms pms, Forall (λ f, P (Typ f)) fs → P (StructOf n fs ms pms).
Hypothesis Hptr : ∀ e, P e → P (PtrTo e).
Hypothesis Hslice : ∀ e, P e → P (SliceOf e).
Hypothesis Hiface : ∀ n ms, P (InterfaceOf n ms).

Fixpoint rtype_induction (t : rtype) : P t :=
  match t with
  | Defined k n ms pms => Hdefined k n ms pms
  | StructOf n fs ms pms =>
      Hstruct n fs ms pms
        ((fix all (fs : list StructField) : Forall (λ f, P (Typ f)) fs :=
            match fs with
            | [] => List.Forall_nil _
            | f :: fs =>
                List.Forall_cons _ _ _
                  (match f return P (Typ f) with
                   | mkStructField _ _ ty _ _ => rtype_induction ty
                   end)
                  (all fs)
            end) fs)
  | PtrTo e => Hptr e (rtype_induction e)
  | SliceOf e => Hslice e (rtype_induction e)
  | InterfaceOf n ms => Hiface n ms
  end.
End rtype_induction.

(** [keeps R m]: whenever [m] runs from [w] to [w'] without panic, [R w w']. *)
Definition keeps {Src A} (R : relation (World Src)) (m : M Src A) : Prop :=
  ∀ w a w', m w = Some (a, w') → R w w'.

(** No hook was called between the two worlds. *)
Definition sameHooks {Src} : relation (World Src) :=
  λ w w', hooksCalled (trace w') = hooksCalled (trace w).

Global Instance sameHooks_PreOrder {Src} : PreOrder (@sameHooks Src).
Proof. split; [by intros w|]. intros w1 w2 w3 H1 H2. unfold sameHooks in *. congruence. Qed.

(** Every slice variable has the same length in the two worlds. *)
Definition sameLengths {Src} : relation (World Src) :=
  λ w w', ∀ l, length <$> slices (memory w') !! l = length <$> slices (memory w) !! l.

Global Instance sameLengths_PreOrder {Src} : PreOrder (@sameLengths Src).
Proof.
  split; [by intros w l|]. intros w1 w2 w3 H1 H2 l. by rewrite H2, H1.
Qed.

Section RowRest.
Context {Src : Type} `{!IterableScannable Src} `{!UserMethods}.

(** The statements of the loop body after the zero values were appended. *)
Definition rowRest (p : Prepared) : M Src (option error) :=
  err ← callErr;
  match err with
  | Some err => mret (Some err)
  | None =>
      elements ← onMemory (λ mem, out ← renderInto (p_slices p) mem; Some (out, mem));
      '(named_fields, err) ← RenderNamedFields (p_nfm p) elements;
      match err with
      | Some err => mret (Some err)
      | None => ScanWithMappedFields (p_smap p) named_fields
      end
  end.
End RowRest.

(** The world in which the example runs: the slice variable at address 1 is
    empty. *)
Definition twoRowsWorld : World Rows :=
  mkWorld twoRows (mkMemory ∅ {[ 1%nat := [] ]}) [] [].

(** The states the example goes through: the descriptor of [X2], the result
    of the preparation, and the worlds after the preparation, after the first
    call of [Next] and after the first row. *)
Definition X2Fields : fieldCacheEntry.t :=
  fieldCacheEntry.mk ["field_1"; "field_2"] [[0%nat]; [1%nat]] [false; false].

Definition twoRowsPrepared : Prepared :=
  mkPrepared [mkValue (SliceVal (Reflect.SliceOf X2) 1) true]
             [Plain (Pointer (Reflect.PtrTo X2) (StructVal X2 (PNew 0)))]
             [cachedFields X2Fields]
             (Some [1%Z; (-1)%Z; 0%Z]).

Definition twoRowsReady : World Rows :=
  mkWorld twoRows (mkMemory ∅ {[ 1%nat := [] ]}) [(X2, X2Fields)] [CallColumnTypes].

Definition twoRowsFirst : World Rows :=
  mkWorld (mkRows (columnNames twoRows) (Some (mkRow ["b1"; "x1"; "a1"] None))
                  [mkRow ["b2"] (Some "transfer failed")])
          (mkMemory ∅ {[ 1%nat := [] ]}) [(X2, X2Fields)] [CallColumnTypes; CallNext].

Definition twoRowsOneDone : World Rows :=
  mkWorld (source twoRowsFirst)
          (mkMemory ∅ {[ 1%nat := [ {[ [0%nat] := "a1"; [1%nat] := "b1" ]} ] ]})
          [(X2, X2Fields)]
          [CallColumnTypes; CallNext; CallErr;
           CallScan [FieldAddr (PElem 1 0) [1%nat]; noopScanner; FieldAddr (PElem 1 0) [0%nat]]].

(** * Further definitions *)

(** ** Clients of the iln queue *)

(** One call on a queue variable [x]: [x = x.add(i)] or [v, x = x.yoink()]. *)
Inductive QueueOp := DoAdd (i : Z) | DoYoink.

(** What the calls of [yoink] among [ops] return, in order ([None] is the
    nil pointer), when [ops] run on the queue headed by [n]. *)
Fixpoint runQueue (ops : list QueueOp) (n : option nat) (h : Iln.heap)
  : option (list (option Z)) :=
  match ops with
  | [] => Some []
  | DoAdd i :: ops => '(n, h) ← Iln.add n i h; runQueue ops n h
  | DoYoink :: ops =>
      '(x, n, h) ← Iln.yoink n h;
      rest ← runQueue ops n h;
      Some (x :: rest)
  end.

(** The same calls on a first-in first-out queue kept as a list. *)
Fixpoint runFifo (ops : list QueueOp) (q : list Z) : list (option Z) :=
  match ops with
  | [] => []
  | DoAdd i :: ops => runFifo ops (q ++ [i])
  | DoYoink :: ops => head q :: runFifo ops (tail q)
  end.

(** ** Position maps and receiver lists *)

(** An entry of a position map that [ScanWithMappedFields] can follow into a
    field list of [n] receivers: the discard value or an index below [n]. *)
Definition followable (n : nat) (idx_into : Z) : Prop :=
  idx_into = -1 ∨ 0 ≤ idx_into < Z.of_nat n.

Global Instance followable_dec n idx_into : Decision (followable n idx_into).
Proof. unfold followable. apply _. Defined.

(** The receiver for a column mapped to [idx_into]: [noopScanner{}] for the
    discard value, [fields.Fields[idx_into]] otherwise. *)
Definition receiverFor (fields : NamedFields.t) (idx_into : Z) : Receiver :=
  if decide (idx_into = -1) then noopScanner
  else default noopScanner (NamedFields.Fields fields !! Z.to_nat idx_into).

(** The world after the call [adv.ColumnTypes()] left the row source in [s]. *)
Definition afterColumnTypes {Src} (w : World Src) (s : Src) : World Src :=
  mkWorld s (memory w) (fieldsCache w) (trace w ++ [CallColumnTypes]).

(** A row source whose every method fails, as a closed [*sql.Rows] does. *)
Record ClosedRows := mkClosedRows { closedError : error }.

Global Instance ClosedRows_Scannable : Scannable ClosedRows := {|
  Scan _ s := (mkScanResult [] (Some (closedError s)), s)
|}.
Global Instance ClosedRows_AdvancedScannable : AdvancedScannable ClosedRows := {|
  ColumnTypes s := (None, Some (closedError s), s)
|}.
Global Instance ClosedRows_IterableScannable : IterableScannable ClosedRows := {|
  Next s := (false, s);
  Err s := (Some (closedError s), s)
|}.

(** ** Well-formed values *)

(** The kind of the static type of a value agrees with its shape, as the Go
    type system guarantees; values kept opaque are neither pointers nor
    interfaces. *)
Fixpoint wellFormed (x : Value) : Prop :=
  match x with
  | Nil => True
  | NilPointer t => Reflect.kind t = Reflect.Ptr
  | Pointer t y => Reflect.kind t = Reflect.Ptr ∧ wellFormed y
  | InterfaceVar t y => Reflect.kind t = Reflect.Interface ∧ wellFormed y
  | StructVal t _ => Reflect.kind t = Reflect.Struct
  | SliceVal t _ => Reflect.kind t = Reflect.Slice
  | Opaque t => Reflect.kind t ≠ Reflect.Ptr ∧ Reflect.kind t ≠ Reflect.Interface
  end.

(** The [reflect.Value] that a [ScanInto] stands for. *)
Definition valueOfScanInto (i : ScanInto) : rvalue :=
  match i with Reflected v => v | Plain i => Rv.ValueOf i end.

(** What [internalNormalizeObjects] accepts as the value [v] of type [t]: a
    value whose type implements [GetFields], or a struct that is settable
    (or any struct, when unsettable values are let through). *)
Definition normalized (ignoreUnsettable : bool) (v : rvalue) (t : Reflect.rtype) : Prop :=
  Rv.Typ v = Some t
  ∧ (Reflect.GetFields (Reflect.methods t) = true
     ∨ (Reflect.GetFields (Reflect.methods t) = false
        ∧ Rv.Kind v = Reflect.Struct
        ∧ (ignoreUnsettable = true ∨ canSet v = true))).

(** ** Makers and rendered field lists *)

(** The maker that a type resolves to: the shim that calls [GetFields] when
    the type implements it, the descriptor of the struct type otherwise. *)
Definition makerFor (t : Reflect.rtype) : NamedFieldsMaker :=
  if Reflect.GetFields (Reflect.methods t) then namedFieldsFromGetFields
  else cachedFields (ofEntries (describe t [])).

(** Every binding of the first cache is a binding of the second. *)
Definition cacheExtends (c c' : fieldsCacheMap) : Prop :=
  ∀ t cached, cacheLookup c t = Some cached → cacheLookup c' t = Some cached.

(** The world with another field cache. *)
Definition withCache {Src} (w : World Src) (c : fieldsCacheMap) : World Src :=
  mkWorld (source w) (memory w) c (trace w).

(** The receiver that an entry of a descriptor stands for in the struct at
    [p]: the field itself when it scans itself, its address otherwise. *)
Definition receiverOf (p : Place) (e : Entry) : Receiver :=
  if e.2 then FieldValue p e.1.2 else FieldAddr p e.1.2.

(** The field list of the struct of type [t] at [p], read off the
    declaration of [t]. *)
Definition fieldsOf (t : Reflect.rtype) (p : Place) : NamedFields.t :=
  NamedFields.mk (describe t []).*1.*1 (receiverOf p <$> describe t []).

(** [&x] for the struct [x] of type [t] at [p]. *)
Definition addressOf (tp : Reflect.rtype * Place) : Value :=
  Pointer (Reflect.PtrTo tp.1) (StructVal tp.1 tp.2).

(** The concatenation of field lists, in order. *)
Definition concatFields (fs : list NamedFields.t) : NamedFields.t :=
  NamedFields.mk (mjoin (NamedFields.Names <$> fs)) (mjoin (NamedFields.Fields <$> fs)).

(** A struct type without a [GetFields] method, on its values or on pointers
    to them: its fields are found through the [dml] tags. *)
Definition tagged (t : Reflect.rtype) : Prop :=
  Reflect.kind t = Reflect.Struct
  ∧ Reflect.GetFields (Reflect.methods t) = false
  ∧ Reflect.GetFields (Reflect.methods (Reflect.PtrTo t)) = false.

Global Instance cacheExtends_PreOrder : PreOrder cacheExtends.
Proof. split; [by intros c t e|]. intros c1 c2 c3 H1 H2 t e ?. by apply H2, H1. Qed.

(** The targets [&x] for structs [x] given by their types and places, and
    the field list they amount to. *)
Definition addressesOf (tps : list (Reflect.rtype * Place)) : list ScanInto :=
  (λ tp, Plain (addressOf tp)) <$> tps.
Definition fieldsOfAll (tps : list (Reflect.rtype * Place)) : NamedFields.t :=
  concatFields ((λ tp, fieldsOf tp.1 tp.2) <$> tps).

(** ** Relations that the entry points keep *)

(** The cache kept its bindings, and is sound if it was. *)
Definition cacheKept {Src} : relation (World Src) :=
  λ w w', cacheExtends (fieldsCache w) (fieldsCache w')
          ∧ (cacheSound (fieldsCache w) → cacheSound (fieldsCache w')).

(** Calls of the methods of the row source. *)
Definition isSourceCall (e : Event) : bool :=
  match e with
  | CallScan _ | CallColumnTypes | CallNext | CallErr => true
  | CallGetFields _ | CallPostScan _ => false
  end.
(** Calls that ask the row source for a row or transfer one. *)
Definition isRowCall (e : Event) : bool :=
  match e with
  | CallScan _ | CallNext | CallErr => true
  | _ => false
  end.
Definition isGetFieldsCall (e : Event) : bool :=
  match e with CallGetFields _ => true | _ => false end.

(** The calls among [tr] that satisfy [P], in order. *)
Definition callsOf (P : Event → bool) (tr : list Event) : list Event :=
  filter (λ e, P e = true) tr.

(** Nothing happened but calls of [GetFields] and changes of the cache. *)
Definition onlyGetFields {Src} : relation (World Src) :=
  λ w w', source w' = source w ∧ memory w' = memory w
          ∧ ∃ tr, trace w' = trace w ++ tr ∧ Forall (λ e, isGetFieldsCall e = true) tr.

(** The memory is the same and no row was asked for or transferred. *)
Definition noRowTouched {Src} : relation (World Src) :=
  λ w w', memory w' = memory w ∧ callsOf isRowCall (trace w') = callsOf isRowCall (trace w).

Global Instance cacheKept_PreOrder {Src} : PreOrder (@cacheKept Src).
Proof.
  split; [by intros w|]. intros w1 w2 w3 [He1 Hs1] [He2 Hs2]. split; [by etrans|auto].
Qed.
Global Instance onlyGetFields_PreOrder {Src} : PreOrder (@onlyGetFields Src).
Proof.
  split.
  - intros w. split_and!; [done..|]. exists []. by rewrite app_nil_r.
  - intros w1 w2 w3 (Hs1 & Hm1 & tr1 & Ht1 & Hf1) (Hs2 & Hm2 & tr2 & Ht2 & Hf2).
    split_and!; [congruence..|]. exists (tr1 ++ tr2).
    rewrite Ht2, Ht1, app_assoc. split; [done|]. by apply Forall_app.
Qed.
Global Instance noRowTouched_PreOrder {Src} : PreOrder (@noRowTouched Src).
Proof.
  split; [by intros w|]. intros w1 w2 w3 [Hm1 Hc1] [Hm2 Hc2]. split; congruence.
Qed.

(** The slice that a target of [ScanArray] points to, when the target is a
    pointer to a slice. *)
Definition pointedSlice (x : ScanIntoArray) : option rvalue :=
  match x with
  | Pointer _ y =>
      if decide (Rv.Kind (mkValue y true) = Reflect.Slice) then Some (mkValue y true) else None
  | _ => None
  end.

(** The calls that satisfy [P] are the same in the two worlds. *)
Definition sameCalls {Src} (P : Event → bool) : relation (World Src) :=
  λ w w', callsOf P (trace w') = callsOf P (trace w).

(** The calls of the row source made between two worlds. *)
Definition sourceCallsBetween {Src} (w w' : World Src) (calls : list Event) : Prop :=
  callsOf isSourceCall (trace w') = callsOf isSourceCall (trace w) ++ calls.

(** The entries of the descriptors of the targets, each with the place of
    its struct. *)
Definition entriesOfAll (tps : list (Reflect.rtype * Place)) : list (Place * Entry) :=
  mjoin ((λ tp, pair tp.2 <$> describe tp.1 []) <$> tps).

Global Instance sameCalls_PreOrder {Src} P : PreOrder (@sameCalls Src P).
Proof. split; [by intros w|]. intros w1 w2 w3 H1 H2. unfold sameCalls in *. congruence. Qed.

(** ** Targets with a GetFields method *)

(** What [GetFieldsFrom] returns for the result of a [GetFields] call: the
    result itself, with the zero field list in place of whatever came with
    an error. *)
Definition passedOn (r : NamedFields.t * option error) : NamedFields.t * option error :=
  match r with
  | (fields, None) => (fields, None)
  | (_, Some err) => (NamedFields.zero, Some err)
  end.

(** [type Z struct { ... }] with [func (z *Z) GetFields() (NamedFields, error)]:
    a type whose pointers, and only they, implement [GetFields]. *)
Definition pointerImplements (t : Reflect.rtype) : Prop :=
  Reflect.GetFields (Reflect.methods (Reflect.PtrTo t)) = true
  ∧ Reflect.GetFields (Reflect.methods t) = false.

(** The target [&xs] for the slice variable [xs] of type [[]t] at [l]. *)
Definition sliceOf (t : Reflect.rtype) (l : nat) : ScanIntoArray :=
  Pointer (Reflect.PtrTo (Reflect.SliceOf t)) (SliceVal (Reflect.SliceOf t) l).

(** A user whose [GetFields] methods return one receiver of their own. *)
Definition ownFields : UserMethods := {|
  GetFields_method _ := (NamedFields.mk ["field_1"] [UserReceiver 0], None);
  PostScan_method _ := None
|}.

(** [type G struct { Field1 string `dml:"ignored"` }] with
    [func (g *G) GetFields() (NamedFields, error)]. *)
Definition G : Reflect.rtype :=
  Reflect.StructOf "G" [taggedField "Field1" stringType "ignored"]
    Reflect.noMethods (Reflect.mkMethodSet true false false).

(** ** Elements that a row must not touch *)

(** A receiver that stores, if at all, into an element of a slice variable
    [l] at an index not below [n l]. *)
Definition safeReceiver (n : nat → nat) (r : Receiver) : Prop :=
  match r with
  | FieldAddr (PElem l i) _ => (n l ≤ i)%nat
  | FieldAddr (PVar _) _ => False
  | _ => True
  end.

(** A value whose fields, if it is a struct, are those of such an element. *)
Definition safeValue (n : nat → nat) (v : rvalue) : Prop :=
  match val v with
  | StructVal _ (PElem l i) => (n l ≤ i)%nat
  | StructVal _ (PVar _) => False
  | _ => True
  end.

(** The struct variables are the same and every slice variable [l] has the
    same first [n l] elements. *)
Definition firstKept {Src} (n : nat → nat) : relation (World Src) :=
  λ w w', structs (memory w') = structs (memory w)
          ∧ ∀ l, take (n l) <$> slices (memory w') !! l = take (n l) <$> slices (memory w) !! l.

(** The length of the slice variable [l] (0 when there is none). *)
Definition lengthAt (mem : Memory) (l : nat) : nat :=
  default 0%nat (length <$> slices mem !! l).

(** The makers are descriptors: no element type implements [GetFields]. *)
Definition descriptorsOnly (nfm : list NamedFieldsMaker) : Prop :=
  Forall (λ n, n ≠ namedFieldsFromGetFields) nfm.

(** The two-row example, continued: the worlds after the second call of
    [Next] and after the second row, whose transfer failed after it had
    stored one value. *)
Definition twoRowsSecond : World Rows :=
  mkWorld (mkRows (columnNames twoRows) (Some (mkRow ["b2"] (Some "transfer failed"))) [])
          (memory twoRowsOneDone) [(X2, X2Fields)] (trace twoRowsOneDone ++ [CallNext]).

Definition twoRowsFailed : World Rows :=
  mkWorld (source twoRowsSecond)
          (mkMemory ∅ {[ 1%nat := [ {[ [0%nat] := "a1"; [1%nat] := "b1" ]};
                                   {[ [1%nat] := "b2" ]} ] ]})
          [(X2, X2Fields)]
          (trace twoRowsSecond
           ++ [CallErr;
               CallScan [FieldAddr (PElem 1 1) [1%nat]; noopScanner;
                         FieldAddr (PElem 1 1) [0%nat]]]).

Global Instance firstKept_PreOrder {Src} n : PreOrder (@firstKept Src n).
Proof.
  split; [by intros w|]. intros w1 w2 w3 [Hs1 Hl1] [Hs2 Hl2]. split; [congruence|].
  intros l. by rewrite Hl2, Hl1.
Qed.

(** ** ScanArray over a wrapped single row *)

(** The wrapper is in the same state ([done] or not) in the two worlds. *)
Definition sameDone {Src} : relation (World (scannableWrapper Src)) :=
  λ w w', done_ (source w') = done_ (source w).

(** A single row wrapped by [WrapBasic], the world a call starts in, and
    what the preparation of [ScanArray] into [&xs] yields there. *)
Definition oneRow : scannableWrapper Rows :=
  WrapBasic (mkRows None (Some (mkRow ["a1"; "b1"] None)) []).
Definition oneRowWorld : World (scannableWrapper Rows) :=
  mkWorld oneRow (mkMemory ∅ {[ 1%nat := [] ]}) [] [].
Definition oneRowPrepared : Prepared :=
  mkPrepared (p_slices twoRowsPrepared) (p_zeros twoRowsPrepared) (p_nfm twoRowsPrepared) None.
Definition oneRowReady : World (scannableWrapper Rows) :=
  mkWorld oneRow (memory oneRowWorld) [(X2, X2Fields)] [CallColumnTypes].

Global Instance sameDone_PreOrder {Src} : PreOrder (@sameDone Src).
Proof. split; [by intros w|]. intros w1 w2 w3 H1 H2. unfold sameDone in *. congruence. Qed.

(** ** The adapter of scannables.go *)

(** [type dumbAssFuckinAdapter struct { sqlRows }], where the interface
    [sqlRows] has the methods [Scan], [ColumnTypes], [Next] and [Err], those
    of the class [IterableScannable]. *)
Record dumbAssFuckinAdapter (Src : Type) := mkAdapter { sqlRows : Src }.
Arguments mkAdapter {Src} _.
Arguments sqlRows {Src} _.

Module adapter.
Section Methods.
Context {Src : Type} `{!IterableScannable Src}.

(** [func (piss dumbAssFuckinAdapter) ColumnNames() ([]string, error)]:
    [names := []string{}; for _, c := range columns { names = append(names, c.Name()) }]. *)
Definition ColumnNames (piss : dumbAssFuckinAdapter Src)
  : (option (list string) * option error) * dumbAssFuckinAdapter Src :=
  let '(columns, err, s) := ColumnTypes (sqlRows piss) in
  match err with
  | Some err => (None, Some err, mkAdapter s)
  | None =>
      let names := foldl (λ names c, names ++ [Sql.Name c]) [] (default [] columns) in
      (Some names, None, mkAdapter s)
  end.
End Methods.

(** [func X(rows sqlRows, err error) (IterableScannable, error)] *)
Definition X {Src} (rows : Src) (err : option error) : dumbAssFuckinAdapter Src * option error :=
  (mkAdapter rows, err).
End adapter.

(** ** The earlier GetFieldsFrom of cache.go *)

(** [for v.Kind() == reflect.Ptr || v.Kind() == reflect.Interface { v = v.Elem() }] *)
Fixpoint unwrapAll (x : Value) (settable : bool) : option rvalue :=
  match x with
  | Pointer _ y => unwrapAll y true
  | NilPointer _ => Some Rv.zero
  | InterfaceVar _ y => unwrapAll y false
  | Opaque t =>
      if decide (Reflect.kind t = Reflect.Ptr ∨ Reflect.kind t = Reflect.Interface)
      then None
      else Some (mkValue x settable)
  | Nil | StructVal _ _ | SliceVal _ _ => Some (mkValue x settable)
  end.

(** The lookup in [fieldsCache], and if necessary its population, in
    [GetFieldsFrom] of cache.go, as a transition of the cache. *)
Definition cachedFor (t : Reflect.rtype) (fieldsCache : fieldsCacheMap)
  : option (fieldCacheEntry.t * option error * fieldsCacheMap) :=
  match cacheLookup fieldsCache t with
  | Some cached => Some (cached, None, fieldsCache)
  | None =>
      match cacheLookup fieldsCache t with
      | Some cached => Some (cached, None, fieldsCache)
      | None =>
          match buildFieldCacheEntryForType t [] with
          | (_, Some err) => Some (fieldCacheEntry.zero, Some err, fieldsCache)
          | (cached, None) => Some (cached, None, (t, cached) :: fieldsCache)
          end
      end
  end.

(** [func GetFieldsFrom(i ScanInto) (output NamedFields, err error)] of
    cache.go, the one-target predecessor of the variadic [GetFieldsFrom].
    The values of the model are never read-only, so [CanAddr] is [CanSet]. *)
Definition GetFieldsFrom_v1 {Src} `{!UserMethods} (i : ScanInto)
  : M Src (NamedFields.t * option error) :=
  let v := match i with Reflected v => v | Plain i => Rv.ValueOf i end in
  g ← orPanic (Rv.Interface v);
  if match Rv.dynamicType g with
     | Some t => Reflect.GetFields (Reflect.methods t)
     | None => false
     end
  then callGetFields g
  else
    v ← orPanic (unwrapAll (val v) (canSet v));
    if negb (Rv.CanSet v) || bool_decide (Rv.Kind v ≠ Reflect.Struct)
    then mret (NamedFields.zero, Some "nested object is not addressable struct")
    else
      t ← orPanic (Rv.Typ v);
      '(cached, err) ← onCache (cachedFor t);
      match err with
      | Some err => mret (NamedFields.zero, Some err)
      | None => orPanic (fieldCacheEntry_NamedFields cached v)
      end.

(** ** The earlier ScanArray *)

(** The type [int] of the loop index. *)
Definition intType : Reflect.rtype :=
  Reflect.Defined Reflect.Int "int" Reflect.noMethods Reflect.noMethods.

(** [func getSlices(into []ScanIntoArray) (out []reflect.Value, err error)]
    of the earlier version, whose loop starts with [ps := reflect.ValueOf(i)]
    for the index [i] of the element. *)
Fixpoint getSlices_v1_from (i : nat) (into : list ScanIntoArray) (out : list rvalue)
  : option (list rvalue * option error) :=
  match into with
  | [] => Some (out, None)
  | _ :: into =>
      let ps := Rv.ValueOf (Opaque intType) in
      if decide (Rv.Kind ps ≠ Reflect.Ptr)
      then Some ([], Some "elements must be a pointers to slices")
      else
        ps ← Rv.Elem ps;
        if decide (Rv.Kind ps ≠ Reflect.Slice)
        then Some ([], Some "argument must be a pointer to slice")
        else getSlices_v1_from (S i) into (out ++ [ps])
  end.
Definition getSlices_v1 (into : list ScanIntoArray) : option (list rvalue * option error) :=
  getSlices_v1_from 0 into [].

(** [func zeroValueForSliceContents(slice reflect.Value) interface{}]:
    [reflect.Zero(slice.Type().Elem()).Interface()], for the [k]-th slice. *)
Definition zeroValueForSliceContents (k : nat) (slice : rvalue) : option Value :=
  t ← Rv.Typ slice;
  e ← Reflect.Elem t;
  Rv.Interface (mkValue (Rv.valueAt e (PNew k)) false).

Section EarlierArrays.
Context {Src : Type} `{!IterableScannable Src} `{!UserMethods}.

(** The statements of the earlier [ScanArray] before [rewind := true]. *)
Definition prepare_v1 (into : list ScanIntoArray) : M Src (error + Prepared) :=
  '(slices, err) ← orPanic (getSlices_v1 into);
  match err with
  | Some err => mret (inl err)
  | None =>
      zeros ← orPanic (mapM (λ '(i, s), Plain <$> zeroValueForSliceContents i s)
                         (imap pair slices));
      '(values, types, err) ← orPanic (internalNormalizeObjects zeros true [] []);
      match err with
      | Some err => mret (inl err)
      | None =>
          '(nfm, err) ← GetNamedFieldsMakers types;
          match err with
          | Some err => mret (inl err)
          | None =>
              '(named_fields, err) ← RenderNamedFields nfm values;
              match err with
              | Some err => mret (inl err)
              | None =>
                  '(smap, err) ← BuildMap named_fields;
                  match err with
                  | Some err => mret (inl err)
                  | None => mret (inr (mkPrepared slices zeros nfm smap))
                  end
              end
          end
      end
  end.

(** [func ScanArray(it IterableScannable, into ...ScanIntoArray) error] of the
    earlier version; its loop and its deferred function are those of the
    later one. *)
Definition ScanArray_v1 (fuel : nat) (into : list ScanIntoArray) : M Src Outcome :=
  p ← prepare_v1 into;
  match p with
  | inl err => mret (Returned (Some err))
  | inr p =>
      exit ← rows fuel p;
      match exit with
      | Failed err =>
          _ ← onMemory (λ mem, mem ← rewindSlices (p_slices p) mem; Some ((), mem));
          mret (Returned (Some err))
      | Exhausted => mret (Returned None)
      | OutOfFuel => mret Unfinished
      end
  end.
End EarlierArrays.

(** * Theorems *)

(** ** Occurrences and ranks *)

Section Positions.
Implicit Types (x c n : string) (l pre : list string) (j k r : nat).

Lemma positions_from_app k x l1 l2 :
  positions_from k x (l1 ++ l2)
  = positions_from k x l1 ++ positions_from (k + length l1) x l2.
Proof.
  revert k. induction l1 as [|y l1 IH]; intros k; simpl.
  - by rewrite Nat.add_0_r.
  - rewrite IH. replace (S k + length l1)%nat with (k + S (length l1))%nat by lia.
    by case_decide.
Qed.

Lemma positions_snoc x pre n :
  positions x (pre ++ [n])
  = positions x pre ++ (if decide (n = x) then [length pre] else []).
Proof. unfold positions. rewrite positions_from_app. simpl. done. Qed.

Lemma positions_from_S k x l : positions_from (S k) x l = S <$> positions_from k x l.
Proof.
  revert k. induction l as [|y l IH]; intros k; simpl; [done|].
  case_decide; simpl; by rewrite IH.
Qed.

Lemma positions_cons x y l :
  positions x (y :: l) = (if decide (y = x) then [0%nat] else []) ++ (S <$> positions x l).
Proof. unfold positions. simpl. rewrite positions_from_S. by case_decide. Qed.

(** The [r]-th occurrence of [x] is at [j] exactly when [x] is at [j] and
    occurs [r] times before it. *)
Lemma positions_lookup x l r j :
  positions x l !! r = Some j ↔ l !! j = Some x ∧ rank x l j = r.
Proof.
  unfold rank. revert r j. induction l as [|y l IH]; intros r j.
  - split; [done|]. by intros [??].
  - rewrite positions_cons. destruct j as [|j]; simpl.
    + case_decide; simpl.
      * destruct r; simpl. { naive_solver. }
        rewrite list_lookup_fmap. split; [|naive_solver].
        destruct (positions x l !! r); naive_solver.
      * rewrite list_lookup_fmap. split; [|naive_solver].
        destruct (positions x l !! r); naive_solver.
    + rewrite positions_cons, length_app, length_fmap. specialize (IH r j) as IHr.
      case_decide; simpl.
      * destruct r; simpl. { naive_solver. }
        rewrite list_lookup_fmap. specialize (IH r j).
        destruct (positions x l !! r); simpl in *; naive_solver lia.
      * rewrite list_lookup_fmap.
        destruct (positions x l !! r); simpl in *; naive_solver lia.
Qed.

Lemma rank_le x l j : (rank x l j ≤ length (positions x l))%nat.
Proof.
  unfold rank, positions. rewrite <-(take_drop j l) at 2.
  rewrite positions_from_app, length_app. lia.
Qed.

Lemma rank_S x l j c :
  l !! j = Some c →
  rank x l (S j) = (rank x l j + (if decide (c = x) then 1 else 0))%nat.
Proof.
  intros Hj. unfold rank, positions. rewrite (take_S_r _ _ _ Hj), positions_from_app, length_app.
  simpl. by case_decide.
Qed.

Lemma fifoMap_length columns names : length (fifoMap columns names) = length columns.
Proof. unfold fifoMap. by rewrite length_imap. Qed.

Lemma fifoMap_lookup columns names j :
  fifoMap columns names !! j = fifoEntry columns names j <$> columns !! j.
Proof. unfold fifoMap. by rewrite list_lookup_imap. Qed.

Lemma fifoMap_nil columns : fifoMap columns [] = replicate (length columns) (-1).
Proof.
  apply list_eq; intros j. rewrite fifoMap_lookup.
  destruct (columns !! j) as [c|] eqn:Hc; simpl.
  - rewrite lookup_replicate_2; [|by eapply lookup_lt_Some]. done.
  - apply lookup_ge_None in Hc. symmetry. apply lookup_ge_None. by rewrite length_replicate.
Qed.

(** One more field: it takes the first column of its name that no earlier
    field of that name has taken. *)
Lemma fifoMap_snoc columns pre n :
  fifoMap columns (pre ++ [n])
  = match positions n columns !! length (positions n pre) with
    | Some j => <[j := Z.of_nat (length pre)]> (fifoMap columns pre)
    | None => fifoMap columns pre
    end.
Proof.
  apply list_eq; intros j.
  assert (∀ c, columns !! j = Some c →
           (c ≠ n ∨ rank c columns j ≠ length (positions n pre)) →
           fifoEntry columns (pre ++ [n]) j c = fifoEntry columns pre j c) as Hsame.
  { intros c Hc Hor. unfold fifoEntry. rewrite positions_snoc.
    case_decide as Hn; [subst c|by rewrite app_nil_r].
    destruct Hor as [?|Hr]; [done|].
    destruct (decide (rank n columns j < length (positions n pre))%nat).
    - by rewrite lookup_app_l.
    - rewrite !lookup_ge_None_2; [done|lia|rewrite length_app; simpl; lia]. }
  destruct (positions n columns !! _) as [j0|] eqn:Hpos.
  - apply positions_lookup in Hpos as [Hj0 Hr0].
    destruct (decide (j = j0)) as [->|Hne].
    + rewrite list_lookup_insert_eq; [|rewrite fifoMap_length; by eapply lookup_lt_Some].
      rewrite fifoMap_lookup, Hj0. simpl. unfold fifoEntry.
      rewrite positions_snoc, decide_True by done.
      rewrite Hr0. rewrite lookup_app_r by lia. by rewrite Nat.sub_diag.
    + rewrite list_lookup_insert_ne by done. rewrite !fifoMap_lookup.
      destruct (columns !! j) as [c|] eqn:Hc; [simpl|done]. f_equal.
      apply Hsame; [done|]. destruct (decide (c = n)) as [->|]; [right|by left].
      intros Hr. apply Hne.
      assert (positions n columns !! rank n columns j = Some j) as H1
        by (by apply positions_lookup).
      assert (positions n columns !! rank n columns j = Some j0) as H2
        by (rewrite Hr; by apply positions_lookup).
      congruence.
  - rewrite !fifoMap_lookup.
    destruct (columns !! j) as [c|] eqn:Hc; [simpl|done]. f_equal.
    apply Hsame; [done|]. destruct (decide (c = n)) as [->|]; [right|by left].
    intros Hr.
    assert (positions n columns !! rank n columns j = Some j) as H1
      by (by apply positions_lookup).
    congruence.
Qed.
End Positions.

Section Nested.
Variable columns : list Sql.ColumnType.
Let cs := Sql.Name <$> columns.

Lemma rank_all x (l : list string) : rank x l (length l) = length (positions x l).
Proof. unfold rank. by rewrite firstn_all. Qed.

Lemma fifoEntry_discard (names : list string) j c :
  fifoEntry cs names j c = -1 ↔ (length (positions c names) ≤ rank c cs j)%nat.
Proof.
  unfold fifoEntry. destruct (_ !! _) as [i|] eqn:Hi.
  - apply lookup_lt_Some in Hi. split; lia.
  - apply lookup_ge_None in Hi. done.
Qed.

Lemma scanColumns_fifo n pre done rest :
  columns = done ++ rest →
  (rank n cs (length done) ≤ length (positions n pre))%nat →
  scanColumns n (Z.of_nat (length pre)) (length done) rest (fifoMap cs pre)
  = Some (fifoMap cs (pre ++ [n])).
Proof.
  revert done. induction rest as [|c rest IH]; intros done Hcols Hrank.
  - simpl. rewrite fifoMap_snoc. rewrite app_nil_r in Hcols. subst done.
    rewrite lookup_ge_None_2; [done|].
    rewrite <-rank_all. unfold cs. rewrite length_fmap. done.
  - simpl.
    assert (cs !! length done = Some (Sql.Name c)) as Hc.
    { unfold cs. rewrite Hcols, fmap_app, lookup_app_r by (rewrite length_fmap; lia).
      by rewrite length_fmap, Nat.sub_diag. }
    rewrite fifoMap_lookup, Hc. simpl.
    assert (columns = (done ++ [c]) ++ rest) as Hcols' by (by rewrite <-app_assoc).
    specialize (IH (done ++ [c]) Hcols'). rewrite length_app, Nat.add_1_r in IH.
    rewrite (rank_S _ _ _ _ Hc) in IH.
    destruct (decide (fifoEntry cs pre (length done) (Sql.Name c) ≠ -1)) as [Hd|Hd].
    + apply IH. case_decide; [subst n|lia].
      rewrite fifoEntry_discard in Hd. lia.
    + apply dec_stable in Hd. apply fifoEntry_discard in Hd.
      destruct (decide (n = Sql.Name c)) as [Hn|Hn].
      * subst n. rewrite fifoMap_snoc.
        assert (positions (Sql.Name c) cs !! length (positions (Sql.Name c) pre) = Some (length done)) as ->.
        { apply positions_lookup. split; [done|lia]. }
        done.
      * apply IH. rewrite decide_False by done. lia.
Qed.

Lemma nestedLoop_fifo names pre :
  nestedLoop (length pre) names columns (fifoMap cs pre)
  = Some (fifoMap cs (pre ++ names)).
Proof.
  revert pre. induction names as [|n names IH]; intros pre; simpl.
  - by rewrite app_nil_r.
  - pose proof (scanColumns_fifo n pre [] columns eq_refl) as Hs. simpl in Hs.
    rewrite Hs by (unfold rank; simpl; lia). simpl.
    specialize (IH (pre ++ [n])). rewrite length_app, Nat.add_1_r, <-app_assoc in IH.
    done.
Qed.

Lemma nestedMatch_fifo names :
  nestedMatch columns names (replicate (length columns) (-1)) = Some (fifoMap cs names).
Proof.
  unfold nestedMatch. rewrite <-(length_fmap Sql.Name columns), <-fifoMap_nil.
  apply (nestedLoop_fifo names []).
Qed.
End Nested.

(** ** The iln queue is a FIFO queue *)

Section IlnQueue.
Import Iln.
Implicit Types (h : list iln) (ns : list (nat * Z)) (p tl : option nat).

Lemma linked_lt h ns tl a : linked h ns tl → a ∈ ns.*1 → (a < length h)%nat.
Proof.
  induction ns as [|[b v] ns IH]; simpl; [by intros _ ?%elem_of_nil|].
  intros (nd & Hb & _ & _ & Hl) [->|Ha]%elem_of_cons; [by eapply lookup_lt_Some|auto].
Qed.

(** [linked] only reads the [index] and [next] fields of the nodes of the chain. *)
Lemma linked_proper h h' ns tl :
  (∀ a nd, a ∈ ns.*1 → h !! a = Some nd →
     ∃ nd', h' !! a = Some nd' ∧ index nd' = index nd ∧ next nd' = next nd) →
  linked h ns tl → linked h' ns tl.
Proof.
  induction ns as [|[b v] ns IH]; simpl; [done|].
  intros Hsame (nd & Hb & Hi & Hn & Hl).
  destruct (Hsame b nd) as (nd' & Hb' & Hi' & Hn'); [set_solver|done|].
  exists nd'. split_and!; [done|congruence|congruence|].
  apply IH; [|done]. intros a nda Ha. apply Hsame. set_solver.
Qed.

Lemma linked_frame h h' ns tl :
  (∀ a, a ∈ ns.*1 → h' !! a = h !! a) → linked h ns tl → linked h' ns tl.
Proof.
  intros Hsame. apply linked_proper. intros a nd Ha Hnd. exists nd.
  by rewrite Hsame.
Qed.

(** Redirecting the [next] field of the last node changes the terminator. *)
Lemma linked_set_last h ns e v ne tl tl' :
  NoDup (ns ++ [(e, v)]).*1 →
  h !! e = Some ne →
  linked h (ns ++ [(e, v)]) tl →
  linked (<[e := set_next ne tl']> h) (ns ++ [(e, v)]) tl'.
Proof.
  intros Hnd He. induction ns as [|[b w] ns IH]; simpl.
  - intros (nd & Hb & Hi & Hn & _). exists (set_next ne tl').
    rewrite list_lookup_insert_eq by (by eapply lookup_lt_Some).
    split_and!; [done|simpl; congruence|done|done].
  - intros (nd & Hb & Hi & Hn & Hl).
    simpl in Hnd. apply NoDup_cons in Hnd as [Hnotin Hnd].
    assert (b ≠ e) as Hbe.
    { intros ->. apply Hnotin. rewrite fmap_app. set_solver. }
    exists nd. rewrite list_lookup_insert_ne by done.
    split_and!; [done|done| |by apply IH].
    rewrite Hn. by destruct ns as [|[??]?].
Qed.

Lemma linked_app h ns1 ns2 tl :
  linked h ns1 (match ns2 with [] => tl | (a, _) :: _ => Some a end) →
  linked h ns2 tl →
  linked h (ns1 ++ ns2) tl.
Proof.
  intros H1 H2. induction ns1 as [|[b w] ns1 IH]; simpl; [done|].
  destruct H1 as (nd & Hb & Hi & Hn & Hl). exists nd. split_and!; [done..| |by apply IH].
  rewrite Hn. by destruct ns1 as [|[??]?].
Qed.

Lemma is_iln_frame h h' p ns :
  (∀ a, a ∈ ns.*1 → h' !! a = h !! a) → is_iln h p ns → is_iln h' p ns.
Proof.
  intros Hsame (Hl & Hnd & Hp & He). split_and!; [by eapply linked_frame|done..|].
  intros a nd -> Ha. apply (He a); [done|]. rewrite <-Hsame; [done|].
  destruct ns as [|[??]?]; simplify_eq/=. set_solver.
Qed.

Lemma is_iln_lt h p ns a : is_iln h p ns → a ∈ ns.*1 → (a < length h)%nat.
Proof. intros (Hl & _). by eapply linked_lt. Qed.

Lemma linked_lookup h ns tl a : linked h ns tl → a ∈ ns.*1 → is_Some (h !! a).
Proof. intros. apply lookup_lt_is_Some. by eapply linked_lt. Qed.

Lemma head_snoc_is_Some {A} (l : list A) x : is_Some (head (l ++ [x])).
Proof. destruct l; simpl; eauto. Qed.

Lemma add_spec h p ns i :
  is_iln h p ns →
  ∃ p' h', add p i h = Some (p', h')
    ∧ is_iln h' p' (ns ++ [(length h, i)])
    ∧ (∀ a, a ∉ ns.*1 → (a < length h)%nat → h' !! a = h !! a)
    ∧ length h' = S (length h).
Proof.
  intros (Hl & Hnd & Hp & He).
  destruct ns as [|[e w] ns0 _] using rev_ind; simplify_eq/=.
  - (* the empty queue: a fresh one-node list *)
    rewrite lookup_app_r, Nat.sub_diag by lia. simpl.
    eexists _, _. split; [done|]. split_and!.
    + split_and!; simpl.
      * eexists. rewrite list_lookup_insert_eq by (rewrite length_app; simpl; lia).
        done.
      * apply NoDup_singleton.
      * done.
      * intros a nd [= <-]. rewrite list_lookup_insert_eq by (rewrite length_app; simpl; lia).
        by intros [= <-].
    + intros a _ Ha. rewrite list_lookup_insert_ne by lia. by rewrite lookup_app_l.
    + rewrite length_insert, length_app. simpl. lia.
  - (* a non-empty queue headed by [a], whose last node is [e] *)
    destruct (head_snoc_is_Some ns0.*1 e) as [a Hhead].
    rewrite fmap_app in Hnd, He |- *. simpl in *. rewrite Hhead.
    assert (a ∈ (ns0 ++ [(e, w)]).*1) as Ha_in
      by (rewrite fmap_app; by apply head_Some_elem_of).
    assert (e ∈ (ns0 ++ [(e, w)]).*1) as He_in by (rewrite fmap_app; set_solver).
    destruct (linked_lookup _ _ _ _ Hl Ha_in) as [na Ha].
    destruct (linked_lookup _ _ _ _ Hl He_in) as [ne Hne].
    pose proof (linked_lt _ _ _ _ Hl Ha_in) as Halt.
    pose proof (linked_lt _ _ _ _ Hl He_in) as Helt.
    pose proof (He a na Hhead Ha) as Hend. rewrite last_snoc in Hend.
    set (x := length h). set (h1 := h ++ [mk i None None]).
    set (h2 := <[e := set_next ne (Some x)]> h1).
    assert (length h1 = S x) as Hlen1 by (unfold h1; rewrite length_app; simpl; lia).
    assert (∃ na2, h2 !! a = Some na2 ∧ end_ na2 = Some e ∧ index na2 = index na) as (na2 & Ha2 & Hend2 & Hidx2).
    { unfold h2. destruct (decide (a = e)) as [->|Hae].
      - rewrite list_lookup_insert_eq by lia. eexists; split; [done|]. simpl.
        split; congruence.
      - rewrite list_lookup_insert_ne by done. unfold h1. rewrite lookup_app_l by done.
        eauto. }
    assert (h2 !! e = Some (set_next ne (Some x))) as He2.
    { unfold h2. by rewrite list_lookup_insert_eq by lia. }
    exists (Some a), (<[a := set_end na2 (Some x)]> h2). split.
    { unfold add, alloc. rewrite Ha. simpl. rewrite Hend. simpl.
      rewrite (lookup_app_l _ _ e) by done. rewrite Hne. simpl.
      fold x h1 h2. rewrite Ha2. simpl. rewrite Hend2. simpl. rewrite He2. done. }
    assert (linked h2 ((ns0 ++ [(e, w)]) ++ [(x, i)]) None) as Hl2.
    { apply linked_app.
      - apply linked_set_last with (tl := None).
        + by rewrite fmap_app.
        + unfold h1. by rewrite lookup_app_l.
        + eapply linked_frame; [|done]. intros b Hb. unfold h1.
          rewrite lookup_app_l; [done|]. by eapply linked_lt.
      - simpl. exists (mk i None None). split_and!; try done.
        unfold h2. rewrite list_lookup_insert_ne by lia.
        unfold h1. rewrite lookup_app_r by lia. by rewrite Nat.sub_diag. }
    split_and!.
    + split_and!.
      * eapply linked_proper; [|done]. intros b nd Hb Hnd'.
        destruct (decide (b = a)) as [->|Hba].
        -- rewrite list_lookup_insert_eq by (unfold h2; rewrite length_insert; lia).
           eexists; split; [done|]. simpl. by simplify_eq.
        -- rewrite list_lookup_insert_ne by done. eauto.
      * rewrite fmap_app. simpl. apply NoDup_app.
        split_and!; [by rewrite fmap_app| |apply NoDup_singleton].
        intros b Hb ->%list_elem_of_singleton.
        pose proof (linked_lt _ _ _ _ Hl Hb). lia.
      * rewrite !fmap_app. simpl. rewrite <-app_assoc.
        destruct ns0; simpl in *; congruence.
      * intros b nd [= <-].
        rewrite list_lookup_insert_eq by (unfold h2; rewrite length_insert; lia).
        intros [= <-]. simpl. rewrite fmap_app. simpl. by rewrite last_snoc.
    + intros b Hb Hblt.
      rewrite fmap_app in Ha_in, He_in.
      assert (b ≠ a) by (intros ->; by apply Hb).
      assert (b ≠ e) by (intros ->; by apply Hb).
      rewrite list_lookup_insert_ne by done. unfold h2.
      rewrite list_lookup_insert_ne by done. unfold h1. by rewrite lookup_app_l.
    + rewrite !length_insert. unfold h2. by rewrite length_insert.
Qed.

Lemma yoink_spec h p ns :
  is_iln h p ns →
  ∃ p' h', yoink p h = Some (head ns.*2, p', h')
    ∧ is_iln h' p' (tail ns)
    ∧ (∀ a, a ∉ ns.*1 → h' !! a = h !! a)
    ∧ length h' = length h.
Proof.
  intros (Hl & Hnd & Hp & He).
  destruct ns as [|[a v] ns']; simplify_eq/=.
  { exists None, h. split_and!; try done. }
  destruct Hl as (na & Ha & Hi & Hn & Hl). subst v.
  pose proof (He a na eq_refl Ha) as Hend.
  apply NoDup_cons in Hnd as [Hnotin Hnd].
  destruct ns' as [|[a' v'] ns'']; simpl in *.
  - (* the last node: [n.end == n] *)
    exists None, h. rewrite Ha. simpl. rewrite decide_False by (rewrite Hend; naive_solver).
    simpl. rewrite Ha. simpl. rewrite Hn. split_and!; done.
  - (* the head is followed by [a'] *)
    destruct Hl as (na' & Ha' & Hi' & Hn' & Hl).
    assert (a ≠ a') as Haa by set_solver.
    assert (end_ na ≠ Some a) as Hne.
    { rewrite Hend. intros Hlast. apply Hnotin. by apply last_Some_elem_of. }
    set (h' := <[a' := set_end na' (end_ na)]> h).
    exists (Some a'), h'. rewrite Ha. simpl. rewrite decide_True by done.
    rewrite Hn. simpl. rewrite Ha'. simpl. fold h'.
    assert (h' !! a = Some na) as -> by (unfold h'; by rewrite list_lookup_insert_ne).
    simpl. rewrite Hn. split_and!; try done.
    + assert (h' !! a' = Some (set_end na' (end_ na))) as Ha'2.
      { unfold h'. rewrite list_lookup_insert_eq; [done|]. by eapply lookup_lt_Some. }
      split_and!; try done.
      * exists (set_end na' (end_ na)). split_and!; try done.
        eapply linked_proper; [|done]. intros b nd Hb Hbnd.
        apply NoDup_cons in Hnd as [Hnotin' _].
        unfold h'. rewrite list_lookup_insert_ne by set_solver. eauto.
      * intros b nd [= <-]. rewrite Ha'2. intros [= <-]. simpl.
        rewrite Hend. by destruct (ns''.*1).
    + intros b Hb. unfold h'. rewrite list_lookup_insert_ne; [done|]. set_solver.
    + unfold h'. by rewrite length_insert.
Qed.
End IlnQueue.

(** ** The bucket strategy *)

Section Buckets.
Implicit Types (h : list Iln.iln) (m : gmap string (option nat)) (Q : string → list nat).

Lemma bucket_insert m k p x :
  bucket (<[k := p]> m) x = if decide (x = k) then p else bucket m x.
Proof.
  unfold bucket. case_decide; subst.
  - by rewrite lookup_insert_eq.
  - by rewrite lookup_insert_ne.
Qed.

Lemma buckets_inv_ext h m Q Q' :
  (∀ x, Q x = Q' x) → buckets_inv h m Q → buckets_inv h m Q'.
Proof.
  intros HQ (B & H1 & H2 & H3). exists B. split_and!; [done| |done].
  intros x. by rewrite <-HQ.
Qed.

Lemma buckets_inv_empty : buckets_inv [] ∅ (λ _, []).
Proof.
  exists (λ _, []). split_and!; [|done|set_solver].
  intros x. unfold bucket. rewrite lookup_empty. simpl.
  split_and!; try done. apply NoDup_nil_2.
Qed.

Lemma tail_drop_S {A} (l : list A) r : tail (drop r l) = drop (S r) l.
Proof. revert l. induction r; intros [|??]; simpl; auto. Qed.

Lemma fill_step h m Q k i :
  buckets_inv h m Q →
  ∃ p h', Iln.add (bucket m k) (Z.of_nat i) h = Some (p, h')
    ∧ buckets_inv h' (<[k := p]> m) (λ x, if decide (x = k) then Q x ++ [i] else Q x).
Proof.
  intros (B & HB & HQ & Hdisj).
  destruct (add_spec h _ _ (Z.of_nat i) (HB k)) as (p & h' & Hadd & Hiln & Hframe & Hlen).
  exists p, h'. split; [done|].
  exists (λ x, if decide (x = k) then B x ++ [(length h, Z.of_nat i)] else B x).
  split_and!.
  - intros x. rewrite bucket_insert. case_decide; [by subst|].
    eapply is_iln_frame; [|apply HB]. intros a Ha. apply Hframe.
    + by eapply Hdisj.
    + by eapply is_iln_lt.
  - intros x. case_decide; [|done]. rewrite !fmap_app, HQ. done.
  - intros x y a Hxy. pose proof (λ z b, is_iln_lt h _ _ b (HB z)) as Hlt.
    repeat case_decide; subst; try done; rewrite ?fmap_app; simpl;
      rewrite ?elem_of_app, ?list_elem_of_singleton.
    + intros [?| ->] Hy; [by eapply Hdisj|]. apply Hlt in Hy. lia.
    + intros Hx [?| ->]; [by eapply Hdisj|]. apply Hlt in Hx. lia.
    + by apply Hdisj.
Qed.

Lemma drain_step h m Q n :
  buckets_inv h m Q →
  ∃ p h', Iln.yoink (bucket m n) h = Some (Z.of_nat <$> head (Q n), p, h')
    ∧ buckets_inv h' (<[n := p]> m) (λ x, if decide (x = n) then tail (Q x) else Q x).
Proof.
  intros (B & HB & HQ & Hdisj).
  destruct (yoink_spec h _ _ (HB n)) as (p & h' & Hy & Hiln & Hframe & Hlen).
  exists p, h'. split.
  { rewrite Hy, HQ. by destruct (Q n). }
  exists (λ x, if decide (x = n) then tail (B x) else B x).
  split_and!.
  - intros x. rewrite bucket_insert. case_decide; [by subst|].
    eapply is_iln_frame; [|apply HB]. intros a Ha. apply Hframe. by eapply Hdisj.
  - intros x. case_decide; [|done]. specialize (HQ x).
    destruct (B x), (Q x); simplify_eq/=; done.
  - intros x y a Hxy.
    assert (∀ z, a ∈ (tail (B z)).*1 → a ∈ (B z).*1) as Htl.
    { intros z. destruct (B z); simpl; set_solver. }
    repeat case_decide; subst; try done; intros Hx Hy'; (eapply Hdisj; [exact Hxy|..]); eauto.
Qed.

Lemma fillBuckets_spec columns i h m Q :
  buckets_inv h m Q →
  ∃ h' m', fillBuckets i columns h m = Some (h', m')
    ∧ buckets_inv h' m' (λ x, Q x ++ positions_from i x (Sql.Name <$> columns)).
Proof.
  revert i h m Q. induction columns as [|c columns IH]; intros i h m Q Hinv; simpl.
  - exists h, m. split; [done|]. eapply buckets_inv_ext; [|done].
    intros x. by rewrite app_nil_r.
  - destruct (fill_step h m Q (Sql.Name c) i Hinv) as (p & h1 & -> & Hinv1). simpl.
    destruct (IH (S i) _ _ _ Hinv1) as (h' & m' & -> & Hinv').
    exists h', m'. split; [done|]. eapply buckets_inv_ext; [|done].
    intros x. simpl. repeat case_decide; subst; try done. by rewrite <-app_assoc.
Qed.

Variable columns : list Sql.ColumnType.
Let cs := Sql.Name <$> columns.

Lemma drainBuckets_fifo names pre h m :
  buckets_inv h m (λ x, drop (length (positions x pre)) (positions x cs)) →
  drainBuckets (length pre) names h m (fifoMap cs pre)
  = Some (fifoMap cs (pre ++ names)).
Proof.
  revert pre h m. induction names as [|n names IH]; intros pre h m Hinv; simpl.
  - by rewrite app_nil_r.
  - destruct (drain_step h m _ n Hinv) as (p & h' & -> & Hinv'). simpl.
    rewrite head_lookup, lookup_drop, Nat.add_0_r.
    specialize (IH (pre ++ [n]) h' (<[n:=p]> m)).
    rewrite length_app, Nat.add_1_r, <-app_assoc in IH. simpl in IH.
    rewrite fifoMap_snoc in IH.
    destruct (positions n cs !! length (positions n pre)) as [j|] eqn:Hj; simpl.
    + unfold store_index, len. rewrite fifoMap_length.
      apply positions_lookup in Hj as [Hj%lookup_lt_Some _].
      rewrite decide_True by lia. simpl. rewrite Nat2Z.id. apply IH.
      eapply buckets_inv_ext; [|done]. intros x. simpl.
      rewrite positions_snoc, length_app.
      case_decide; subst; [rewrite decide_True by done|rewrite decide_False by done]; simpl.
      * rewrite tail_drop_S. f_equal. lia.
      * f_equal. lia.
    + apply IH. eapply buckets_inv_ext; [|done]. intros x. simpl.
      rewrite positions_snoc, length_app.
      case_decide; subst; [rewrite decide_True by done|rewrite decide_False by done]; simpl.
      * rewrite tail_drop_S. f_equal. lia.
      * f_equal. lia.
Qed.

Lemma bucketMatch_fifo names :
  bucketMatch columns names (replicate (length columns) (-1)) = Some (fifoMap cs names).
Proof.
  unfold bucketMatch.
  destruct (fillBuckets_spec columns 0 [] ∅ _ buckets_inv_empty) as (h & m & -> & Hinv).
  simpl. rewrite <-(length_fmap Sql.Name columns), <-fifoMap_nil.
  apply (drainBuckets_fifo names [] h m). simpl. done.
Qed.
End Buckets.

(** ** The pairing rule holds of the reference map *)

Section Pairing.
Implicit Types (x c n : string) (l pre : list string) (j k r : nat).

Lemma rank_mono x l j j' : (j ≤ j')%nat → (rank x l j ≤ rank x l j')%nat.
Proof.
  intros Hle. unfold rank, positions.
  replace j' with (j + (j' - j))%nat by lia. rewrite <-take_take_drop.
  rewrite positions_from_app, length_app. lia.
Qed.

Lemma rank_lt x l j j' :
  (j < j')%nat → l !! j = Some x → (rank x l j < rank x l j')%nat.
Proof.
  intros Hlt Hj. pose proof (rank_mono x l (S j) j' Hlt) as Hm.
  rewrite (rank_S _ _ _ _ Hj), decide_True in Hm by done. lia.
Qed.

Lemma rank_inj x l j j' :
  l !! j = Some x → l !! j' = Some x → rank x l j = rank x l j' → j = j'.
Proof.
  intros Hj Hj' Hr. destruct (Nat.lt_trichotomy j j') as [Hlt|[->|Hlt]]; [|done|].
  - pose proof (rank_lt x l j j' Hlt Hj). lia.
  - pose proof (rank_lt x l j' j Hlt Hj'). lia.
Qed.

Lemma rank_lt_positions x l j : l !! j = Some x → (rank x l j < length (positions x l))%nat.
Proof.
  intros Hj. apply lookup_lt_is_Some. exists j. by apply positions_lookup.
Qed.

(** Column [j] goes to field [i] exactly when they carry the same name and
    the same rank among the occurrences of that name. *)
Lemma fifoMap_claims columns names j i :
  fifoMap columns names !! j = Some (Z.of_nat i) ↔
  ∃ x, columns !! j = Some x ∧ names !! i = Some x ∧ rank x columns j = rank x names i.
Proof.
  rewrite fifoMap_lookup. destruct (columns !! j) as [x|] eqn:Hx; simpl.
  2:{ split; [done|]. by intros (? & ? & _). }
  unfold fifoEntry. destruct (positions x names !! _) as [i'|] eqn:Hi.
  - apply positions_lookup in Hi as [Hn Hr]. split.
    + intros [= ->%(inj Z.of_nat)]. eauto.
    + intros (? & [= <-] & Hn' & Hr'). do 2 f_equal.
      eapply rank_inj; eauto. congruence.
  - split; [intros [=]; lia|]. intros (? & [= <-] & Hn & Hr).
    assert (positions x names !! rank x columns j = Some i)
      by (apply positions_lookup; auto). congruence.
Qed.

Lemma fifoMap_values columns names j v :
  fifoMap columns names !! j = Some v → v = -1 ∨ ∃ i, v = Z.of_nat i.
Proof.
  rewrite fifoMap_lookup. destruct (columns !! j) as [x|]; simpl; [|done].
  unfold fifoEntry. intros [= <-]. destruct (_ !! _); eauto.
Qed.

Lemma fifoMap_pairing columns names : FifoPairing columns names (fifoMap columns names).
Proof.
  split.
  - apply fifoMap_length.
  - intros j v Hv. destruct (fifoMap_values _ _ _ _ Hv) as [->|[i ->]]; [by left|right].
    apply fifoMap_claims in Hv as (x & Hc & Hn & _). exists i. rewrite Hc, Hn. eauto.
  - intros j j' i (x & Hc & Hn & Hr)%fifoMap_claims (x' & Hc' & Hn' & Hr')%fifoMap_claims.
    simplify_eq. eapply rank_inj; eauto. congruence.
  - intros j i (x & Hc & Hn & Hr)%fifoMap_claims j' Hlt Hsame. rewrite Hc in Hsame.
    pose proof (rank_lt x columns j' j Hlt Hsame) as Hrl.
    destruct (positions x names !! rank x columns j') as [i'|] eqn:Hi'.
    + apply positions_lookup in Hi' as [Hn' Hr']. exists i'. split.
      * destruct (decide (i' < i)%nat); [done|].
        pose proof (rank_mono x names i i' ltac:(lia)). lia.
      * apply fifoMap_claims. eauto.
    + apply lookup_ge_None in Hi'. pose proof (rank_lt_positions x names i Hn). lia.
  - intros i n Hn Hnone j Hc.
    assert (rank n columns j < rank n names i)%nat as Hlt.
    { destruct (decide (rank n columns j < rank n names i)%nat); [done|]. exfalso.
      destruct (positions n columns !! rank n names i) as [j0|] eqn:Hj0.
      - apply positions_lookup in Hj0 as [Hc0 Hr0]. apply (Hnone j0).
        apply fifoMap_claims. eauto.
      - apply lookup_ge_None in Hj0. pose proof (rank_lt_positions n columns j Hc). lia. }
    destruct (positions n names !! rank n columns j) as [i'|] eqn:Hi'.
    + apply positions_lookup in Hi' as [Hn' Hr']. exists i'. split.
      * destruct (decide (i' < i)%nat); [done|].
        pose proof (rank_mono n names i i' ltac:(lia)). lia.
      * apply fifoMap_claims. eauto.
    + apply lookup_ge_None in Hi'. pose proof (rank_lt_positions n names i Hn). lia.
Qed.

End Pairing.

(** Unfolding of the monad of calls. *)
Ltac unfold_M := unfold mbind, M_bind, mret, M_ret, orPanic in *; simpl in *.

(** ** BuildMap *)

Lemma matchColumns_fifo columns names :
  matchColumns columns names = Some (fifoMap (Sql.Name <$> columns) names).
Proof.
  unfold matchColumns. destruct (useBuckets columns names).
  - apply bucketMatch_fifo.
  - apply nestedMatch_fifo.
Qed.

(** C1.  When the column enumeration of the row source yields a column list,
    BuildMap returns, without error or panic, a map with one entry per column
    that pairs names first-in first-out from the left: each field, in field
    order, claims the leftmost column of its name that no earlier field
    claimed; a column that no field claims maps to -1; a field without a
    matching column has no entry.  The map is the reference map [fifoMap];
    fields [a, a] against columns [a, a] give [0, 1] and the field [a]
    against columns [a, a] gives [0, -1]. *)
Theorem BuildMap_pairs_fifo {Src} `{!AdvancedScannable Src}
    (fields : NamedFields.t) (w : World Src) (columns : list Sql.ColumnType) (s : Src) :
  ColumnTypes (source w) = (Some columns, None, s) →
  ∃ out : ScanMap,
    BuildMap fields w
    = Some (Some out, None,
            mkWorld s (memory w) (fieldsCache w) (trace w ++ [CallColumnTypes]))
    ∧ FifoPairing (Sql.Name <$> columns) (NamedFields.Names fields) out
    ∧ out = fifoMap (Sql.Name <$> columns) (NamedFields.Names fields)
    ∧ matchColumns (columnsNamed ["a"; "a"]) ["a"; "a"] = Some [0; 1]
    ∧ matchColumns (columnsNamed ["a"; "a"]) ["a"] = Some [0; -1].
Proof.
  intros Hcols. eexists. split_and!; [|apply fifoMap_pairing|done..].
  unfold BuildMap, callColumnTypes, mbind, M_bind. rewrite Hcols. simpl.
  unfold orPanic. by rewrite matchColumns_fifo.
Qed.

Lemma BuildMap_pairs_fifo_witness :
  let w := mkWorld (mkRows (Some ["a"; "a"]) None []) (mkMemory ∅ ∅) [] [] in
  ColumnTypes (source w) = (Some (columnsNamed ["a"; "a"]), None, source w)
  ∧ ∃ out : ScanMap,
      BuildMap (NamedFields.mk ["a"; "a"] [noopScanner; noopScanner]) w
      = Some (Some out, None,
              mkWorld (source w) (memory w) (fieldsCache w) (trace w ++ [CallColumnTypes]))
      ∧ FifoPairing (Sql.Name <$> columnsNamed ["a"; "a"]) ["a"; "a"] out
      ∧ out = fifoMap (Sql.Name <$> columnsNamed ["a"; "a"]) ["a"; "a"]
      ∧ matchColumns (columnsNamed ["a"; "a"]) ["a"; "a"] = Some [0; 1]
      ∧ matchColumns (columnsNamed ["a"; "a"]) ["a"] = Some [0; -1].
Proof.
  split; [reflexivity|].
  apply (BuildMap_pairs_fifo (NamedFields.mk ["a"; "a"] [noopScanner; noopScanner])
           (mkWorld (mkRows (Some ["a"; "a"]) None []) (mkMemory ∅ ∅) [] [])).
  reflexivity.
Defined.

(** C2.  On every column list and field-name list the hash-bucketed strategy
    and the nested scan return the same map, and they do return one: the
    threshold test of BuildMap selects between two equal results. *)
Theorem strategies_agree (columns : list Sql.ColumnType) (names : list string) :
  let output := replicate (length columns) (-1) in
  bucketMatch columns names output = nestedMatch columns names output
  ∧ is_Some (nestedMatch columns names output)
  ∧ matchColumns columns names = nestedMatch columns names output
  ∧ matchColumns columns names = bucketMatch columns names output.
Proof.
  simpl. rewrite bucketMatch_fifo, nestedMatch_fifo, matchColumns_fifo. eauto.
Qed.

(** ** ScanWithMappedFields *)

(** C6.  When the list of receivers that would be handed to the row source is
    empty (a nil map with no fields, or a map of length zero),
    ScanWithMappedFields returns an error and leaves the world as it was: in
    particular the row source's Scan is not called. *)
Theorem empty_scan_rejected {Src} `{!Scannable Src}
    (m : option ScanMap) (fields : NamedFields.t) (w : World Src) :
  (m = None ∧ NamedFields.Fields fields = []) ∨ m = Some [] →
  ScanWithMappedFields m fields w
  = Some (Some "cannot scan into empty list of fields", w).
Proof. by intros [[-> Hf]| ->]; unfold ScanWithMappedFields; simpl; rewrite ?Hf. Qed.

Lemma empty_scan_rejected_witness :
  let w := mkWorld (mkRows None (Some (mkRow ["v"] None)) []) (mkMemory ∅ ∅) [] [] in
  ((Some ([] : ScanMap) = None ∧ NamedFields.Fields (NamedFields.mk ["f"] [UserReceiver 0]) = [])
   ∨ Some ([] : ScanMap) = Some [])
  ∧ ScanWithMappedFields (Some []) (NamedFields.mk ["f"] [UserReceiver 0]) w
    = Some (Some "cannot scan into empty list of fields", w).
Proof.
  split; [by right|].
  apply (empty_scan_rejected (Some []) (NamedFields.mk ["f"] [UserReceiver 0])). by right.
Defined.

(** C4.  When the column enumeration returns the nil column list with a nil
    error, BuildMap returns the nil map, and ScanWithMappedFields with the
    nil map hands the receivers of the field list to the row source as they
    are and in their order (the call is refused when there are none).  A
    column list of length zero is another case: BuildMap then returns a
    non-nil map of length zero, with which every scan is refused. *)
Theorem verbatim_mode {Src} `{!AdvancedScannable Src}
    (fields : NamedFields.t) (w w' w0 : World Src) (s s0 : Src) :
  ColumnTypes (source w) = (None, None, s) →
  ColumnTypes (source w0) = (Some [], None, s0) →
  BuildMap fields w
  = Some (None, None, mkWorld s (memory w) (fieldsCache w) (trace w ++ [CallColumnTypes]))
  ∧ ScanWithMappedFields None fields w'
    = (if decide (NamedFields.Fields fields = [])
       then Some (Some "cannot scan into empty list of fields", w')
       else callScan (NamedFields.Fields fields) w')
  ∧ BuildMap fields w0
    = Some (Some [], None,
            mkWorld s0 (memory w0) (fieldsCache w0) (trace w0 ++ [CallColumnTypes]))
  ∧ ScanWithMappedFields (Some []) fields w'
    = Some (Some "cannot scan into empty list of fields", w').
Proof.
  intros Hnil Hempty. split_and!.
  - unfold BuildMap, callColumnTypes, mbind, M_bind. by rewrite Hnil.
  - unfold ScanWithMappedFields. unfold_M.
    by destruct (NamedFields.Fields fields).
  - unfold BuildMap, callColumnTypes, mbind, M_bind. rewrite Hempty. simpl.
    unfold orPanic. by rewrite matchColumns_fifo.
  - done.
Qed.

Lemma verbatim_mode_witness :
  let fields := NamedFields.mk ["f"; "g"] [UserReceiver 0; UserReceiver 1] in
  let w := mkWorld (mkRows None (Some (mkRow ["v"; "w"] None)) []) (mkMemory ∅ ∅) [] [] in
  let w0 := mkWorld (mkRows (Some []) (Some (mkRow ["v"; "w"] None)) []) (mkMemory ∅ ∅) [] [] in
  ColumnTypes (source w) = (None, None, source w)
  ∧ ColumnTypes (source w0) = (Some [], None, source w0)
  ∧ BuildMap fields w
    = Some (None, None,
            mkWorld (source w) (memory w) (fieldsCache w) (trace w ++ [CallColumnTypes]))
  ∧ ScanWithMappedFields None fields w
    = (if decide (NamedFields.Fields fields = [])
       then Some (Some "cannot scan into empty list of fields", w)
       else callScan (NamedFields.Fields fields) w)
  ∧ BuildMap fields w0
    = Some (Some [], None,
            mkWorld (source w0) (memory w0) (fieldsCache w0) (trace w0 ++ [CallColumnTypes]))
  ∧ ScanWithMappedFields (Some []) fields w
    = Some (Some "cannot scan into empty list of fields", w).
Proof.
  intros fields w w0. split; [reflexivity|]. split; [reflexivity|].
  apply (@verbatim_mode Rows Rows_AdvancedScannable fields w w w0 (source w) (source w0));
    reflexivity.
Defined.

(** ** Empty target lists *)

(** C7.  With an empty list of target objects BuildNamedFields fails, and
    QuickScan, Scan and ScanWithMap return that error with the world
    untouched: no method of the row source has been called, whatever its
    state. *)
Theorem empty_target_list_fails {Src} `{!AdvancedScannable Src} `{!UserMethods}
    (m : option ScanMap) (w : World Src) :
  BuildNamedFields [] w = Some (NamedFields.zero, Some "empty output object list", w)
  ∧ QuickScan [] w = Some (Some "empty output object list", w)
  ∧ Scan_ [] w = Some (Some "empty output object list", w)
  ∧ ScanWithMap m [] w = Some (Some "empty output object list", w).
Proof. done. Qed.

(** ** scannableWrapper *)

Section Wrapper.
Context {Src : Type} `{!Scannable Src}.

Lemma nextReturns_cons r rs : nextReturns (r :: rs) = nextReturns [r] ++ nextReturns rs.
Proof. unfold nextReturns. simpl. by destruct r. Qed.

Lemma perform_done c (s : scannableWrapper Src) :
  done_ s = true →
  done_ (perform c s).2 = true
  ∧ nextReturns [(perform c s).1] = (if isNext c then [false] else []).
Proof.
  intros Hd. destruct c; simpl.
  - unfold wrapper.Scan. destruct (Scan receivers (inner s)). done.
  - done.
  - unfold wrapper.Next. by rewrite Hd.
  - done.
Qed.

Lemma performAll_done cs (s : scannableWrapper Src) :
  done_ s = true →
  nextReturns (performAll cs s) = replicate (length (filter isNext cs)) false.
Proof.
  revert s. induction cs as [|c cs IH]; intros s Hd; [done|].
  cbn [performAll]. destruct (perform_done c s Hd) as [Hd' Hr].
  destruct (perform c s) as [r s']. cbn [fst snd] in Hd', Hr.
  rewrite nextReturns_cons, Hr, (IH _ Hd'), filter_cons. by destruct (isNext c).
Qed.

Lemma performAll_fresh cs (s : scannableWrapper Src) :
  done_ s = false →
  nextReturns (performAll cs s)
  = match length (filter isNext cs) with
    | O => []
    | S n => true :: replicate n false
    end.
Proof.
  revert s. induction cs as [|c cs IH]; intros s Hd; simpl; [done|].
  rewrite filter_cons. destruct c; simpl.
  - unfold wrapper.Scan. destruct (Scan receivers (inner s)) as [r x]. simpl.
    by apply IH.
  - by apply IH.
  - unfold wrapper.Next. rewrite Hd. simpl. f_equal. by apply performAll_done.
  - by apply IH.
Qed.
End Wrapper.

(** C10.  For the row source returned by WrapBasic, whatever calls are made
    on it and in whatever order: the first call of Next returns true and
    every later one false; Err returns nil in every state; the column
    enumeration returns the nil list and a nil error in every state.  Hence
    BuildMap returns the nil map and ScanWithFields scans in verbatim mode. *)
Theorem WrapBasic_is_one_row {Src} `{!Scannable Src}
    (inner : Src) (calls : list WrapperCall) (s : scannableWrapper Src)
    (fields : NamedFields.t) (w : World (scannableWrapper Src)) :
  nextReturns (performAll calls (WrapBasic inner))
  = match length (filter isNext calls) with
    | O => []
    | S n => true :: replicate n false
    end
  ∧ Err s = (None, s)
  ∧ ColumnTypes s = (None, None, s)
  ∧ BuildMap fields w
    = Some (None, None,
            mkWorld (source w) (memory w) (fieldsCache w) (trace w ++ [CallColumnTypes]))
  ∧ ScanWithFields fields w
    = ScanWithMappedFields None fields
        (mkWorld (source w) (memory w) (fieldsCache w) (trace w ++ [CallColumnTypes])).
Proof.
  split_and!; try done. by apply performAll_fresh.
Qed.

(** ** Descriptors *)


Section Descriptor.
Import Reflect.

Lemma ofEntries_app es1 es2 :
  ofEntries (es1 ++ es2) = fieldCacheEntry.Append (ofEntries es1) (ofEntries es2).
Proof. unfold ofEntries, fieldCacheEntry.Append. simpl. by rewrite !fmap_app. Qed.

Lemma Append_zero_r c : fieldCacheEntry.Append c (ofEntries []) = c.
Proof. destruct c. unfold fieldCacheEntry.Append. simpl. by rewrite !app_nil_r. Qed.

Lemma Append_assoc c1 c2 c3 :
  fieldCacheEntry.Append (fieldCacheEntry.Append c1 c2) c3
  = fieldCacheEntry.Append c1 (fieldCacheEntry.Append c2 c3).
Proof. unfold fieldCacheEntry.Append. simpl. by rewrite !app_assoc. Qed.

Lemma Push_Append c name path i b :
  fieldCacheEntry.Push c name path i b
  = fieldCacheEntry.Append c (ofEntries [(name, path ++ [i], b)]).
Proof. done. Qed.

Lemma entriesOf_ofEntries es : entriesOf (ofEntries es) = es.
Proof.
  unfold entriesOf, ofEntries. simpl. induction es as [|[[??]?] es IH]; [done|].
  rewrite !fmap_cons. simpl. by rewrite IH.
Qed.

(** The loop of the builder adds to its output the entries that the
    remaining fields contribute. *)
Lemma fieldLoop_describe rec drec path fs i output :
  Forall (λ f, ∀ p, kind (Typ f) = Struct → rec (Typ f) p = (ofEntries (drec (Typ f) p), None)) fs →
  fieldLoop rec path i fs output
  = (fieldCacheEntry.Append output (ofEntries (describeFields drec path i fs)), None).
Proof.
  intros Hall. revert i output.
  induction Hall as [|f fs Hf Hall IH]; intros i output; simpl.
  - by rewrite Append_zero_r.
  - unfold dmlName, expanded, dmlName.
    destruct (Lookup (Tag f) "dml") as [db_field ok].
    destruct (bool_decide (String.length (PkgPath f) = 0%nat) && ok).
    + rewrite IH, Push_Append, Append_assoc, <-ofEntries_app. done.
    + destruct (Anonymous f && bool_decide (kind (Typ f) = Struct)) eqn:Hemb.
      * apply andb_true_iff in Hemb as [_ Hk%bool_decide_eq_true].
        rewrite (Hf _ Hk), IH, Append_assoc, <-ofEntries_app. done.
      * by rewrite IH.
Qed.

Lemma build_describe t : ∀ path,
  kind t = Struct →
  buildFieldCacheEntryForType t path = (ofEntries (describe t path), None).
Proof.
  induction t as [k n ms pms|n fs ms pms IH|e _|e _|n ms] using rtype_induction;
    intros path Hk; simpl in Hk; try done.
  - subst k. done.
  - simpl. erewrite fieldLoop_describe; [|exact IH].
    unfold fieldCacheEntry.Append, fieldCacheEntry.zero. simpl. done.
Qed.
End Descriptor.

Section DescriptorOrder.
Import Reflect.

Lemma elem_of_describeFields drec path i fs (e : Entry) :
  e ∈ describeFields drec path i fs ↔
  ∃ j f, fs !! j = Some f
    ∧ ((∃ name, dmlName f = Some name
                ∧ e = (name, path ++ [(i + j)%nat], Scanner (methods (Typ f))))
       ∨ (expanded f = true ∧ e ∈ drec (Typ f) (path ++ [(i + j)%nat]))).
Proof.
  revert i. induction fs as [|f fs IH]; intros i; simpl.
  - split; [by intros ?%elem_of_nil|]. by intros (j & f & ? & _).
  - rewrite elem_of_app, IH. split.
    + intros [He|(j & g & Hj & Hg)].
      * exists 0%nat, f. split; [done|]. rewrite Nat.add_0_r.
        destruct (dmlName f) as [name|] eqn:Hname.
        -- left. exists name. split; [done|]. by apply list_elem_of_singleton in He.
        -- right. destruct (expanded f); [done|]. by apply elem_of_nil in He.
      * exists (S j), g. split; [done|]. by rewrite Nat.add_succ_r.
    + intros (j & g & Hj & Hg). destruct j as [|j]; simplify_eq/=.
      * left. rewrite Nat.add_0_r in Hg. destruct Hg as [(name & -> & ->)|[Hexp He]].
        -- by apply list_elem_of_singleton.
        -- unfold expanded in *. destruct (dmlName g); [done|]. by rewrite Hexp.
      * right. exists j, g. split; [done|]. by rewrite Nat.add_succ_r in Hg.
Qed.

Lemma reaches_fields t q f : reaches t q f → fields t ≠ [].
Proof. intros [??? Hi|????? Hi _ _]; intros Hnil; by rewrite Hnil in Hi. Qed.

(** An entry is listed exactly for the fields with an external name that
    are reached through expanded fields. *)
Lemma describe_reaches t : ∀ path (e : Entry),
  e ∈ describe t path ↔
  ∃ q f name, e = (name, path ++ q, Scanner (methods (Typ f)))
    ∧ reaches t q f ∧ dmlName f = Some name.
Proof.
  induction t as [k n ms pms|n fs ms pms IH|e' _|e' _|n ms] using rtype_induction;
    intros path e; simpl;
    try (split; [by intros ?%elem_of_nil|];
         intros (q & f & name & _ & Hr%reaches_fields & _); done).
  rewrite elem_of_describeFields. simpl. split.
  - intros (j & f & Hj & [(name & Hname & ->)|[Hexp He]]).
    + exists [j], f, name. split_and!; [done| |done]. by constructor.
    + rewrite Forall_lookup in IH. apply (IH _ _ Hj) in He as (q & g & name & -> & Hr & Hname).
      exists (j :: q), g, name. rewrite <-app_assoc. split_and!; [done| |done].
      by eapply reaches_embedded.
  - intros (q & f & name & -> & Hr & Hname). inversion Hr as [??? Hi|? i g q' ? Hi Hexp Hr']; subst.
    + exists i, f. split; [done|]. left. eauto.
    + exists i, g. split; [done|]. right. split; [done|].
      rewrite Forall_lookup in IH. apply (IH _ _ Hi).
      exists q', f, name. rewrite <-app_assoc. done.
Qed.

Lemma reaches_nonempty t q f : reaches t q f → q ≠ [].
Proof. by intros []. Qed.

Lemma lexlt_app p a b : lexlt (p ++ a) (p ++ b) ↔ lexlt a b.
Proof. induction p as [|x p IH]; simpl; [done|]. rewrite IH. naive_solver lia. Qed.

Lemma elem_of_pathsOf (es : list Entry) p :
  p ∈ pathsOf es ↔ ∃ name b, (name, p, b) ∈ es.
Proof.
  unfold pathsOf. rewrite !list_elem_of_fmap. split.
  - intros ([name p'] & -> & ([[??]?] & ? & ?)%list_elem_of_fmap). simplify_eq/=. eauto.
  - intros (name & b & He). exists (name, p). split; [done|].
    apply list_elem_of_fmap. by exists (name, p, b).
Qed.

Lemma sorted_describeFields drec path i fs :
  Forall (λ f, ∀ p, StronglySorted lexlt (pathsOf (drec (Typ f) p))
                    ∧ ∀ e : Entry, e ∈ drec (Typ f) p → ∃ q, q ≠ [] ∧ e.1.2 = p ++ q) fs →
  StronglySorted lexlt (pathsOf (describeFields drec path i fs)).
Proof.
  intros Hall. revert i. induction Hall as [|f fs Hf Hall IH]; intros i; simpl.
  - constructor.
  - unfold pathsOf in *. rewrite !fmap_app. apply StronglySorted_app_2.
    + intros p1 p2 Hp1 Hp2.
      assert (∃ q, p1 = path ++ i :: q) as [q1 ->].
      { destruct (dmlName f) as [name|].
        - apply list_elem_of_singleton in Hp1 as ->. by exists [].
        - destruct (expanded f); [|by apply elem_of_nil in Hp1].
          apply elem_of_pathsOf in Hp1 as (name & b & He).
          destruct (Hf (path ++ [i])) as [_ Hpre].
          destruct (Hpre _ He) as (q & _ & Hq). simpl in Hq. subst. exists q.
          by rewrite <-app_assoc. }
      apply elem_of_pathsOf in Hp2 as (name & b & He).
      apply elem_of_describeFields in He as (j & g & Hj & Hg).
      assert (∃ q, p2 = path ++ (S i + j)%nat :: q) as [q2 ->].
      { destruct Hg as [(? & _ & [= _ -> _])|[_ Hg]]; [by exists []|].
        apply Forall_lookup with (i := j) (x := g) in Hall; [|done].
        destruct (Hall (path ++ [(S i + j)%nat])) as [_ Hpre].
        destruct (Hpre _ Hg) as (q & _ & Hq). simpl in Hq. subst. exists q.
        by rewrite <-app_assoc. }
      apply lexlt_app. simpl. lia.
    + destruct (dmlName f) as [name|]; simpl.
      * repeat constructor.
      * destruct (expanded f); [apply Hf|constructor].
    + apply IH.
Qed.

Lemma describe_sorted t : ∀ path, StronglySorted lexlt (pathsOf (describe t path)).
Proof.
  induction t as [k n ms pms|n fs ms pms IH|e' _|e' _|n ms] using rtype_induction;
    intros path; simpl; try constructor.
  apply sorted_describeFields. eapply Forall_impl; [exact IH|]. simpl.
  intros f Hf p. split; [apply Hf|].
  intros e (q & g & name & -> & Hr%reaches_nonempty & _)%describe_reaches. eauto.
Qed.
End DescriptorOrder.

Lemma dmlName_Some f name :
  dmlName f = Some name ↔
  Reflect.PkgPath f = "" ∧ Reflect.Lookup (Reflect.Tag f) "dml" = (name, true).
Proof.
  unfold dmlName. destruct (Reflect.Lookup _ _) as [n ok].
  destruct (Reflect.PkgPath f) as [|a p]; simpl; destruct ok; naive_solver.
Qed.

Lemma expanded_true f :
  expanded f = true ↔
  dmlName f = None ∧ Reflect.Anonymous f = true ∧ Reflect.kind (Reflect.Typ f) = Reflect.Struct.
Proof.
  unfold expanded. destruct (dmlName f); [naive_solver|].
  rewrite andb_true_iff, bool_decide_eq_true. naive_solver.
Qed.

(** C5, as amended.  For every struct type the builder returns, with no error,
    the descriptor [describe]: in declaration order, one entry for each
    exported field that carries a [dml] tag and, at the place of each
    anonymous field of struct kind that is not itself such a field, the
    entries of the type of that field, depth first, under the path extended
    by its index.  Hence an entry stands exactly for a field with an external
    name reached through expanded fields only (never through a named struct
    field, and never for a field that is not exported), and the paths come in
    lexicographic order.  For an embedded struct with the tag [f0] declared
    before the fields tagged [f1] and [f2], the names are [f0, f1, f2]. *)
Theorem descriptor_in_declaration_order
    (t : Reflect.rtype) (path : list nat) (f0 f1 f2 : string) (t0 t1 t2 : Reflect.rtype) :
  Reflect.kind t = Reflect.Struct →
  buildFieldCacheEntryForType t path = (ofEntries (describe t path), None)
  ∧ (∀ e : Entry, e ∈ describe t path ↔
       ∃ q f name, e = (name, path ++ q, Reflect.Scanner (Reflect.methods (Reflect.Typ f)))
                   ∧ reaches t q f ∧ dmlName f = Some name)
  ∧ StronglySorted lexlt (pathsOf (describe t path))
  ∧ buildFieldCacheEntryForType
      (structType "T" [embeddedField "E" (structType "E" [taggedField "F0" t0 f0]) [];
                       taggedField "F1" t1 f1; taggedField "F2" t2 f2]) []
    = (fieldCacheEntry.mk [f0; f1; f2] [[0; 0]; [1]; [2]]%nat
         [Reflect.Scanner (Reflect.methods t0); Reflect.Scanner (Reflect.methods t1);
          Reflect.Scanner (Reflect.methods t2)], None).
Proof.
  intros Hk. split_and!.
  - by apply build_describe.
  - apply describe_reaches.
  - apply describe_sorted.
  - done.
Qed.

Lemma descriptor_in_declaration_order_witness :
  Reflect.kind TaggedType = Reflect.Struct
  ∧ buildFieldCacheEntryForType TaggedType [] = (ofEntries (describe TaggedType []), None)
  ∧ (∀ e : Entry, e ∈ describe TaggedType [] ↔
       ∃ q f name, e = (name, [] ++ q, Reflect.Scanner (Reflect.methods (Reflect.Typ f)))
                   ∧ reaches TaggedType q f ∧ dmlName f = Some name)
  ∧ StronglySorted lexlt (pathsOf (describe TaggedType []))
  ∧ buildFieldCacheEntryForType
      (structType "T" [embeddedField "E" (structType "E" [taggedField "F0" stringType "f0"]) [];
                       taggedField "F1" stringType "f1"; taggedField "F2" stringType "f2"]) []
    = (fieldCacheEntry.mk ["f0"; "f1"; "f2"] [[0; 0]; [1]; [2]]%nat
         [Reflect.Scanner (Reflect.methods stringType);
          Reflect.Scanner (Reflect.methods stringType);
          Reflect.Scanner (Reflect.methods stringType)], None).
Proof.
  split; [reflexivity|].
  apply (descriptor_in_declaration_order TaggedType [] "f0" "f1" "f2"
           stringType stringType stringType).
  reflexivity.
Defined.

(** C5 as stated fails: an anonymous embedded struct that carries a [dml] tag
    itself is listed as one entry under its own name, and the entries of its
    type are not expanded. *)
Lemma tagged_embedded_struct_not_expanded :
  buildFieldCacheEntryForType TaggedType []
  = (fieldCacheEntry.mk ["x"] [[0%nat]] [false], None)
  ∧ entriesOf (buildFieldCacheEntryForType InnerType [0%nat]).1 = [("a", [0; 0]%nat, false)]
  ∧ ¬ expandsEveryEmbedded TaggedType.
Proof.
  split_and!; [done..|]. intros Hexp.
  assert (("a", [0; 0]%nat, false) ∈ entriesOf (buildFieldCacheEntryForType TaggedType []).1)
    as Hin.
  { apply (Hexp 0%nat (embeddedField "Inner" InnerType [("dml", "x")])); try done.
    by apply list_elem_of_singleton. }
  by apply list_elem_of_singleton in Hin.
Qed.

(** ** The field cache *)

Lemma cacheSound_nil : cacheSound [].
Proof. by intros t cached. Qed.

Lemma cacheSound_cons t cached fieldsCache :
  buildFieldCacheEntryForType t [] = (cached, None) →
  cacheSound fieldsCache → cacheSound ((t, cached) :: fieldsCache).
Proof.
  intros Hb Hs t' cached'. simpl. case_decide; [|by apply Hs]. by intros [= <-]; subst.
Qed.

(** On a sound cache, a resolution does not depend on what is cached. *)
Lemma getFieldCachesFor_sound t fieldsCache :
  cacheSound fieldsCache →
  (λ r, r.1) <$> getFieldCachesFor t fieldsCache
  = (if Reflect.GetFields (Reflect.methods t)
     then Some (namedFieldsFromGetFields, None)
     else
       t ← unwrapType t;
       if decide (Reflect.kind t ≠ Reflect.Struct)
       then Some (cachedFields fieldCacheEntry.zero, Some "nested object is not struct")
       else match buildFieldCacheEntryForType t [] with
            | (_, Some err) => Some (cachedFields fieldCacheEntry.zero, Some err)
            | (cached, None) => Some (cachedFields cached, None)
            end).
Proof.
  intros Hs. unfold getFieldCachesFor.
  destruct (Reflect.GetFields _); [done|].
  destruct (unwrapType t) as [t'|]; [simpl|done].
  case_decide; [done|].
  destruct (cacheLookup fieldsCache t') as [cached|] eqn:Hc.
  - by rewrite (Hs _ _ Hc).
  - by destruct (buildFieldCacheEntryForType t' []) as [cached [err|]].
Qed.

Lemma getFieldCachesFor_again t fieldsCache r fieldsCache' :
  getFieldCachesFor t fieldsCache = Some (r, fieldsCache') →
  getFieldCachesFor t fieldsCache' = Some (r, fieldsCache').
Proof.
  unfold getFieldCachesFor.
  destruct (Reflect.GetFields _); [by intros [= <- <-]|].
  destruct (unwrapType t) as [t'|]; [simpl|done].
  case_decide; [by intros [= <- <-]|].
  destruct (cacheLookup fieldsCache t') as [cached|] eqn:Hc.
  - intros [= <- <-]. by rewrite Hc.
  - destruct (buildFieldCacheEntryForType t' []) as [cached [err|]] eqn:Hb.
    + intros [= <- <-]. by rewrite Hc.
    + intros [= <- <-]. simpl. by rewrite decide_True.
Qed.

Lemma getFieldCachesFor_keeps_sound t fieldsCache r fieldsCache' :
  cacheSound fieldsCache →
  getFieldCachesFor t fieldsCache = Some (r, fieldsCache') →
  cacheSound fieldsCache'.
Proof.
  intros Hs. unfold getFieldCachesFor.
  destruct (Reflect.GetFields _); [by intros [= <- <-]|].
  destruct (unwrapType t) as [t'|]; [simpl|done].
  case_decide; [by intros [= <- <-]|].
  destruct (cacheLookup fieldsCache t') as [cached|] eqn:Hc; [by intros [= <- <-]|].
  destruct (buildFieldCacheEntryForType t' []) as [cached [err|]] eqn:Hb;
    intros [= <- <-]; [done|]. by apply cacheSound_cons.
Qed.

(** C8.  Resolving the descriptor of a type gives the same result (the same
    names, field paths and self-scanning flags, or the same error) whatever
    the cache holds, as long as the cache holds only what the builder
    returned: two resolutions that both build afresh agree, and so do one
    that builds and one that is served from the cache.  A resolution
    repeated on the cache left by the first returns the same result and
    leaves that cache unchanged; the empty cache is sound and resolutions
    keep the cache sound. *)
Theorem descriptor_resolution_idempotent (t : Reflect.rtype) (c1 c2 : fieldsCacheMap) :
  cacheSound c1 → cacheSound c2 →
  (λ r, r.1) <$> getFieldCachesFor t c1 = (λ r, r.1) <$> getFieldCachesFor t c2
  ∧ match getFieldCachesFor t c1 with
    | Some (r, c1') => getFieldCachesFor t c1' = Some (r, c1') ∧ cacheSound c1'
    | None => True
    end
  ∧ cacheSound [].
Proof.
  intros Hs1 Hs2. split_and!.
  - by rewrite !getFieldCachesFor_sound.
  - destruct (getFieldCachesFor t c1) as [[r c1']|] eqn:Hr; [|done].
    eauto using getFieldCachesFor_again, getFieldCachesFor_keeps_sound.
  - apply cacheSound_nil.
Qed.

Lemma descriptor_resolution_idempotent_witness :
  let c2 := [(TaggedType, fieldCacheEntry.mk ["x"] [[0%nat]] [false])] in
  cacheSound [] ∧ cacheSound c2
  ∧ (λ r, r.1) <$> getFieldCachesFor (Reflect.PtrTo TaggedType) []
    = (λ r, r.1) <$> getFieldCachesFor (Reflect.PtrTo TaggedType) c2
  ∧ match getFieldCachesFor (Reflect.PtrTo TaggedType) [] with
    | Some (r, c1') =>
        getFieldCachesFor (Reflect.PtrTo TaggedType) c1' = Some (r, c1') ∧ cacheSound c1'
    | None => True
    end
  ∧ cacheSound [].
Proof.
  intros c2.
  assert (cacheSound c2) as Hc2 by (by apply cacheSound_cons; [|apply cacheSound_nil]).
  split; [apply cacheSound_nil|]. split; [exact Hc2|].
  apply (descriptor_resolution_idempotent (Reflect.PtrTo TaggedType) [] c2);
    [apply cacheSound_nil|exact Hc2].
Defined.

(** ** Relations kept by the computations of the package *)


Section Keeps.
Context {Src : Type} (R : relation (World Src)) `{!PreOrder R}.

Lemma keeps_ret {A} (a : A) : keeps R (mret a).
Proof. intros w a' w' [= _ <-]. reflexivity. Qed.

Lemma keeps_bind {A B} (m : M Src A) (k : A → M Src B) :
  keeps R m → (∀ a, keeps R (k a)) → keeps R (m ≫= k).
Proof.
  intros Hm Hk w b w'. unfold mbind, M_bind.
  destruct (m w) as [[a w1]|] eqn:Hmw; [|done].
  intros Hkw. etrans; [by eapply Hm|by eapply Hk].
Qed.

Lemma keeps_orPanic {A} (o : option A) : keeps R (orPanic o).
Proof. intros w a w'. unfold orPanic. destruct o; [|done]. intros [= _ <-]. reflexivity. Qed.
End Keeps.

(** Structural steps of a proof that a computation keeps a relation. *)
Ltac keeps_step :=
  lazymatch goal with
  | |- keeps _ (mret _) => apply keeps_ret
  | |- keeps _ (orPanic _) => apply keeps_orPanic
  | |- keeps _ (_ ≫= _) => apply keeps_bind
  | |- keeps _ (match ?x with _ => _ end) => destruct x
  | |- keeps _ (if ?x then _ else _) => destruct x
  | |- ∀ _, _ => intros ?
  end.

(** The calls made by the code that renders field lists are [GetFields]
    calls and cache transitions: it keeps every relation that those keep. *)
Section Rendering.
Context {Src : Type} `{!UserMethods} (R : relation (World Src)) `{!PreOrder R}.
Hypothesis HGetFields : ∀ g, keeps R (callGetFields g).
Hypothesis HonCache : ∀ A (f : fieldsCacheMap → option (A * fieldsCacheMap)), keeps R (onCache f).

Lemma keeps_GetNamedFieldsMakers_from types output :
  keeps R (GetNamedFieldsMakers_from (Src:=Src) types output).
Proof.
  revert output. induction types as [|t types IH]; intros output; simpl.
  - apply keeps_ret, _.
  - apply keeps_bind; [done|apply HonCache|]. intros [cached [err|]]; [apply keeps_ret, _|apply IH].
Qed.

Lemma keeps_NamedFieldsMaker_NamedFields n v :
  keeps R (NamedFieldsMaker_NamedFields (Src:=Src) n v).
Proof.
  destruct n; simpl; [|apply keeps_orPanic, _].
  unfold namedFieldsFromGetFields_NamedFields.
  apply keeps_bind; [done|apply keeps_orPanic, _|]. intros g.
  destruct (Rv.dynamicType g); [|apply keeps_ret, _].
  destruct (Reflect.GetFields _); [apply HGetFields|apply keeps_ret, _].
Qed.

Lemma keeps_RenderNamedFields_from i nfm values output :
  keeps R (RenderNamedFields_from (Src:=Src) i nfm values output).
Proof.
  revert i output. induction nfm as [|n nfm IH]; intros i output; simpl.
  - apply keeps_ret, _.
  - apply keeps_bind; [done|apply keeps_orPanic, _|]. intros v.
    apply keeps_bind; [done|apply keeps_NamedFieldsMaker_NamedFields|].
    intros [fields [err|]]; [apply keeps_ret, _|apply IH].
Qed.

Lemma keeps_RenderNamedFields nfm values :
  keeps R (RenderNamedFields (Src:=Src) nfm values).
Proof.
  unfold RenderNamedFields. case_decide; [apply keeps_ret, _|].
  apply keeps_RenderNamedFields_from.
Qed.

Lemma keeps_GetFieldsFrom into : keeps R (GetFieldsFrom (Src:=Src) into).
Proof.
  unfold GetFieldsFrom. apply keeps_bind; [done|apply keeps_orPanic, _|].
  intros [[values types] [err|]]; [apply keeps_ret, _|].
  apply keeps_bind; [done|apply keeps_GetNamedFieldsMakers_from|].
  intros [nfm [err|]]; [apply keeps_ret, _|apply keeps_RenderNamedFields].
Qed.

Lemma keeps_BuildNamedFields_rest rest fields :
  keeps R (BuildNamedFields_rest (Src:=Src) rest fields).
Proof.
  revert fields. induction rest as [|x rest IH]; intros fields; simpl.
  - apply keeps_ret, _.
  - apply keeps_bind; [done|apply keeps_GetFieldsFrom|].
    intros [new_fields [err|]]; [apply keeps_ret, _|apply IH].
Qed.

Lemma keeps_BuildNamedFields into : keeps R (BuildNamedFields (Src:=Src) into).
Proof.
  destruct into as [|into0 rest]; simpl; [apply keeps_ret, _|].
  apply keeps_bind; [done|apply keeps_GetFieldsFrom|].
  intros [fields [err|]]; [apply keeps_ret, _|apply keeps_BuildNamedFields_rest].
Qed.
End Rendering.

(** ** Post-scan hooks *)


Lemma hooksCalled_app tr1 tr2 : hooksCalled (tr1 ++ tr2) = hooksCalled tr1 ++ hooksCalled tr2.
Proof. apply omap_app. Qed.

Section Quiet.
Context {Src : Type} `{!UserMethods}.

Lemma quiet_onCache {A} (f : fieldsCacheMap → option (A * fieldsCacheMap)) :
  keeps (@sameHooks Src) (onCache f).
Proof.
  intros w a w'. unfold onCache. destruct (f _) as [[??]|]; [|done]. by intros [= _ <-].
Qed.

Lemma quiet_onMemory {A} (f : Memory → option (A * Memory)) :
  keeps (@sameHooks Src) (onMemory f).
Proof.
  intros w a w'. unfold onMemory. destruct (f _) as [[??]|]; [|done]. by intros [= _ <-].
Qed.

Lemma quiet_callGetFields g : keeps (@sameHooks Src) (callGetFields g).
Proof.
  intros w a w' [= _ <-]. unfold sameHooks. simpl.
  by rewrite hooksCalled_app, app_nil_r.
Qed.

Lemma quiet_callScan `{!Scannable Src} receivers : keeps (@sameHooks Src) (callScan receivers).
Proof.
  intros w a w'. unfold callScan. destruct (Scan _ _). intros [= _ <-].
  unfold sameHooks. simpl. by rewrite hooksCalled_app, app_nil_r.
Qed.

Lemma quiet_callColumnTypes `{!AdvancedScannable Src} :
  keeps (@sameHooks Src) callColumnTypes.
Proof.
  intros w a w'. unfold callColumnTypes. destruct (ColumnTypes _). intros [= _ <-].
  unfold sameHooks. simpl. by rewrite hooksCalled_app, app_nil_r.
Qed.

Lemma quiet_callNext `{!IterableScannable Src} : keeps (@sameHooks Src) callNext.
Proof.
  intros w a w'. unfold callNext. destruct (Next _). intros [= _ <-].
  unfold sameHooks. simpl. by rewrite hooksCalled_app, app_nil_r.
Qed.

Lemma quiet_callErr `{!IterableScannable Src} : keeps (@sameHooks Src) callErr.
Proof.
  intros w a w'. unfold callErr. destruct (Err _). intros [= _ <-].
  unfold sameHooks. simpl. by rewrite hooksCalled_app, app_nil_r.
Qed.

Lemma quiet_ScanWithMappedFields `{!Scannable Src} m fields :
  keeps (@sameHooks Src) (ScanWithMappedFields m fields).
Proof.
  unfold ScanWithMappedFields. apply keeps_bind; [apply _| |].
  - destruct m; [apply keeps_orPanic, _|apply keeps_ret, _].
  - intros field_list. case_decide; [apply keeps_ret, _|apply quiet_callScan].
Qed.

Lemma quiet_BuildMap `{!AdvancedScannable Src} fields :
  keeps (@sameHooks Src) (BuildMap fields).
Proof.
  unfold BuildMap. apply keeps_bind; [apply _|apply quiet_callColumnTypes|].
  intros [[columns|] [err|]]; try apply keeps_ret, _.
  apply keeps_bind; [apply _|apply keeps_orPanic, _|]. intros ?. apply keeps_ret, _.
Qed.

Lemma quiet_ScanWithFields `{!AdvancedScannable Src} fields :
  keeps (@sameHooks Src) (ScanWithFields fields).
Proof.
  unfold ScanWithFields. apply keeps_bind; [apply _|apply quiet_BuildMap|].
  intros [m [err|]]; [apply keeps_ret, _|apply quiet_ScanWithMappedFields].
Qed.

Lemma quiet_BuildNamedFields into : keeps (@sameHooks Src) (BuildNamedFields into).
Proof.
  apply keeps_BuildNamedFields;
    solve [apply _|apply quiet_callGetFields|intros A f; apply quiet_onCache].
Qed.

Lemma quiet_RenderNamedFields nfm values :
  keeps (@sameHooks Src) (RenderNamedFields nfm values).
Proof.
  apply keeps_RenderNamedFields;
    solve [apply _|apply quiet_callGetFields|intros A f; apply quiet_onCache].
Qed.

Context `{!IterableScannable Src}.

Lemma quiet_prepare into : keeps (@sameHooks Src) (prepare into).
Proof.
  unfold prepare. apply keeps_bind; [apply _|apply keeps_orPanic, _|].
  intros [slices [err|]]; [apply keeps_ret, _|].
  apply keeps_bind; [apply _|apply keeps_orPanic, _|]. intros zeros.
  apply keeps_bind; [apply _|apply keeps_orPanic, _|].
  intros [[values types] [err|]]; [apply keeps_ret, _|].
  apply keeps_bind; [apply _| |].
  { apply keeps_GetNamedFieldsMakers_from;
      solve [apply _|apply quiet_callGetFields|intros A f; apply quiet_onCache]. }
  intros [nfm [err|]]; [apply keeps_ret, _|].
  apply keeps_bind; [apply _|apply quiet_RenderNamedFields|].
  intros [named_fields [err|]]; [apply keeps_ret, _|].
  apply keeps_bind; [apply _|apply quiet_BuildMap|].
  intros [smap [err|]]; apply keeps_ret, _.
Qed.

Lemma quiet_row p : keeps (@sameHooks Src) (row p).
Proof.
  unfold row. apply keeps_bind; [apply _|apply quiet_onMemory|]. intros _.
  apply keeps_bind; [apply _|apply quiet_callErr|]. intros [err|]; [apply keeps_ret, _|].
  apply keeps_bind; [apply _|apply quiet_onMemory|]. intros elements.
  apply keeps_bind; [apply _|apply quiet_RenderNamedFields|].
  intros [named_fields [err|]]; [apply keeps_ret, _|apply quiet_ScanWithMappedFields].
Qed.

Lemma quiet_rows fuel p : keeps (@sameHooks Src) (rows fuel p).
Proof.
  induction fuel as [|fuel IH]; simpl; [apply keeps_ret, _|].
  apply keeps_bind; [apply _|apply quiet_callNext|]. intros [|]; [|apply keeps_ret, _].
  apply keeps_bind; [apply _|apply quiet_row|]. intros [err|]; [apply keeps_ret, _|apply IH].
Qed.

Lemma quiet_ScanArray fuel into : keeps (@sameHooks Src) (ScanArray fuel into).
Proof.
  unfold ScanArray. apply keeps_bind; [apply _|apply quiet_prepare|].
  intros [err|p]; [apply keeps_ret, _|].
  apply keeps_bind; [apply _|apply quiet_rows|]. intros [err| |]; try apply keeps_ret, _.
  apply keeps_bind; [apply _|apply quiet_onMemory|]. intros _. apply keeps_ret, _.
Qed.
End Quiet.

Section PostScan.
Context {Src : Type} `{!UserMethods}.

Lemma afterCalls_nil (w : World Src) : afterCalls w [] = w.
Proof. destruct w. unfold afterCalls. simpl. by rewrite app_nil_r. Qed.

Lemma afterCalls_app (w : World Src) cs1 cs2 :
  afterCalls (afterCalls w cs1) cs2 = afterCalls w (cs1 ++ cs2).
Proof. unfold afterCalls. simpl. by rewrite app_assoc. Qed.

(** [postScan] calls the hooks of [hooksRun], and nothing else. *)
Lemma postScan_spec into (w : World Src) :
  postScan into w
  = Some (hooksResult (postProcessables into),
          afterCalls w (CallPostScan <$> hooksRun (postProcessables into))).
Proof.
  revert w. induction into as [|i into IH]; intros w; simpl.
  - by rewrite afterCalls_nil.
  - unfold postProcessables in *. simpl.
    destruct (asPostProcessable i) as [pp|]; simpl; [|apply IH].
    unfold mbind, M_bind, callPostScan. simpl.
    destruct (PostScan_method pp) as [err|]; simpl; [done|].
    rewrite IH. f_equal. f_equal. unfold afterCalls. simpl. by rewrite <-app_assoc.
Qed.

Lemma hooksRun_all pps :
  match hooksResult pps with
  | None => hooksRun pps = pps
  | Some err =>
      ∃ pp rest, hooksRun pps ++ rest = pps
                 ∧ last (hooksRun pps) = Some pp ∧ PostScan_method pp = Some err
  end.
Proof.
  induction pps as [|pp pps IH]; simpl; [done|].
  destruct (PostScan_method pp) as [err|] eqn:Hpp.
  - exists pp, pps. done.
  - destruct (hooksResult pps) as [err|].
    + destruct IH as (pp' & rest & Happ & Hlast & Herr). exists pp', rest.
      split_and!; [by rewrite <-Happ at 2| |done].
      rewrite last_cons, Hlast. done.
    + by rewrite IH.
Qed.

Lemma hooksAfterScan_intro (scan : NamedFields.t → M Src (option error))
    (entry : list ScanInto → M Src (option error)) into (w : World Src) :
  (∀ fields, keeps sameHooks (scan fields)) →
  entry into w
  = ('(fields, err) ← BuildNamedFields into;
     match err with
     | Some err => mret (Some err)
     | None =>
         err ← scan fields;
         match err with
         | Some err => mret (Some err)
         | None => postScan into
         end
     end) w →
  hooksAfterScan scan entry into w.
Proof.
  intros Hscan He. unfold hooksAfterScan. rewrite !He. clear He. unfold mbind, M_bind.
  destruct (BuildNamedFields into w) as [[[fields [err|]] w1]|] eqn:Hb; [| |done].
  { split; [done|]. by apply (quiet_BuildNamedFields into _ _ _ Hb). }
  pose proof (quiet_BuildNamedFields into _ _ _ Hb) as Hq1.
  destruct (scan fields w1) as [[[err|] w2]|] eqn:Hs; [| |done].
  - split; [done|]. etrans; [by apply (Hscan fields _ _ _ Hs)|done].
  - split; [apply postScan_spec|]. etrans; [by apply (Hscan fields _ _ _ Hs)|done].
Qed.
End PostScan.

(** C9, as amended.  QuickScan, Scan and ScanWithMap call no post-scan hook
    unless the field list was built and the scan returned without error;
    then they call the hooks of the targets that have one, in target order
    and each once, up to and including the first hook that returns an error,
    which becomes the result; the hooks of later targets are not called.
    When no hook fails, every hook is called.  ScanArray calls no hook. *)
Theorem post_scan_hooks {Src} `{!IterableScannable Src} `{!UserMethods}
    (m : option ScanMap) (into : list ScanInto) (fuel : nat) (arrays : list ScanIntoArray)
    (w : World Src) :
  hooksAfterScan (ScanWithMappedFields None) QuickScan into w
  ∧ hooksAfterScan ScanWithFields Scan_ into w
  ∧ hooksAfterScan (ScanWithMappedFields m) (ScanWithMap m) into w
  ∧ match hooksResult (postProcessables into) with
    | None => hooksRun (postProcessables into) = postProcessables into
    | Some err =>
        ∃ pp rest, hooksRun (postProcessables into) ++ rest = postProcessables into
                   ∧ last (hooksRun (postProcessables into)) = Some pp
                   ∧ PostScan_method pp = Some err
    end
  ∧ match ScanArray fuel arrays w with
    | Some (_, w') => hooksCalled (trace w') = hooksCalled (trace w)
    | None => True
    end.
Proof.
  split_and!.
  - apply hooksAfterScan_intro; [apply quiet_ScanWithMappedFields|done].
  - apply hooksAfterScan_intro; [apply quiet_ScanWithFields|done].
  - apply hooksAfterScan_intro; [apply quiet_ScanWithMappedFields|done].
  - apply hooksRun_all.
  - destruct (ScanArray fuel arrays w) as [[r w']|] eqn:Hs; [|done].
    by apply (quiet_ScanArray fuel arrays _ _ _ Hs).
Qed.

(** C9 as stated fails: after a scan that succeeded, a hook that returns an
    error keeps the hooks of the later targets from being called. *)
Lemma failing_hook_stops_later_hooks :
  let into := [Plain (hookedTarget 0); Plain (hookedTarget 1)] in
  let w := mkWorld (mkRows None (Some (mkRow ["a"; "b"] None)) [])
             (mkMemory {[ 0%nat := ∅; 1%nat := ∅ ]} ∅) [] [] in
  (λ r, r.1.2) <$> @BuildNamedFields Rows abortingHooks into w = Some None
  ∧ (λ r, r.1) <$> ('(fields, _, w1) ← @BuildNamedFields Rows abortingHooks into w;
                    ScanWithMappedFields None fields w1) = Some None
  ∧ (λ r, (r.1, hooksCalled (trace r.2))) <$> @QuickScan Rows abortingHooks _ into w
    = Some (Some "abort!", [hookedTarget 0])
  ∧ postProcessables into = [hookedTarget 0; hookedTarget 1].
Proof. vm_compute. done. Qed.

(** ** Lengths of the target slices *)


Section Lengths.
Context {Src : Type} `{!UserMethods}.

Lemma occurrences_cons l l' ls :
  occurrences l (l' :: ls) = ((if decide (l' = l) then 1 else 0) + occurrences l ls)%nat.
Proof. unfold occurrences. rewrite filter_cons. by case_decide. Qed.



Lemma writeField_lengths p path v mem l :
  length <$> slices (writeField p path v mem) !! l = length <$> slices mem !! l.
Proof.
  destruct p as [l0|l0 i|k]; simpl; [done| |done].
  rewrite lookup_alter. case_decide; [subst|done].
  destruct (slices mem !! l); simpl; [|done]. by rewrite length_alter.
Qed.

Lemma applyStores_lengths receivers values mem l :
  length <$> slices (applyStores receivers values mem) !! l = length <$> slices mem !! l.
Proof.
  revert values mem. induction receivers as [|r receivers IH]; intros values mem; simpl.
  - by destruct values.
  - destruct r, values as [|[v|] values]; simpl; rewrite ?IH; try done.
    apply writeField_lengths.
Qed.

Lemma lengths_callScan `{!Scannable Src} receivers :
  keeps (@sameLengths Src) (callScan receivers).
Proof.
  intros w a w'. unfold callScan. destruct (Scan _ _). intros [= _ <-] l. simpl.
  apply applyStores_lengths.
Qed.

Lemma lengths_ScanWithMappedFields `{!Scannable Src} m fields :
  keeps (@sameLengths Src) (ScanWithMappedFields m fields).
Proof.
  unfold ScanWithMappedFields. apply keeps_bind; [apply _| |].
  - destruct m; [apply keeps_orPanic, _|apply keeps_ret, _].
  - intros field_list. case_decide; [apply keeps_ret, _|apply lengths_callScan].
Qed.

Lemma lengths_RenderNamedFields nfm values :
  keeps (@sameLengths Src) (RenderNamedFields nfm values).
Proof.
  apply keeps_RenderNamedFields; try apply _.
  intros g w a w' [= _ <-] l. done.
Qed.

Lemma lengths_callErr `{!IterableScannable Src} : keeps (@sameLengths Src) callErr.
Proof. intros w a w'. unfold callErr. destruct (Err _). by intros [= _ <-] l. Qed.


Lemma targets_cons s slices_ t l :
  val s = SliceVal t l → targets (s :: slices_) = l :: targets slices_.
Proof. intros Hs. unfold targets. simpl. by rewrite Hs. Qed.

(** Appending the zero values adds to each slice variable one element per
    target that refers to it. *)
Lemma appendZeros_spec i slices_ zeros mem mem1 :
  appendZeros i slices_ zeros mem = Some mem1 →
  structs mem1 = structs mem
  ∧ Forall (λ s, ∃ t l, val s = SliceVal t l) slices_
  ∧ (∀ l, l ∈ targets slices_ → is_Some (slices mem !! l))
  ∧ ∀ l, slices mem1 !! l
         = (λ xs, xs ++ replicate (occurrences l (targets slices_)) ∅) <$> slices mem !! l.
Proof.
  revert i mem. induction slices_ as [|s slices_ IH]; intros i mem; simpl.
  - intros [= <-]. split_and!; [done|done|by intros l ?%elem_of_nil|].
    intros l. unfold occurrences. simpl.
    destruct (slices mem !! l); simpl; [|done]. by rewrite app_nil_r.
  - destruct (zeros !! i) as [zero|]; [simpl|done].
    unfold appendZero. destruct (val s) as [| | | | |t l0|] eqn:Hs; simpl; try done.
    destruct (slices mem !! l0) as [xs0|] eqn:Hl0; [simpl|done].
    intros (Hst & Hall & Hdom & Hsl)%IH. split_and!; [done|constructor; eauto| |].
    { intros l [->|Hin]%elem_of_cons; [by eexists|].
      apply Hdom in Hin. simpl in Hin. destruct (decide (l0 = l)) as [->|Hne]; [by eexists|].
      by rewrite lookup_insert_ne in Hin. }
    intros l. simpl in Hsl. rewrite Hsl, occurrences_cons. destruct (decide (l0 = l)) as [->|Hne].
    + rewrite lookup_insert_eq, Hl0. simpl. by rewrite <-app_assoc.
    + by rewrite lookup_insert_ne.
Qed.

(** The deferred truncation removes from each slice variable one element
    per target that refers to it; it does not panic when they are there. *)
Lemma rewindSlices_spec slices_ mem :
  Forall (λ s, ∃ t l, val s = SliceVal t l) slices_ →
  (∀ l, l ∈ targets slices_ →
        ∃ ys, slices mem !! l = Some ys ∧ (occurrences l (targets slices_) ≤ length ys)%nat) →
  ∃ mem', rewindSlices slices_ mem = Some mem'
    ∧ structs mem' = structs mem
    ∧ ∀ l, slices mem' !! l
           = (λ ys, take (length ys - occurrences l (targets slices_)) ys) <$> slices mem !! l.
Proof.
  intros Hall. revert mem. induction Hall as [|s slices_ (t & l0 & Hs) Hall IH];
    intros mem Hocc; cbn [rewindSlices].
  - exists mem. split_and!; [done..|]. intros l. unfold occurrences. simpl.
    destruct (slices mem !! l); simpl; [|done]. by rewrite Nat.sub_0_r, firstn_all.
  - unfold dropLast. rewrite (targets_cons _ _ t l0) in Hocc |- * by done. rewrite Hs.
    destruct (Hocc l0) as (ys0 & Hl0 & Hys0); [set_solver|].
    rewrite occurrences_cons, decide_True in Hys0 by done.
    rewrite Hl0. simpl.
    rewrite decide_False by lia.
    edestruct (IH (mkMemory (structs mem) (<[l0:=take (length ys0 - 1) ys0]> (slices mem))))
      as (mem' & Hrew & Hst & Hsl).
    { intros l Hl. simpl. destruct (decide (l0 = l)) as [->|Hne].
      - rewrite lookup_insert_eq. eexists. split; [done|]. rewrite length_take. lia.
      - rewrite lookup_insert_ne by done.
        destruct (Hocc l) as (ys & Hl' & Hys); [set_solver|].
        rewrite occurrences_cons, decide_False in Hys by done. eauto. }
    exists mem'. split_and!; [done|done|]. intros l. rewrite Hsl. simpl.
    rewrite occurrences_cons. destruct (decide (l0 = l)) as [->|Hne].
    + rewrite lookup_insert_eq, Hl0. simpl. rewrite length_take, take_take.
      do 2 f_equal. lia.
    + by rewrite lookup_insert_ne.
Qed.
End Lengths.

Section Rollback.
Context {Src : Type} `{!IterableScannable Src} `{!UserMethods}.

Lemma lengths_rowRest p : keeps (@sameLengths Src) (rowRest p).
Proof.
  unfold rowRest. apply keeps_bind; [apply _|apply lengths_callErr|].
  intros [err|]; [apply keeps_ret, _|].
  apply keeps_bind; [apply _| |].
  { intros w a w'. unfold onMemory. destruct (renderInto _ _); [|done]. by intros [= _ <-] ?. }
  intros elements. apply keeps_bind; [apply _|apply lengths_RenderNamedFields|].
  intros [named_fields [err|]]; [apply keeps_ret, _|apply lengths_ScanWithMappedFields].
Qed.

(** One pass through the loop body, failed or not, leaves every slice
    variable longer by one element per target that refers to it. *)
Lemma row_lengths p (wn wf : World Src) r :
  row p wn = Some (r, wf) →
  Forall (λ s, ∃ t l, val s = SliceVal t l) (p_slices p)
  ∧ (∀ l, l ∈ targets (p_slices p) → is_Some (slices (memory wn) !! l))
  ∧ ∀ l, length <$> slices (memory wf) !! l
         = (λ xs, (length xs + occurrences l (targets (p_slices p)))%nat)
             <$> slices (memory wn) !! l.
Proof.
  change (row p) with
    (onMemory (λ mem, mem ← appendZeros 0 (p_slices p) (p_zeros p) mem; Some ((), mem))
       ≫= λ _ : (), rowRest p).
  unfold mbind at 1, M_bind at 1, onMemory at 1.
  destruct (appendZeros 0 (p_slices p) (p_zeros p) (memory wn)) as [mem1|] eqn:Happ;
    [simpl|done].
  intros Hrest%lengths_rowRest. apply appendZeros_spec in Happ as (_ & Hall & Hdom & Hsl).
  split_and!; [done..|]. intros l. rewrite (Hrest l). simpl. rewrite Hsl.
  destruct (slices (memory wn) !! l); simpl; [|done].
  by rewrite length_app, length_replicate.
Qed.


Lemma rows_failed p k fuel (w wk wn wf : World Src) err :
  completed p k w wk → callNext wk = Some (true, wn) → row p wn = Some (Some err, wf) →
  (k < fuel)%nat →
  rows fuel p w = Some (Failed err, wf).
Proof.
  intros Hc. revert fuel. induction Hc as [w|k w w1 w2 w3 Hnext Hrow _ IH];
    intros fuel Hn Hr Hlt; (destruct fuel as [|fuel]; [lia|]); simpl;
    unfold mbind, M_bind.
  - by rewrite Hn, Hr.
  - rewrite Hnext, Hrow. apply IH; [done..|lia].
Qed.

Lemma rows_exhausted p k fuel (w wk w' : World Src) :
  completed p k w wk → callNext wk = Some (false, w') → (k < fuel)%nat →
  rows fuel p w = Some (Exhausted, w').
Proof.
  intros Hc. revert fuel. induction Hc as [w|k w w1 w2 w3 Hnext Hrow _ IH];
    intros fuel Hn Hlt; (destruct fuel as [|fuel]; [lia|]); simpl;
    unfold mbind, M_bind.
  - by rewrite Hn.
  - rewrite Hnext, Hrow. apply IH; [done|lia].
Qed.

(** Conversely, a loop that was left ran as [completed] describes. *)
Lemma rows_inv p fuel (w w1 : World Src) exit :
  rows fuel p w = Some (exit, w1) →
  match exit with
  | Failed err =>
      ∃ k wk wn, completed p k w wk ∧ callNext wk = Some (true, wn)
                 ∧ row p wn = Some (Some err, w1) ∧ (k < fuel)%nat
  | Exhausted => ∃ k wk, completed p k w wk ∧ callNext wk = Some (false, w1) ∧ (k < fuel)%nat
  | OutOfFuel => ∃ wk, completed p fuel w wk
  end.
Proof.
  revert w. induction fuel as [|fuel IH]; intros w; simpl.
  - intros [= <- <-]. eexists. constructor.
  - unfold mbind, M_bind. destruct (callNext w) as [[[|] wn]|] eqn:Hnext; [| |done].
    + destruct (row p wn) as [[[err|] w2]|] eqn:Hrow; [| |done].
      * intros [= <- <-]. exists 0%nat, w, wn. split_and!; [constructor|done|done|lia].
      * intros Hrows%IH. destruct exit as [err| |].
        -- destruct Hrows as (k & wk & wn' & Hc & ? & ? & ?).
           exists (S k), wk, wn'. split_and!; [by econstructor|done|done|lia].
        -- destruct Hrows as (k & wk & Hc & ? & ?).
           exists (S k), wk. split_and!; [by econstructor|done|lia].
        -- destruct Hrows as (wk & Hc). exists wk. by econstructor.
    + intros [= <- <-]. exists 0%nat, w. split_and!; [constructor|done|lia].
Qed.
End Rollback.

Lemma callNext_memory {Src} `{!IterableScannable Src} (w w' : World Src) more :
  callNext w = Some (more, w') → memory w' = memory w.
Proof. unfold callNext. destruct (Next _). by intros [= _ <-]. Qed.




(** * Further properties *)

(** ** The iln queue under any sequence of calls *)

Lemma is_iln_nil h : is_iln h None [].
Proof. split_and!; try done. constructor. Qed.

Lemma runQueue_fifo ops h p ns :
  is_iln h p ns → runQueue ops p h = Some (runFifo ops ns.*2).
Proof.
  revert h p ns. induction ops as [|[i|] ops IH]; intros h p ns Hq; simpl.
  - done.
  - destruct (add_spec h p ns i Hq) as (p' & h' & -> & Hq' & _). simpl.
    rewrite (IH _ _ _ Hq'). by rewrite fmap_app.
  - destruct (yoink_spec h p ns Hq) as (p' & h' & -> & Hq' & _). simpl.
    rewrite (IH _ _ _ Hq'). simpl. by destruct ns.
Qed.

(** X1.  Whatever sequence of [add] and [yoink] calls a client makes on a
    queue that starts as the nil pointer, no call panics and the calls of
    [yoink] return what a first-in first-out queue returns: the indices in
    the order they were added, and nil whenever the queue is empty. *)
Theorem iln_is_fifo (ops : list QueueOp) :
  runQueue ops None [] = Some (runFifo ops []).
Proof. apply (runQueue_fifo ops [] None []), is_iln_nil. Qed.

(** ** Distinct column names *)

Lemma positions_notin x l : x ∉ l → positions x l = [].
Proof.
  induction l as [|y l IH]; [done|]. rewrite not_elem_of_cons. intros [? ?].
  rewrite positions_cons, IH by done. by rewrite decide_False by done.
Qed.

Lemma rank_NoDup (columns : list string) j c :
  NoDup columns → columns !! j = Some c → rank c columns j = 0%nat.
Proof.
  intros Hnd Hj. unfold rank. rewrite positions_notin; [done|].
  intros Hin. apply list_elem_of_lookup in Hin as [j' Hj'].
  rewrite lookup_take_Some in Hj'. destruct Hj' as [Hj' Hlt].
  pose proof (NoDup_lookup _ _ _ _ Hnd Hj Hj'). lia.
Qed.

Lemma positions_head x l i :
  positions x l !! 0%nat = Some i ↔
  l !! i = Some x ∧ ∀ i', (i' < i)%nat → l !! i' ≠ Some x.
Proof.
  rewrite positions_lookup. split; intros [Hi H0]; (split; [done|]).
  - intros i' Hlt Hi'. unfold rank in H0.
    assert (x ∈ take i l) as Hin.
    { apply list_elem_of_lookup. exists i'. by rewrite lookup_take_Some. }
    apply list_elem_of_lookup in Hin as [k Hk].
    assert (positions x (take i l) !! rank x (take i l) k = Some k) as Hp.
    { by apply positions_lookup. }
    apply lookup_lt_Some in Hp. lia.
  - unfold rank. rewrite positions_notin; [done|]. intros Hin.
    apply list_elem_of_lookup in Hin as [k Hk]. rewrite lookup_take_Some in Hk.
    naive_solver.
Qed.

(** X2.  When the column names of the row source are pairwise distinct,
    BuildMap maps every column to the first field that bears its name, and to
    the discard value -1 when no field bears it; later fields of the same
    name receive no column. *)
Theorem BuildMap_distinct_columns {Src} `{!AdvancedScannable Src}
    (fields : NamedFields.t) (w : World Src) (columns : list Sql.ColumnType) (s : Src) :
  ColumnTypes (source w) = (Some columns, None, s) →
  NoDup (Sql.Name <$> columns) →
  ∃ out : ScanMap,
    BuildMap fields w = Some (Some out, None, afterColumnTypes w s)
    ∧ length out = length columns
    ∧ ∀ j c, columns !! j = Some c →
        ((Sql.Name c ∉ NamedFields.Names fields) ∧ out !! j = Some (-1))
        ∨ (∃ i : nat, NamedFields.Names fields !! i = Some (Sql.Name c)
            ∧ (∀ i', (i' < i)%nat → NamedFields.Names fields !! i' ≠ Some (Sql.Name c))
            ∧ out !! j = Some (Z.of_nat i)).
Proof.
  intros Hcols Hnd. exists (fifoMap (Sql.Name <$> columns) (NamedFields.Names fields)).
  split_and!.
  - unfold BuildMap, callColumnTypes, mbind, M_bind. rewrite Hcols. simpl.
    unfold orPanic. by rewrite matchColumns_fifo.
  - by rewrite fifoMap_length, length_fmap.
  - intros j c Hj. rewrite fifoMap_lookup, list_lookup_fmap, Hj. simpl.
    unfold fifoEntry. rewrite (rank_NoDup _ j) by (by rewrite ?list_lookup_fmap, ?Hj).
    destruct (positions (Sql.Name c) (NamedFields.Names fields) !! 0%nat) as [i|] eqn:Hp.
    + right. exists i. apply positions_head in Hp as [? ?]. done.
    + left. split; [|done]. intros Hin.
      apply list_elem_of_lookup in Hin as [i Hi].
      assert (positions (Sql.Name c) (NamedFields.Names fields)
                !! rank (Sql.Name c) (NamedFields.Names fields) i = Some i) as Hq
        by (by apply positions_lookup).
      apply lookup_lt_Some in Hq. apply lookup_ge_None in Hp. lia.
Qed.

Lemma BuildMap_distinct_columns_witness :
  let fields := NamedFields.mk ["b"; "a"; "b"] [UserReceiver 0; UserReceiver 1; UserReceiver 2] in
  let w := mkWorld (mkRows (Some ["a"; "b"; "c"]) None []) (mkMemory ∅ ∅) [] [] in
  ColumnTypes (source w) = (Some (columnsNamed ["a"; "b"; "c"]), None, source w)
  ∧ NoDup (Sql.Name <$> columnsNamed ["a"; "b"; "c"])
  ∧ ∃ out : ScanMap,
      BuildMap fields w = Some (Some out, None, afterColumnTypes w (source w))
      ∧ length out = length (columnsNamed ["a"; "b"; "c"])
      ∧ ∀ j c, columnsNamed ["a"; "b"; "c"] !! j = Some c →
          ((Sql.Name c ∉ NamedFields.Names fields) ∧ out !! j = Some (-1))
          ∨ (∃ i : nat, NamedFields.Names fields !! i = Some (Sql.Name c)
              ∧ (∀ i', (i' < i)%nat → NamedFields.Names fields !! i' ≠ Some (Sql.Name c))
              ∧ out !! j = Some (Z.of_nat i)).
Proof.
  intros fields w.
  assert (NoDup (Sql.Name <$> columnsNamed ["a"; "b"; "c"])) as Hnd.
  { apply (bool_decide_unpack _). vm_compute. exact I. }
  split; [reflexivity|]. split; [exact Hnd|].
  exact (BuildMap_distinct_columns fields w (columnsNamed ["a"; "b"; "c"]) (source w)
           eq_refl Hnd).
Defined.

(** ** Scanning through a position map *)

Lemma mapM_receivers (fields : NamedFields.t) (m : ScanMap) :
  mapM (λ idx_into, if decide (idx_into = -1) then Some noopScanner
                    else index (NamedFields.Fields fields) idx_into) m
  = if decide (Forall (followable (length (NamedFields.Fields fields))) m)
    then Some (receiverFor fields <$> m) else None.
Proof.
  induction m as [|idx m IH]; [by rewrite decide_True by constructor|].
  cbn [mapM]. rewrite IH. clear IH. unfold index.
  destruct (decide (idx = -1)) as [->|Hidx]; simpl.
  - destruct (decide (Forall _ m)) as [Hm|Hm]; simpl.
    + rewrite decide_True; [done|]. constructor; [by left|done].
    + rewrite decide_False; [done|]. by intros [_ ?]%Forall_cons.
  - destruct (decide (0 ≤ idx)) as [H0|H0].
    + destruct (NamedFields.Fields fields !! Z.to_nat idx) as [r|] eqn:Hr; simpl.
      * apply lookup_lt_Some in Hr as Hlt.
        destruct (decide (Forall _ m)) as [Hm|Hm]; simpl.
        -- rewrite decide_True by (constructor; [right; lia|done]).
           change (Some (r :: (receiverFor fields <$> m)) = Some (receiverFor fields idx :: (receiverFor fields <$> m))).
           do 2 f_equal. unfold receiverFor. rewrite decide_False by done. by rewrite Hr.
        -- rewrite decide_False; [done|]. by intros [_ ?]%Forall_cons.
      * apply lookup_ge_None in Hr. rewrite decide_False; [done|].
        intros [[?|?] _]%Forall_cons; [done|lia].
    + simpl. rewrite decide_False; [done|].
      intros [[?|?] _]%Forall_cons; [done|lia].
Qed.

Lemma ScanWithMappedFields_mapped_eq {Src} `{!Scannable Src}
    (m : ScanMap) (fields : NamedFields.t) (w : World Src) :
  ScanWithMappedFields (Some m) fields w
  = if decide (Forall (followable (length (NamedFields.Fields fields))) m)
    then if decide (m = [])
         then Some (Some "cannot scan into empty list of fields", w)
         else callScan (receiverFor fields <$> m) w
    else None.
Proof.
  unfold ScanWithMappedFields, mbind, M_bind, orPanic. rewrite mapM_receivers.
  destruct (decide (Forall _ m)) as [Hm|Hm]; [|done].
  unfold len. rewrite length_fmap.
  by destruct m as [|idx m].
Qed.

(** X3.  With a position map, ScanWithMappedFields panics exactly when some
    entry is neither -1 nor an index into the field list (it does not check
    the map against the fields); otherwise an empty map gives the error
    without any call, and a non-empty map gives one call of Scan with one
    receiver per map entry, the discarding scanner for -1 and the field at
    the entry's index otherwise, whose error it returns. *)
Theorem ScanWithMappedFields_follows_map {Src} `{!Scannable Src}
    (m : ScanMap) (fields : NamedFields.t) (w : World Src) :
  ScanWithMappedFields (Some m) fields w
  = if decide (Forall (followable (length (NamedFields.Fields fields))) m)
    then if decide (m = [])
         then Some (Some "cannot scan into empty list of fields", w)
         else callScan (receiverFor fields <$> m) w
    else None.
Proof. apply ScanWithMappedFields_mapped_eq. Qed.

(** ** ScanWithFields *)

Lemma fifoMap_followable columns (fields : NamedFields.t) :
  (length (NamedFields.Names fields) ≤ length (NamedFields.Fields fields))%nat →
  Forall (followable (length (NamedFields.Fields fields)))
         (fifoMap columns (NamedFields.Names fields)).
Proof.
  intros Hlen. apply Forall_lookup. intros j v Hj.
  destruct (fp_entry _ _ _ (fifoMap_pairing columns (NamedFields.Names fields)) j v Hj)
    as [->|(i & -> & [n Hn] & _)]; [by left|right].
  apply lookup_lt_Some in Hn. lia.
Qed.

Lemma ScanWithFields_receivers_aux {Src} `{!AdvancedScannable Src}
    (fields : NamedFields.t) (w : World Src) (columns : list Sql.ColumnType) (s : Src) :
  ColumnTypes (source w) = (Some columns, None, s) →
  columns ≠ [] →
  (length (NamedFields.Names fields) ≤ length (NamedFields.Fields fields))%nat →
  ∃ out : ScanMap,
    ScanWithFields fields w = callScan (receiverFor fields <$> out) (afterColumnTypes w s)
    ∧ length (receiverFor fields <$> out) = length columns
    ∧ (∀ j c, columns !! j = Some c →
         (out !! j = Some (-1) ∧ (receiverFor fields <$> out) !! j = Some noopScanner)
         ∨ (∃ (i : nat) r, out !! j = Some (Z.of_nat i)
              ∧ NamedFields.Names fields !! i = Some (Sql.Name c)
              ∧ NamedFields.Fields fields !! i = Some r
              ∧ (receiverFor fields <$> out) !! j = Some r))
    ∧ (∀ j j' (i : nat), out !! j = Some (Z.of_nat i) → out !! j' = Some (Z.of_nat i) → j = j').
Proof.
  intros Hcols Hne Hlen.
  set (out := fifoMap (Sql.Name <$> columns) (NamedFields.Names fields)).
  pose proof (fifoMap_pairing (Sql.Name <$> columns) (NamedFields.Names fields)) as Hp.
  exists out. split_and!.
  - unfold ScanWithFields, BuildMap, callColumnTypes, mbind at 1 2, M_bind at 1 2.
    rewrite Hcols. simpl. unfold mbind, M_bind, orPanic. rewrite matchColumns_fifo. simpl.
    fold (afterColumnTypes w s). rewrite ScanWithMappedFields_mapped_eq. fold out.
    rewrite decide_True by (by apply fifoMap_followable).
    rewrite decide_False; [done|]. intros Hout.
    apply (f_equal length) in Hout. subst out.
    rewrite fifoMap_length, length_fmap in Hout. destruct columns; simplify_eq/=; done.
  - subst out. by rewrite length_fmap, fifoMap_length, length_fmap.
  - intros j c Hj. rewrite list_lookup_fmap.
    assert (is_Some (out !! j)) as [v Hv].
    { apply lookup_lt_is_Some. subst out. rewrite fifoMap_length, length_fmap.
      by eapply lookup_lt_Some. }
    rewrite Hv. simpl.
    destruct (fp_entry _ _ _ Hp j v Hv) as [->|(i & -> & [n Hn] & Hnc)]; [by left|right].
    rewrite list_lookup_fmap, Hj in Hnc. simpl in Hnc.
    assert (is_Some (NamedFields.Fields fields !! i)) as [r Hr].
    { apply lookup_lt_is_Some. apply lookup_lt_Some in Hn. lia. }
    exists i, r. split_and!; try done.
    unfold receiverFor. rewrite decide_False by lia. by rewrite Nat2Z.id, Hr.
  - apply (fp_once _ _ _ Hp).
Qed.

(** X4.  When the row source lists its columns (at least one) and the field
    list has a receiver for each of its names, ScanWithFields does not panic:
    it asks for the columns once and calls Scan once, with one receiver per
    column; the receiver of a column is the discarding scanner or the
    receiver of a field that bears the column's name, no field's receiver is
    passed for two columns, and the error of Scan is returned. *)
Theorem ScanWithFields_receivers {Src} `{!AdvancedScannable Src}
    (fields : NamedFields.t) (w : World Src) (columns : list Sql.ColumnType) (s : Src) :
  ColumnTypes (source w) = (Some columns, None, s) →
  columns ≠ [] →
  (length (NamedFields.Names fields) ≤ length (NamedFields.Fields fields))%nat →
  ∃ out : ScanMap,
    ScanWithFields fields w = callScan (receiverFor fields <$> out) (afterColumnTypes w s)
    ∧ length (receiverFor fields <$> out) = length columns
    ∧ (∀ j c, columns !! j = Some c →
         (out !! j = Some (-1) ∧ (receiverFor fields <$> out) !! j = Some noopScanner)
         ∨ (∃ (i : nat) r, out !! j = Some (Z.of_nat i)
              ∧ NamedFields.Names fields !! i = Some (Sql.Name c)
              ∧ NamedFields.Fields fields !! i = Some r
              ∧ (receiverFor fields <$> out) !! j = Some r))
    ∧ (∀ j j' (i : nat), out !! j = Some (Z.of_nat i) → out !! j' = Some (Z.of_nat i) → j = j').
Proof. apply ScanWithFields_receivers_aux. Qed.

Lemma ScanWithFields_receivers_witness :
  let fields := NamedFields.mk ["a"; "b"] [UserReceiver 0; UserReceiver 1] in
  let w := mkWorld (mkRows (Some ["b"; "a"]) None []) (mkMemory ∅ ∅) [] [] in
  let columns := columnsNamed ["b"; "a"] in
  ColumnTypes (source w) = (Some columns, None, source w)
  ∧ columns ≠ []
  ∧ (length (NamedFields.Names fields) ≤ length (NamedFields.Fields fields))%nat
  ∧ ∃ out : ScanMap,
      ScanWithFields fields w
      = callScan (receiverFor fields <$> out) (afterColumnTypes w (source w))
      ∧ length (receiverFor fields <$> out) = length columns
      ∧ (∀ j c, columns !! j = Some c →
           (out !! j = Some (-1) ∧ (receiverFor fields <$> out) !! j = Some noopScanner)
           ∨ (∃ (i : nat) r, out !! j = Some (Z.of_nat i)
                ∧ NamedFields.Names fields !! i = Some (Sql.Name c)
                ∧ NamedFields.Fields fields !! i = Some r
                ∧ (receiverFor fields <$> out) !! j = Some r))
      ∧ (∀ j j' (i : nat), out !! j = Some (Z.of_nat i) → out !! j' = Some (Z.of_nat i) → j = j').
Proof.
  intros fields w columns.
  assert (columns ≠ []) as Hne by (by vm_compute).
  assert (length (NamedFields.Names fields) ≤ length (NamedFields.Fields fields))%nat
    as Hlen by (simpl; lia).
  split; [reflexivity|]. split; [exact Hne|]. split; [exact Hlen|].
  exact (ScanWithFields_receivers fields w columns (source w) eq_refl Hne Hlen).
Defined.

(** X5.  When the column enumeration fails, or lists no column at all,
    ScanWithFields returns an error (the enumeration's own, or "cannot scan
    into empty list of fields") after that one call: Scan is not called and
    nothing is stored, whatever the field list. *)
Theorem ScanWithFields_without_columns {Src} `{!AdvancedScannable Src}
    (fields : NamedFields.t) (w : World Src)
    (columns : option (list Sql.ColumnType)) (err : option error) (s : Src) :
  ColumnTypes (source w) = (columns, err, s) →
  err ≠ None ∨ columns = Some [] →
  ScanWithFields fields w
  = Some (Some (default "cannot scan into empty list of fields" err), afterColumnTypes w s).
Proof.
  intros Hcols Hcase.
  unfold ScanWithFields, BuildMap, callColumnTypes, mbind at 1 2, M_bind at 1 2.
  rewrite Hcols. simpl. destruct err as [err|]; [done|].
  destruct Hcase as [?| ->]; [congruence|].
  unfold mbind, M_bind, orPanic. by rewrite matchColumns_fifo.
Qed.

Lemma ScanWithFields_without_columns_witness :
  let fields := NamedFields.mk ["a"] [UserReceiver 0] in
  let w := mkWorld (mkClosedRows "sql: Rows are closed") (mkMemory ∅ ∅) [] [] in
  ColumnTypes (source w) = (None, Some "sql: Rows are closed", source w)
  ∧ (Some "sql: Rows are closed" ≠ None ∨ @None (list Sql.ColumnType) = Some [])
  ∧ ScanWithFields fields w
    = Some (Some (default "cannot scan into empty list of fields" (Some "sql: Rows are closed")),
            afterColumnTypes w (source w)).
Proof.
  intros fields w.
  assert (Some "sql: Rows are closed" ≠ None ∨ @None (list Sql.ColumnType) = Some [])
    as Hcase by (by left).
  split; [reflexivity|]. split; [exact Hcase|].
  exact (ScanWithFields_without_columns fields w None (Some "sql: Rows are closed") (source w)
           eq_refl Hcase).
Defined.

(** ** Normalisation of the targets *)

Lemma unwrapValue_Implementor x settable v :
  unwrapValue x settable = Some (Implementor v) →
  ∃ t, Rv.Typ v = Some t ∧ Reflect.GetFields (Reflect.methods t) = true.
Proof.
  revert settable. induction x as [|t|t y IH|t y IH|t p|t l|t]; intros settable; simpl;
    try done; destruct (Reflect.GetFields (Reflect.methods t)) eqn:Hg;
    try (intros [= <-]; by exists t); try done; eauto.
  case_decide; done.
Qed.

Lemma unwrapValue_Stopped_struct x settable v :
  unwrapValue x settable = Some (Stopped v) → Rv.Kind v = Reflect.Struct →
  ∃ t, Rv.Typ v = Some t ∧ Reflect.GetFields (Reflect.methods t) = false.
Proof.
  revert settable. induction x as [|t|t y IH|t y IH|t p|t l|t]; intros settable; simpl.
  - by intros [= <-].
  - destruct (Reflect.GetFields _); [done|]. by intros [= <-].
  - destruct (Reflect.GetFields _); [done|]. apply IH.
  - destruct (Reflect.GetFields _); [done|]. apply IH.
  - destruct (Reflect.GetFields _) eqn:Hg; [done|]. intros [= <-] _. by exists t.
  - destruct (Reflect.GetFields _); [done|]. by intros [= <-].
  - destruct (Reflect.GetFields _) eqn:Hg; [done|]. case_decide; [done|].
    intros [= <-] _. by exists t.
Qed.

Lemma internalNormalizeObjects_inv into b out_vals out_types :
  match internalNormalizeObjects into b out_vals out_types with
  | Some (vals, types, None) =>
      ∃ vals' types', vals = out_vals ++ vals' ∧ types = out_types ++ types'
        ∧ length vals' = length into ∧ Forall2 (normalized b) vals' types'
  | Some (vals, types, Some _) => vals = [] ∧ types = []
  | None => True
  end.
Proof.
  revert out_vals out_types. induction into as [|i into IH]; intros out_vals out_types; simpl.
  { exists [], []. by rewrite !app_nil_r. }
  destruct (unwrapValue _ _) as [[v|v]|] eqn:Hu; simpl; [| |done].
  - destruct (unwrapValue_Implementor _ _ _ Hu) as (t & Ht & Hg). rewrite Ht. simpl.
    specialize (IH (out_vals ++ [v]) (out_types ++ [t])).
    destruct (internalNormalizeObjects _ _ _ _) as [[[vals types] [err|]]|]; [done| |done].
    destruct IH as (vals' & types' & -> & -> & Hlen & Hall).
    exists (v :: vals'), (t :: types'). rewrite <-!app_assoc. split_and!; try done.
    + simpl. by rewrite Hlen.
    + constructor; [|done]. split; [done|by left].
  - destruct (_ && _) eqn:Hok; [|done].
    apply andb_true_iff in Hok as [Hset Hk%bool_decide_eq_true].
    destruct (unwrapValue_Stopped_struct _ _ _ Hu Hk) as (t & Ht & Hg). rewrite Ht. simpl.
    specialize (IH (out_vals ++ [v]) (out_types ++ [t])).
    destruct (internalNormalizeObjects _ _ _ _) as [[[vals types] [err|]]|]; [done| |done].
    destruct IH as (vals' & types' & -> & -> & Hlen & Hall).
    exists (v :: vals'), (t :: types'). rewrite <-!app_assoc. split_and!; try done.
    + simpl. by rewrite Hlen.
    + constructor; [|done]. split; [done|right]. split_and!; [done..|].
      apply orb_true_iff in Hset. by destruct Hset; [left|right].
Qed.

Lemma unwrapValue_is_Some x settable : wellFormed x → is_Some (unwrapValue x settable).
Proof.
  revert settable. induction x as [|t|t y IH|t y IH|t p|t l|t]; intros settable Hwf; simpl;
    try (destruct (Reflect.GetFields _); by eauto).
  - by eauto.
  - destruct Hwf. destruct (Reflect.GetFields _); by eauto.
  - destruct Hwf. destruct (Reflect.GetFields _); by eauto.
  - destruct Hwf. destruct (Reflect.GetFields _); [by eauto|].
    rewrite decide_False by (by intros [?|?]). by eauto.
Qed.

Lemma internalNormalizeObjects_is_Some into b out_vals out_types :
  Forall (λ i, wellFormed (val (valueOfScanInto i))) into →
  is_Some (internalNormalizeObjects into b out_vals out_types).
Proof.
  revert out_vals out_types. induction into as [|i into IH]; intros out_vals out_types Hwf;
    simpl; [by eauto|].
  apply Forall_cons in Hwf as [Hi Hwf]. fold (valueOfScanInto i).
  destruct (unwrapValue_is_Some _ (canSet (valueOfScanInto i)) Hi) as [[v|v] Hu];
    rewrite Hu; simpl.
  - destruct (unwrapValue_Implementor _ _ _ Hu) as (t & -> & _). simpl. by apply IH.
  - destruct (_ && _) eqn:Hok; [|by eauto].
    apply andb_true_iff in Hok as [_ Hk%bool_decide_eq_true].
    destruct (unwrapValue_Stopped_struct _ _ _ Hu Hk) as (t & -> & _). simpl. by apply IH.
Qed.

(** X6.  On well-formed targets internalNormalizeObjects does not panic.
    When it returns without error it returns one value and one type per
    target, in order, each type being that of its value, and each value
    either of a type that implements GetFields or a struct that is settable
    (any struct when unsettable values are let through); when it returns an
    error the two lists are nil. *)
Theorem internalNormalizeObjects_result (into : list ScanInto) (ignoreUnsettable : bool) :
  Forall (λ i, wellFormed (val (valueOfScanInto i))) into →
  ∃ vals types err,
    internalNormalizeObjects into ignoreUnsettable [] [] = Some (vals, types, err)
    ∧ match err with
      | None =>
          length vals = length into ∧ length types = length into
          ∧ Forall2 (normalized ignoreUnsettable) vals types
      | Some _ => vals = [] ∧ types = []
      end.
Proof.
  intros Hwf.
  destruct (internalNormalizeObjects_is_Some into ignoreUnsettable [] [] Hwf)
    as [[[vals types] err] Hn].
  exists vals, types, err. split; [done|].
  pose proof (internalNormalizeObjects_inv into ignoreUnsettable [] []) as H. rewrite Hn in H.
  destruct err as [err|]; [done|].
  destruct H as (vals' & types' & -> & -> & Hlen & Hall). simpl.
  split_and!; [done| |done]. by rewrite <-(Forall2_length _ _ _ Hall).
Qed.

Lemma internalNormalizeObjects_result_witness :
  let into := [Plain (Pointer (Reflect.PtrTo X2) (StructVal X2 (PVar 0))); Plain Nil] in
  Forall (λ i, wellFormed (val (valueOfScanInto i))) into
  ∧ ∃ vals types err,
      internalNormalizeObjects into false [] [] = Some (vals, types, err)
      ∧ match err with
        | None =>
            length vals = length into ∧ length types = length into
            ∧ Forall2 (normalized false) vals types
        | Some _ => vals = [] ∧ types = []
        end.
Proof.
  intros into.
  assert (Forall (λ i, wellFormed (val (valueOfScanInto i))) into) as Hwf
    by (repeat constructor).
  split; [exact Hwf|]. exact (internalNormalizeObjects_result into false Hwf).
Defined.

(** X7.  Which single targets NormalizeObjects accepts, for a struct type [t]
    that has no GetFields method (on values or on pointers): a pointer to a
    struct, also behind a further pointer, is accepted and yields the
    settable struct it points to; the struct passed by value, a nil pointer
    and the nil interface are rejected with the error that names their kind
    (struct, invalid); with unsettable values let through, as ScanArray
    does, the struct by value is accepted. *)
Theorem NormalizeObjects_accepts_pointers (t : Reflect.rtype) (p : Place) :
  Reflect.GetFields (Reflect.methods t) = false →
  Reflect.GetFields (Reflect.methods (Reflect.PtrTo t)) = false →
  NormalizeObjects [Plain (Pointer (Reflect.PtrTo t) (StructVal t p))]
  = Some ([mkValue (StructVal t p) true], [t], None)
  ∧ NormalizeObjects
      [Plain (Pointer (Reflect.PtrTo (Reflect.PtrTo t))
                (Pointer (Reflect.PtrTo t) (StructVal t p)))]
    = Some ([mkValue (StructVal t p) true], [t], None)
  ∧ NormalizeObjects [Plain (StructVal t p)]
    = Some ([], [], Some "incompatible object type: struct (need a pointer or an sql.Scanner)")
  ∧ NormalizeObjects [Plain (NilPointer (Reflect.PtrTo t))]
    = Some ([], [], Some "incompatible object type: invalid (need a pointer or an sql.Scanner)")
  ∧ NormalizeObjects [Plain Nil]
    = Some ([], [], Some "incompatible object type: invalid (need a pointer or an sql.Scanner)")
  ∧ internalNormalizeObjects [Plain (StructVal t p)] true [] []
    = Some ([mkValue (StructVal t p) false], [t], None).
Proof.
  intros Ht Hpt. unfold NormalizeObjects.
  split_and!; cbn [internalNormalizeObjects unwrapValue Rv.ValueOf val canSet];
    rewrite ?Hpt, ?Ht; try done.
Qed.

Lemma NormalizeObjects_accepts_pointers_witness :
  Reflect.GetFields (Reflect.methods X2) = false
  ∧ Reflect.GetFields (Reflect.methods (Reflect.PtrTo X2)) = false
  ∧ NormalizeObjects [Plain (Pointer (Reflect.PtrTo X2) (StructVal X2 (PVar 0)))]
    = Some ([mkValue (StructVal X2 (PVar 0)) true], [X2], None)
  ∧ NormalizeObjects
      [Plain (Pointer (Reflect.PtrTo (Reflect.PtrTo X2))
                (Pointer (Reflect.PtrTo X2) (StructVal X2 (PVar 0))))]
    = Some ([mkValue (StructVal X2 (PVar 0)) true], [X2], None)
  ∧ NormalizeObjects [Plain (StructVal X2 (PVar 0))]
    = Some ([], [], Some "incompatible object type: struct (need a pointer or an sql.Scanner)")
  ∧ NormalizeObjects [Plain (NilPointer (Reflect.PtrTo X2))]
    = Some ([], [], Some "incompatible object type: invalid (need a pointer or an sql.Scanner)")
  ∧ NormalizeObjects [Plain Nil]
    = Some ([], [], Some "incompatible object type: invalid (need a pointer or an sql.Scanner)")
  ∧ internalNormalizeObjects [Plain (StructVal X2 (PVar 0))] true [] []
    = Some ([mkValue (StructVal X2 (PVar 0)) false], [X2], None).
Proof.
  split; [reflexivity|]. split; [reflexivity|].
  exact (NormalizeObjects_accepts_pointers X2 (PVar 0) eq_refl eq_refl).
Defined.

(** ** Resolving makers *)

Lemma unwrapType_struct t : Reflect.kind t = Reflect.Struct → unwrapType t = Some t.
Proof.
  destruct t; simpl; try done. intros ->. rewrite decide_False; [done|]. by intros [?|?].
Qed.

Lemma getFieldCachesFor_extends t c r c' :
  getFieldCachesFor t c = Some (r, c') → cacheExtends c c'.
Proof.
  unfold getFieldCachesFor.
  destruct (Reflect.GetFields _); [by intros [= <- <-]|].
  destruct (unwrapType t) as [t'|]; [simpl|done].
  case_decide; [by intros [= <- <-]|].
  destruct (cacheLookup c t') as [cached|] eqn:Hc; [by intros [= <- <-]|].
  destruct (buildFieldCacheEntryForType t' []) as [cached [err|]] eqn:Hb;
    intros [= <- <-]; [done|].
  intros t0 e He. simpl. case_decide; [congruence|done].
Qed.

Lemma getFieldCachesFor_makerFor t c :
  Reflect.GetFields (Reflect.methods t) = true ∨ Reflect.kind t = Reflect.Struct →
  cacheSound c →
  ∃ c', getFieldCachesFor t c = Some (makerFor t, None, c')
        ∧ cacheSound c' ∧ cacheExtends c c'
        ∧ (Reflect.GetFields (Reflect.methods t) = false →
           cacheLookup c' t = Some (ofEntries (describe t []))).
Proof.
  intros Ht Hs. unfold makerFor.
  destruct (Reflect.GetFields (Reflect.methods t)) eqn:Hg.
  { exists c. unfold getFieldCachesFor. rewrite Hg. done. }
  destruct Ht as [?|Hk]; [done|].
  destruct (getFieldCachesFor t c) as [[r c']|] eqn:Hr.
  - pose proof (getFieldCachesFor_sound t c Hs) as Hv. rewrite Hr, Hg in Hv.
    rewrite (unwrapType_struct _ Hk) in Hv. simpl in Hv.
    rewrite decide_False, (build_describe t [] Hk) in Hv by (by intros ?).
    injection Hv as ->. exists c'. split_and!; [done|..].
    + by eapply getFieldCachesFor_keeps_sound.
    + by eapply getFieldCachesFor_extends.
    + intros _. pose proof (getFieldCachesFor_again _ _ _ _ Hr) as Ha.
      unfold getFieldCachesFor in Hr, Ha. rewrite Hg, (unwrapType_struct _ Hk) in Hr, Ha.
      simpl in Hr, Ha. rewrite decide_False in Hr, Ha by (by intros ?).
      destruct (cacheLookup c t) as [cached|] eqn:Hc.
      * injection Hr as <- <-. done.
      * rewrite (build_describe t [] Hk) in Hr. injection Hr as <-. simpl.
        by rewrite decide_True.
  - exfalso. unfold getFieldCachesFor in Hr. rewrite Hg, (unwrapType_struct _ Hk) in Hr.
    simpl in Hr. rewrite decide_False in Hr by (by intros ?).
    destruct (cacheLookup c t); [done|].
    by destruct (buildFieldCacheEntryForType t []) as [? [?|]].
Qed.

Lemma GetNamedFieldsMakers_from_makerFor {Src} types output (w : World Src) :
  Forall (λ t, Reflect.GetFields (Reflect.methods t) = true ∨ Reflect.kind t = Reflect.Struct)
         types →
  cacheSound (fieldsCache w) →
  ∃ c', GetNamedFieldsMakers_from types output w
        = Some (output ++ (makerFor <$> types), None, withCache w c')
        ∧ cacheSound c' ∧ cacheExtends (fieldsCache w) c'
        ∧ Forall (λ t, Reflect.GetFields (Reflect.methods t) = false →
                       cacheLookup c' t = Some (ofEntries (describe t []))) types.
Proof.
  revert output w. induction types as [|t types IH]; intros output w Hall Hs; simpl.
  { exists (fieldsCache w). rewrite app_nil_r. by destruct w. }
  apply Forall_cons in Hall as [Ht Hall].
  destruct (getFieldCachesFor_makerFor t _ Ht Hs) as (c1 & Hr & Hs1 & He1 & Hl1).
  unfold mbind, M_bind, onCache. rewrite Hr. simpl.
  destruct (IH (output ++ [makerFor t])
              (mkWorld (source w) (memory w) c1 (trace w)) Hall Hs1)
    as (c' & -> & Hs' & He' & Hl').
  exists c'. rewrite <-app_assoc. split_and!; [done|done|by etrans|].
  constructor; [|done]. intros Hg. by apply He', Hl1.
Qed.

(** ** Well-formed targets *)

Lemma unwrapValue_wellFormed x settable u :
  wellFormed x → unwrapValue x settable = Some u →
  wellFormed (val (match u with Implementor v | Stopped v => v end)).
Proof.
  revert settable. induction x as [|t|t y IH|t y IH|t p|t l|t]; intros settable Hwf; simpl.
  - by intros [= <-].
  - destruct (Reflect.GetFields _); by intros [= <-].
  - destruct Hwf as [? ?]. destruct (Reflect.GetFields _); [by intros [= <-]|]. by apply IH.
  - destruct Hwf as [? ?]. destruct (Reflect.GetFields _); [by intros [= <-]|]. by apply IH.
  - destruct (Reflect.GetFields _); by intros [= <-].
  - destruct (Reflect.GetFields _); by intros [= <-].
  - destruct (Reflect.GetFields _); [by intros [= <-]|]. case_decide; [done|]. by intros [= <-].
Qed.

Lemma wellFormed_struct v t :
  wellFormed (val v) → Rv.Typ v = Some t → Rv.Kind v = Reflect.Struct →
  Reflect.kind t = Reflect.Struct.
Proof.
  unfold Rv.Typ, Rv.Kind. destruct (val v); simpl; try done; by intros ? [= <-].
Qed.

Lemma internalNormalizeObjects_resolvable into b out_vals out_types vals types :
  Forall (λ i, wellFormed (val (valueOfScanInto i))) into →
  Forall (λ t, Reflect.GetFields (Reflect.methods t) = true ∨ Reflect.kind t = Reflect.Struct)
         out_types →
  internalNormalizeObjects into b out_vals out_types = Some (vals, types, None) →
  Forall (λ t, Reflect.GetFields (Reflect.methods t) = true ∨ Reflect.kind t = Reflect.Struct)
         types.
Proof.
  revert out_vals out_types. induction into as [|i into IH]; intros out_vals out_types Hwf Hout;
    simpl.
  { by intros [= _ <-]. }
  apply Forall_cons in Hwf as [Hi Hwf]. fold (valueOfScanInto i).
  destruct (unwrapValue _ _) as [[v|v]|] eqn:Hu; simpl; [| |done].
  - destruct (unwrapValue_Implementor _ _ _ Hu) as (t & Ht & Hg). rewrite Ht. simpl.
    apply IH; [done|]. apply Forall_app. split; [done|]. constructor; [by left|constructor].
  - destruct (_ && _) eqn:Hok; [|done].
    apply andb_true_iff in Hok as [Hset Hk%bool_decide_eq_true].
    destruct (unwrapValue_Stopped_struct _ _ _ Hu Hk) as (t & Ht & Hg). rewrite Ht. simpl.
    apply IH; [done|]. apply Forall_app. split; [done|]. constructor; [right|constructor].
    eapply wellFormed_struct; [|done..].
    by apply (unwrapValue_wellFormed _ _ _ Hi Hu).
Qed.

(** X8.  For well-formed targets that internalNormalizeObjects accepted,
    GetNamedFieldsMakers cannot fail or panic, whatever sound cache it finds:
    it returns one maker per value, the GetFields shim for a type that
    implements GetFields and the descriptor of the struct type otherwise,
    and changes nothing but the cache, which stays sound and keeps all its
    entries. *)
Theorem GetNamedFieldsMakers_after_normalisation {Src}
    (into : list ScanInto) (ignoreUnsettable : bool)
    (vals : list rvalue) (types : list Reflect.rtype) (w : World Src) :
  Forall (λ i, wellFormed (val (valueOfScanInto i))) into →
  internalNormalizeObjects into ignoreUnsettable [] [] = Some (vals, types, None) →
  cacheSound (fieldsCache w) →
  ∃ c', GetNamedFieldsMakers types w = Some (makerFor <$> types, None, withCache w c')
        ∧ length (makerFor <$> types) = length vals
        ∧ cacheSound c' ∧ cacheExtends (fieldsCache w) c'.
Proof.
  intros Hwf Hn Hs.
  pose proof (internalNormalizeObjects_resolvable _ _ _ _ _ _ Hwf (Forall_nil_2 _) Hn) as Hres.
  destruct (GetNamedFieldsMakers_from_makerFor types [] w Hres Hs) as (c' & Hm & Hs' & He & _).
  exists c'. split_and!; try done.
  pose proof (internalNormalizeObjects_inv into ignoreUnsettable [] []) as Hr.
  rewrite Hn in Hr. destruct Hr as (vals' & types' & -> & -> & _ & Hall).
  rewrite length_fmap. simpl. symmetry. by eapply Forall2_length.
Qed.

Lemma GetNamedFieldsMakers_after_normalisation_witness :
  let into := [Plain (addressOf (X2, PVar 0))] in
  let w := mkWorld twoRows (mkMemory {[ 0%nat := ∅ ]} ∅) [] [] in
  Forall (λ i, wellFormed (val (valueOfScanInto i))) into
  ∧ internalNormalizeObjects into false [] []
    = Some ([mkValue (StructVal X2 (PVar 0)) true], [X2], None)
  ∧ cacheSound (fieldsCache w)
  ∧ ∃ c', @GetNamedFieldsMakers Rows [X2] w
          = Some (makerFor <$> [X2], None, withCache w c')
          ∧ length (makerFor <$> [X2]) = length [mkValue (StructVal X2 (PVar 0)) true]
          ∧ cacheSound c' ∧ cacheExtends (fieldsCache w) c'.
Proof.
  intros into w.
  assert (Forall (λ i, wellFormed (val (valueOfScanInto i))) into) as Hwf.
  { repeat constructor. }
  split; [exact Hwf|]. split; [reflexivity|]. split; [exact cacheSound_nil|].
  exact (@GetNamedFieldsMakers_after_normalisation Rows into false _ _ w
           Hwf eq_refl cacheSound_nil).
Defined.

(** ** Rendering a descriptor on an instance *)

Lemma reaches_fieldType t q f : reaches t q f → Rv.fieldType t q = Some (Reflect.Typ f).
Proof.
  induction 1 as [t i f Hf|t i g q f Hg _ _ IH]; simpl.
  - by rewrite Hf.
  - by rewrite Hg.
Qed.

Lemma describe_fieldType t (e : Entry) :
  e ∈ describe t [] → is_Some (Rv.fieldType t e.1.2).
Proof.
  intros (q & f & name & -> & Hr & _)%describe_reaches. simpl.
  rewrite (reaches_fieldType _ _ _ Hr). by eexists.
Qed.

Lemma NamedFields_Append_zero n : NamedFields.Append NamedFields.zero n = n.
Proof. by destruct n. Qed.

Lemma render_entries t p (es : list Entry) k :
  Forall (λ e : Entry, is_Some (Rv.fieldType t e.1.2)) es →
  (k ≤ length es)%nat →
  foldl (λ n i, n ← n; renderField (ofEntries es) (mkValue (StructVal t p) true) i n)
        (Some NamedFields.zero) (seq 0 k)
  = Some (NamedFields.mk (take k es).*1.*1 (receiverOf p <$> take k es)).
Proof.
  intros Hall. induction k as [|k IH]; intros Hk; [done|].
  rewrite seq_S, foldl_app, IH by lia. simpl.
  destruct (lookup_lt_is_Some_2 es k ltac:(lia)) as [[[name path] scanner] He].
  unfold renderField, ofEntries. simpl.
  rewrite !list_lookup_fmap, He. simpl.
  destruct (proj1 (Forall_lookup _ _) Hall _ _ He) as [ft Hft]. simpl in Hft. rewrite Hft. simpl.
  rewrite (take_S_r _ _ _ He), !fmap_app. unfold NamedFields.Push, receiverOf. simpl.
  by destruct scanner.
Qed.

Lemma fieldCacheEntry_NamedFields_describe t p :
  fieldCacheEntry_NamedFields (ofEntries (describe t [])) (mkValue (StructVal t p) true)
  = Some (fieldsOf t p, None).
Proof.
  unfold fieldCacheEntry_NamedFields.
  replace (length (fieldCacheEntry.Names (ofEntries (describe t []))))
    with (length (describe t [])) by (by simpl; rewrite !length_fmap).
  rewrite (render_entries t p); [|by apply Forall_forall, describe_fieldType|done].
  by rewrite firstn_all.
Qed.

(** X9.  The descriptor that the builder returns for a struct type renders
    on every settable instance of that type without panic or error (no index
    of a field path is out of range): the names are the names of the
    descriptor, in order, and the receiver of an entry is the field at its
    path, passed by address unless the field is itself a scanner. *)
Theorem descriptor_renders_on_instance (t : Reflect.rtype) (p : Place) :
  Reflect.kind t = Reflect.Struct →
  fieldCacheEntry_NamedFields (buildFieldCacheEntryForType t []).1 (mkValue (StructVal t p) true)
  = Some (fieldsOf t p, None)
  ∧ NamedFields.Names (fieldsOf t p)
    = fieldCacheEntry.Names (buildFieldCacheEntryForType t []).1
  ∧ NamedFields.Fields (fieldsOf t p)
    = zip_with (λ path (scanner : bool), if scanner then FieldValue p path else FieldAddr p path)
        (fieldCacheEntry.Fields (buildFieldCacheEntryForType t []).1)
        (fieldCacheEntry.IsScanner (buildFieldCacheEntryForType t []).1)
  ∧ Forall (λ path, is_Some (Rv.fieldType t path))
      (fieldCacheEntry.Fields (buildFieldCacheEntryForType t []).1).
Proof.
  intros Hk. rewrite (build_describe t [] Hk). simpl. split_and!.
  - apply fieldCacheEntry_NamedFields_describe.
  - done.
  - unfold receiverOf. generalize (describe t []). intros es.
    induction es as [|[[name path] scanner] es IH]; [done|]. cbn. f_equal. exact IH.
  - apply Forall_fmap, Forall_fmap, Forall_forall. intros e. apply describe_fieldType.
Qed.

Lemma descriptor_renders_on_instance_witness :
  Reflect.kind X2 = Reflect.Struct
  ∧ fieldCacheEntry_NamedFields (buildFieldCacheEntryForType X2 []).1
      (mkValue (StructVal X2 (PVar 0)) true)
    = Some (fieldsOf X2 (PVar 0), None)
  ∧ NamedFields.Names (fieldsOf X2 (PVar 0))
    = fieldCacheEntry.Names (buildFieldCacheEntryForType X2 []).1
  ∧ NamedFields.Fields (fieldsOf X2 (PVar 0))
    = zip_with (λ path (scanner : bool),
                  if scanner then FieldValue (PVar 0) path else FieldAddr (PVar 0) path)
        (fieldCacheEntry.Fields (buildFieldCacheEntryForType X2 []).1)
        (fieldCacheEntry.IsScanner (buildFieldCacheEntryForType X2 []).1)
  ∧ Forall (λ path, is_Some (Rv.fieldType X2 path))
      (fieldCacheEntry.Fields (buildFieldCacheEntryForType X2 []).1).
Proof.
  split; [reflexivity|]. exact (descriptor_renders_on_instance X2 (PVar 0) eq_refl).
Defined.

(** ** Field lists of pointers to tagged structs *)

Lemma concatFields_app fs1 fs2 :
  NamedFields.Append (concatFields fs1) (concatFields fs2) = concatFields (fs1 ++ fs2).
Proof. unfold concatFields, NamedFields.Append. simpl. by rewrite !fmap_app, !join_app. Qed.

Lemma concatFields_singleton n : concatFields [n] = n.
Proof. unfold concatFields. simpl. rewrite !app_nil_r. by destruct n. Qed.

Lemma fieldsOfAll_app tps1 tps2 :
  NamedFields.Append (fieldsOfAll tps1) (fieldsOfAll tps2) = fieldsOfAll (tps1 ++ tps2).
Proof. unfold fieldsOfAll. by rewrite concatFields_app, fmap_app. Qed.

Lemma fieldsOfAll_lengths tps :
  length (NamedFields.Names (fieldsOfAll tps)) = length (NamedFields.Fields (fieldsOfAll tps)).
Proof.
  unfold fieldsOfAll, concatFields. simpl.
  rewrite !length_join, <-!list_fmap_compose. f_equal.
  apply list_fmap_ext. intros i tp _. simpl. by rewrite !length_fmap.
Qed.

Lemma makerFor_tagged t : tagged t → makerFor t = cachedFields (ofEntries (describe t [])).
Proof. intros (_ & Hg & _). unfold makerFor. by rewrite Hg. Qed.

Lemma normalize_addresses tps b out_vals out_types :
  Forall tagged tps.*1 →
  internalNormalizeObjects (addressesOf tps) b out_vals out_types
  = Some (out_vals ++ ((λ tp, mkValue (StructVal tp.1 tp.2) true) <$> tps),
          out_types ++ tps.*1, None).
Proof.
  revert out_vals out_types. induction tps as [|[t p] tps IH]; intros out_vals out_types Hall.
  { simpl. by rewrite !app_nil_r. }
  apply Forall_cons in Hall as [(Hk & Hg & Hpg) Hall]. simpl in *.
  rewrite Hpg, Hg. simpl. rewrite orb_true_r. simpl.
  rewrite IH by done. by rewrite <-!app_assoc.
Qed.

Lemma render_addresses {Src} `{!UserMethods} tps pre output (w : World Src) :
  Forall tagged tps.*1 →
  RenderNamedFields_from (length pre) (makerFor <$> tps.*1)
    (pre ++ ((λ tp, mkValue (StructVal tp.1 tp.2) true) <$> tps)) output w
  = Some (NamedFields.Append output (fieldsOfAll tps), None, w).
Proof.
  revert pre output. induction tps as [|[t p] tps IH]; intros pre output Hall.
  { simpl. unfold fieldsOfAll, concatFields, NamedFields.Append. simpl.
    rewrite !app_nil_r. by destruct output. }
  apply Forall_cons in Hall as [Ht Hall]. simpl in *.
  unfold mbind, M_bind, orPanic.
  rewrite lookup_app_r, Nat.sub_diag by done. simpl.
  rewrite (makerFor_tagged _ Ht). simpl. unfold orPanic.
  rewrite fieldCacheEntry_NamedFields_describe.
  specialize (IH (pre ++ [mkValue (StructVal t p) true])
                (NamedFields.Append output (fieldsOf t p)) Hall).
  rewrite length_app, Nat.add_1_r, <-app_assoc in IH. simpl in IH. etrans; [exact IH|].
  do 3 f_equal. change ((t, p) :: tps) with ([(t, p)] ++ tps).
  rewrite <-fieldsOfAll_app. unfold fieldsOfAll at 2. simpl. rewrite concatFields_singleton.
  unfold NamedFields.Append. simpl. by rewrite !app_assoc.
Qed.

Lemma tagged_resolvable ts :
  Forall tagged ts →
  Forall (λ t, Reflect.GetFields (Reflect.methods t) = true ∨ Reflect.kind t = Reflect.Struct) ts.
Proof. intros H. eapply Forall_impl; [exact H|]. intros t (? & _). by right. Qed.

Lemma GetFieldsFrom_addresses {Src} `{!UserMethods} tps (w : World Src) :
  Forall tagged tps.*1 → cacheSound (fieldsCache w) →
  ∃ c', GetFieldsFrom (addressesOf tps) w = Some (fieldsOfAll tps, None, withCache w c')
        ∧ cacheSound c' ∧ cacheExtends (fieldsCache w) c'
        ∧ Forall (λ t, cacheLookup c' t = Some (ofEntries (describe t []))) tps.*1.
Proof.
  intros Hall Hs. unfold GetFieldsFrom, NormalizeObjects.
  rewrite normalize_addresses by done. unfold mbind at 1, M_bind at 1, orPanic. simpl.
  destruct (GetNamedFieldsMakers_from_makerFor tps.*1 [] w (tagged_resolvable _ Hall) Hs)
    as (c' & Hm & Hs' & He & Hl).
  unfold GetNamedFieldsMakers, mbind, M_bind. rewrite Hm. simpl.
  exists c'. split_and!; [|done|done|].
  - unfold RenderNamedFields. rewrite decide_False
      by (intros Hx; apply Hx; unfold len; by rewrite !length_fmap).
    rewrite (render_addresses tps [] NamedFields.zero) by done.
    by rewrite NamedFields_Append_zero.
  - rewrite Forall_forall in Hl, Hall. apply Forall_forall. intros t Ht.
    apply Hl; [done|]. by destruct (Hall t Ht) as (_ & ? & _).
Qed.

Lemma BuildNamedFields_rest_addresses {Src} `{!UserMethods} tps fields (w : World Src) :
  Forall tagged tps.*1 → cacheSound (fieldsCache w) →
  ∃ c', BuildNamedFields_rest (addressesOf tps) fields w
        = Some (NamedFields.Append fields (fieldsOfAll tps), None, withCache w c')
        ∧ cacheSound c' ∧ cacheExtends (fieldsCache w) c'.
Proof.
  revert fields w. induction tps as [|tp tps IH]; intros fields w Hall Hs.
  { exists (fieldsCache w). simpl. split_and!; [|done..].
    unfold fieldsOfAll, concatFields, NamedFields.Append. simpl. rewrite !app_nil_r.
    by destruct fields, w. }
  apply Forall_cons in Hall as [Ht Hall]. simpl.
  destruct (GetFieldsFrom_addresses [tp] w) as (c1 & Hg & Hs1 & He1 & _);
    [by apply Forall_singleton|done|].
  unfold mbind, M_bind. change [Plain (addressOf tp)] with (addressesOf [tp]).
  rewrite Hg. simpl.
  destruct (IH (NamedFields.Append fields (fieldsOfAll [tp])) (withCache w c1) Hall Hs1)
    as (c' & -> & Hs' & He').
  exists c'. split_and!; [|done|by etrans].
  do 3 f_equal. change (tp :: tps) with ([tp] ++ tps). rewrite <-fieldsOfAll_app.
  unfold NamedFields.Append. simpl. by rewrite !app_assoc.
Qed.

Lemma BuildNamedFields_addresses {Src} `{!UserMethods} tps (w : World Src) :
  tps ≠ [] → Forall tagged tps.*1 → cacheSound (fieldsCache w) →
  ∃ c', BuildNamedFields (addressesOf tps) w = Some (fieldsOfAll tps, None, withCache w c')
        ∧ cacheSound c' ∧ cacheExtends (fieldsCache w) c'.
Proof.
  intros Hne Hall Hs. destruct tps as [|tp tps]; [done|].
  apply Forall_cons in Hall as [Ht Hall]. simpl.
  destruct (GetFieldsFrom_addresses [tp] w) as (c1 & Hg & Hs1 & He1 & _);
    [by apply Forall_singleton|done|].
  unfold mbind, M_bind. change [Plain (addressOf tp)] with (addressesOf [tp]).
  rewrite Hg. simpl.
  destruct (BuildNamedFields_rest_addresses tps (fieldsOfAll [tp]) (withCache w c1) Hall Hs1)
    as (c' & -> & Hs' & He').
  exists c'. split_and!; [|done|by etrans].
  do 3 f_equal. change (tp :: tps) with ([tp] ++ tps). by rewrite <-fieldsOfAll_app.
Qed.

(** X10.  For targets that are pointers to structs of tagged types (no
    GetFields method), BuildNamedFields and the variadic GetFieldsFrom return
    the same field list without error or panic, from any sound cache: the
    concatenation, in target order, of the tagged fields of each struct in
    declaration order, with as many names as receivers.  They call no user
    code and no method of the row source, and change nothing but the cache,
    which stays sound, keeps its entries and then holds the descriptor of
    every target type. *)
Theorem BuildNamedFields_of_tagged_structs {Src} `{!UserMethods}
    (tps : list (Reflect.rtype * Place)) (w : World Src) :
  tps ≠ [] → Forall tagged tps.*1 → cacheSound (fieldsCache w) →
  ∃ c1 c2,
    BuildNamedFields (addressesOf tps) w = Some (fieldsOfAll tps, None, withCache w c1)
    ∧ GetFieldsFrom (addressesOf tps) w = Some (fieldsOfAll tps, None, withCache w c2)
    ∧ length (NamedFields.Names (fieldsOfAll tps)) = length (NamedFields.Fields (fieldsOfAll tps))
    ∧ cacheSound c1 ∧ cacheExtends (fieldsCache w) c1
    ∧ cacheSound c2 ∧ cacheExtends (fieldsCache w) c2
    ∧ Forall (λ t, cacheLookup c2 t = Some (ofEntries (describe t []))) tps.*1.
Proof.
  intros Hne Hall Hs.
  destruct (BuildNamedFields_addresses tps w Hne Hall Hs) as (c1 & Hb & ? & ?).
  destruct (GetFieldsFrom_addresses tps w Hall Hs) as (c2 & Hg & ? & ? & ?).
  exists c1, c2. split_and!; try done. apply fieldsOfAll_lengths.
Qed.

Lemma BuildNamedFields_of_tagged_structs_witness :
  let tps := [(X2, PVar 0); (X2, PVar 1)] in
  let w := mkWorld twoRows (mkMemory {[ 0%nat := ∅; 1%nat := ∅ ]} ∅) [] [] in
  tps ≠ [] ∧ Forall tagged tps.*1 ∧ cacheSound (fieldsCache w)
  ∧ ∃ c1 c2,
      @BuildNamedFields Rows noUserMethods (addressesOf tps) w
      = Some (fieldsOfAll tps, None, withCache w c1)
      ∧ @GetFieldsFrom Rows noUserMethods (addressesOf tps) w
        = Some (fieldsOfAll tps, None, withCache w c2)
      ∧ length (NamedFields.Names (fieldsOfAll tps))
        = length (NamedFields.Fields (fieldsOfAll tps))
      ∧ cacheSound c1 ∧ cacheExtends (fieldsCache w) c1
      ∧ cacheSound c2 ∧ cacheExtends (fieldsCache w) c2
      ∧ Forall (λ t, cacheLookup c2 t = Some (ofEntries (describe t []))) tps.*1.
Proof.
  intros tps w.
  assert (tps ≠ []) as Hne by done.
  assert (Forall tagged tps.*1) as Hall by (repeat constructor).
  split; [exact Hne|]. split; [exact Hall|]. split; [exact cacheSound_nil|].
  exact (@BuildNamedFields_of_tagged_structs Rows noUserMethods tps w Hne Hall cacheSound_nil).
Defined.

(** ** What every function keeps *)

Lemma callsOf_app P tr1 tr2 : callsOf P (tr1 ++ tr2) = callsOf P tr1 ++ callsOf P tr2.
Proof. apply filter_app. Qed.

Section Frame.
Context {Src : Type} `{!UserMethods} (R : relation (World Src)) `{!PreOrder R}.
Hypothesis FGetFields : ∀ g, keeps R (callGetFields g).
Hypothesis FPostScan : ∀ pp, keeps R (callPostScan pp).
Hypothesis Fresolve : ∀ t, keeps R (onCache (getFieldCachesFor t)).
Hypothesis FonMemory : ∀ A (f : Memory → option (A * Memory)), keeps R (onMemory f).

Lemma frame_GetNamedFieldsMakers_from types output :
  keeps R (GetNamedFieldsMakers_from (Src:=Src) types output).
Proof.
  revert output. induction types as [|t types IH]; intros output; simpl.
  - apply keeps_ret, _.
  - apply keeps_bind; [done|apply Fresolve|]. intros [cached [err|]]; [apply keeps_ret, _|apply IH].
Qed.

Lemma frame_RenderNamedFields nfm values : keeps R (RenderNamedFields (Src:=Src) nfm values).
Proof. by apply keeps_RenderNamedFields. Qed.

Lemma frame_GetFieldsFrom into : keeps R (GetFieldsFrom (Src:=Src) into).
Proof.
  unfold GetFieldsFrom. apply keeps_bind; [done|apply keeps_orPanic, _|].
  intros [[values types] [err|]]; [apply keeps_ret, _|].
  apply keeps_bind; [done|apply frame_GetNamedFieldsMakers_from|].
  intros [nfm [err|]]; [apply keeps_ret, _|apply frame_RenderNamedFields].
Qed.

Lemma frame_BuildNamedFields_rest rest fields :
  keeps R (BuildNamedFields_rest (Src:=Src) rest fields).
Proof.
  revert fields. induction rest as [|x rest IH]; intros fields; simpl.
  - apply keeps_ret, _.
  - apply keeps_bind; [done|apply frame_GetFieldsFrom|].
    intros [new_fields [err|]]; [apply keeps_ret, _|apply IH].
Qed.

Lemma frame_BuildNamedFields into : keeps R (BuildNamedFields (Src:=Src) into).
Proof.
  destruct into as [|into0 rest]; simpl; [apply keeps_ret, _|].
  apply keeps_bind; [done|apply frame_GetFieldsFrom|].
  intros [fields [err|]]; [apply keeps_ret, _|apply frame_BuildNamedFields_rest].
Qed.

Lemma frame_postScan into : keeps R (postScan (Src:=Src) into).
Proof.
  induction into as [|i into IH]; simpl; [apply keeps_ret, _|].
  destruct (asPostProcessable i); [|done].
  apply keeps_bind; [done|apply FPostScan|]. intros [err|]; [apply keeps_ret, _|done].
Qed.

Section FrameScan.
Context `{!Scannable Src}.
Hypothesis FScan : ∀ receivers, keeps R (callScan receivers).

Lemma frame_ScanWithMappedFields m fields : keeps R (ScanWithMappedFields m fields).
Proof.
  unfold ScanWithMappedFields. apply keeps_bind; [done| |].
  - destruct m; [apply keeps_orPanic, _|apply keeps_ret, _].
  - intros field_list. case_decide; [apply keeps_ret, _|apply FScan].
Qed.

Lemma frame_QuickScan into : keeps R (QuickScan into).
Proof.
  unfold QuickScan. apply keeps_bind; [done|apply frame_BuildNamedFields|].
  intros [fields [err|]]; [apply keeps_ret, _|].
  apply keeps_bind; [done|apply frame_ScanWithMappedFields|].
  intros [err|]; [apply keeps_ret, _|apply frame_postScan].
Qed.

Lemma frame_ScanWithMap m into : keeps R (ScanWithMap m into).
Proof.
  unfold ScanWithMap. apply keeps_bind; [done|apply frame_BuildNamedFields|].
  intros [fields [err|]]; [apply keeps_ret, _|].
  apply keeps_bind; [done|apply frame_ScanWithMappedFields|].
  intros [err|]; [apply keeps_ret, _|apply frame_postScan].
Qed.
End FrameScan.

Section FrameAdvanced.
Context `{!AdvancedScannable Src}.
Hypothesis FScan : ∀ receivers, keeps R (callScan receivers).
Hypothesis FColumnTypes : keeps R callColumnTypes.

Lemma frame_BuildMap fields : keeps R (BuildMap fields).
Proof.
  unfold BuildMap. apply keeps_bind; [done|apply FColumnTypes|].
  intros [[columns|] [err|]]; try apply keeps_ret, _.
  apply keeps_bind; [done|apply keeps_orPanic, _|]. intros ?. apply keeps_ret, _.
Qed.

Lemma frame_ScanWithFields fields : keeps R (ScanWithFields fields).
Proof.
  unfold ScanWithFields. apply keeps_bind; [done|apply frame_BuildMap|].
  intros [m [err|]]; [apply keeps_ret, _|by apply frame_ScanWithMappedFields].
Qed.

Lemma frame_Scan into : keeps R (Scan_ into).
Proof.
  unfold Scan_. apply keeps_bind; [done|apply frame_BuildNamedFields|].
  intros [fields [err|]]; [apply keeps_ret, _|].
  apply keeps_bind; [done|apply frame_ScanWithFields|].
  intros [err|]; [apply keeps_ret, _|apply frame_postScan].
Qed.
End FrameAdvanced.

Section FrameIterable.
Context `{!IterableScannable Src}.
Hypothesis FColumnTypes : keeps R callColumnTypes.

Lemma frame_prepare into : keeps R (prepare into).
Proof.
  unfold prepare. apply keeps_bind; [done|apply keeps_orPanic, _|].
  intros [slices [err|]]; [apply keeps_ret, _|].
  apply keeps_bind; [done|apply keeps_orPanic, _|]. intros zeros.
  apply keeps_bind; [done|apply keeps_orPanic, _|].
  intros [[values types] [err|]]; [apply keeps_ret, _|].
  apply keeps_bind; [done|apply frame_GetNamedFieldsMakers_from|].
  intros [nfm [err|]]; [apply keeps_ret, _|].
  apply keeps_bind; [done|apply frame_RenderNamedFields|].
  intros [named_fields [err|]]; [apply keeps_ret, _|].
  apply keeps_bind; [done|by apply frame_BuildMap|].
  intros [smap [err|]]; apply keeps_ret, _.
Qed.

Hypothesis FScan : ∀ receivers, keeps R (callScan receivers).
Hypothesis FNext : keeps R callNext.
Hypothesis FErr : keeps R callErr.

Lemma frame_row p : keeps R (row p).
Proof.
  unfold row. apply keeps_bind; [done|apply FonMemory|]. intros _.
  apply keeps_bind; [done|apply FErr|]. intros [err|]; [apply keeps_ret, _|].
  apply keeps_bind; [done|apply FonMemory|]. intros elements.
  apply keeps_bind; [done|apply frame_RenderNamedFields|].
  intros [named_fields [err|]]; [apply keeps_ret, _|by apply frame_ScanWithMappedFields].
Qed.

Lemma frame_rows fuel p : keeps R (rows fuel p).
Proof.
  induction fuel as [|fuel IH]; simpl; [apply keeps_ret, _|].
  apply keeps_bind; [done|apply FNext|]. intros [|]; [|apply keeps_ret, _].
  apply keeps_bind; [done|apply frame_row|]. intros [err|]; [apply keeps_ret, _|apply IH].
Qed.

Lemma frame_ScanArray fuel into : keeps R (ScanArray fuel into).
Proof.
  unfold ScanArray. apply keeps_bind; [done|apply frame_prepare|].
  intros [err|p]; [apply keeps_ret, _|].
  apply keeps_bind; [done|apply frame_rows|]. intros [err| |]; try apply keeps_ret, _.
  apply keeps_bind; [done|apply FonMemory|]. intros _. apply keeps_ret, _.
Qed.
End FrameIterable.
End Frame.

(** ** The field cache only grows *)

Section CacheKept.
Context {Src : Type} `{!UserMethods}.

Lemma cacheKept_same (w w' : World Src) : fieldsCache w' = fieldsCache w → cacheKept w w'.
Proof. intros Hc. unfold cacheKept. rewrite Hc. done. Qed.

Lemma cacheKept_callGetFields g : keeps (@cacheKept Src) (callGetFields g).
Proof. intros w a w' [= _ <-]. by apply cacheKept_same. Qed.
Lemma cacheKept_callPostScan pp : keeps (@cacheKept Src) (callPostScan pp).
Proof. intros w a w' [= _ <-]. by apply cacheKept_same. Qed.
Lemma cacheKept_onMemory A (f : Memory → option (A * Memory)) :
  keeps (@cacheKept Src) (onMemory f).
Proof.
  intros w a w'. unfold onMemory. destruct (f _) as [[??]|]; [|done].
  intros [= _ <-]. by apply cacheKept_same.
Qed.
Lemma cacheKept_resolve t : keeps (@cacheKept Src) (onCache (getFieldCachesFor t)).
Proof.
  intros w a w'. unfold onCache. destruct (getFieldCachesFor _ _) as [[r c]|] eqn:Hr; [|done].
  intros [= _ <-]. split; simpl.
  - by eapply getFieldCachesFor_extends.
  - intros Hs. by eapply getFieldCachesFor_keeps_sound.
Qed.
Lemma cacheKept_callScan `{!Scannable Src} receivers :
  keeps (@cacheKept Src) (callScan receivers).
Proof.
  intros w a w'. unfold callScan. destruct (Scan _ _). intros [= _ <-]. by apply cacheKept_same.
Qed.
Lemma cacheKept_callColumnTypes `{!AdvancedScannable Src} :
  keeps (@cacheKept Src) callColumnTypes.
Proof.
  intros w a w'. unfold callColumnTypes. destruct (ColumnTypes _). intros [= _ <-].
  by apply cacheKept_same.
Qed.
Lemma cacheKept_callNext `{!IterableScannable Src} : keeps (@cacheKept Src) callNext.
Proof.
  intros w a w'. unfold callNext. destruct (Next _). intros [= _ <-]. by apply cacheKept_same.
Qed.
Lemma cacheKept_callErr `{!IterableScannable Src} : keeps (@cacheKept Src) callErr.
Proof.
  intros w a w'. unfold callErr. destruct (Err _). intros [= _ <-]. by apply cacheKept_same.
Qed.
End CacheKept.

(** X11.  No function of the package removes or changes an entry of the
    field cache, and each keeps the cache sound (every entry is the
    descriptor that the builder returns for its type): this holds of
    GetFieldsFrom, BuildNamedFields, QuickScan, Scan, ScanWithMap and
    ScanArray, whatever they return. *)
Theorem field_cache_only_grows {Src} `{!IterableScannable Src} `{!UserMethods}
    (into : list ScanInto) (m : option ScanMap) (fuel : nat) (arrays : list ScanIntoArray) :
  keeps cacheKept (GetFieldsFrom (Src:=Src) into)
  ∧ keeps cacheKept (BuildNamedFields (Src:=Src) into)
  ∧ keeps cacheKept (QuickScan (Src:=Src) into)
  ∧ keeps cacheKept (Scan_ (Src:=Src) into)
  ∧ keeps cacheKept (ScanWithMap (Src:=Src) m into)
  ∧ keeps cacheKept (ScanArray (Src:=Src) fuel arrays).
Proof.
  split_and!.
  - apply frame_GetFieldsFrom; auto using cacheKept_callGetFields, cacheKept_resolve with typeclass_instances.
  - apply frame_BuildNamedFields; auto using cacheKept_callGetFields, cacheKept_resolve with typeclass_instances.
  - apply frame_QuickScan;
      auto using cacheKept_callGetFields, cacheKept_resolve, cacheKept_callPostScan,
        cacheKept_callScan with typeclass_instances.
  - apply frame_Scan;
      auto using cacheKept_callGetFields, cacheKept_resolve, cacheKept_callPostScan,
        cacheKept_callScan, cacheKept_callColumnTypes with typeclass_instances.
  - apply frame_ScanWithMap;
      auto using cacheKept_callGetFields, cacheKept_resolve, cacheKept_callPostScan,
        cacheKept_callScan with typeclass_instances.
  - apply frame_ScanArray;
      auto using cacheKept_callGetFields, cacheKept_resolve, cacheKept_onMemory,
        cacheKept_callScan, cacheKept_callColumnTypes, cacheKept_callNext, cacheKept_callErr
        with typeclass_instances.
Qed.

(** ** Building a field list touches nothing *)

Section OnlyGetFields.
Context {Src : Type} `{!UserMethods}.

Lemma onlyGetFields_callGetFields g : keeps (@onlyGetFields Src) (callGetFields g).
Proof.
  intros w a w' [= _ <-]. split_and!; [done..|]. exists [CallGetFields g].
  split; [done|]. by repeat constructor.
Qed.
Lemma onlyGetFields_resolve t : keeps (@onlyGetFields Src) (onCache (getFieldCachesFor t)).
Proof.
  intros w a w'. unfold onCache. destruct (getFieldCachesFor _ _) as [[r c]|]; [|done].
  intros [= _ <-]. split_and!; [done..|]. exists []. by rewrite app_nil_r.
Qed.
End OnlyGetFields.

(** X12.  GetFieldsFrom and BuildNamedFields, whatever their targets and
    whatever they return, change neither the memory nor the row source and
    call nothing outside the package but GetFields methods. *)
Theorem building_fields_touches_nothing {Src} `{!UserMethods} (into : list ScanInto) :
  keeps onlyGetFields (GetFieldsFrom (Src:=Src) into)
  ∧ keeps onlyGetFields (BuildNamedFields (Src:=Src) into).
Proof.
  split.
  - apply frame_GetFieldsFrom;
      auto using onlyGetFields_callGetFields, onlyGetFields_resolve with typeclass_instances.
  - apply frame_BuildNamedFields;
      auto using onlyGetFields_callGetFields, onlyGetFields_resolve with typeclass_instances.
Qed.

(** ** The targets of ScanArray *)

Lemma getSlices_from_pointed into out :
  Forall wellFormed into →
  getSlices_from into out
  = Some (match mapM pointedSlice into with
          | Some slices => (out ++ slices, None)
          | None => ([], Some "elements must be pointers to slice")
          end).
Proof.
  revert out. induction into as [|x into IH]; intros out Hwf.
  { simpl. by rewrite app_nil_r. }
  apply Forall_cons in Hwf as [Hx Hwf]. cbn [getSlices_from mapM].
  destruct x as [|t|t y|t y|t p|t l|t]; simpl; try done.
  - destruct (decide (Rv.Kind _ = _)) as [Hk|Hk]; simpl.
    + rewrite decide_False by (by intros ?). rewrite IH by done.
      destruct (mapM pointedSlice into); simpl; [|done]. by rewrite <-app_assoc.
    + by rewrite decide_True.
  - destruct Hx as [Hp _]. rewrite decide_True; [done|]. unfold Rv.Kind. simpl. congruence.
Qed.

(** X13.  getSlices does not panic on well-formed targets: when every target
    is a non-nil pointer to a slice it returns those slices, one per target
    and in order, with a nil error; otherwise (a target that is not a
    pointer, a nil pointer, a pointer to something else than a slice) it
    returns a nil list and the error "elements must be pointers to slice". *)
Theorem getSlices_result (into : list ScanIntoArray) :
  Forall wellFormed into →
  getSlices into
  = Some (match mapM pointedSlice into with
          | Some slices => (slices, None)
          | None => ([], Some "elements must be pointers to slice")
          end)
  ∧ (∀ slices, mapM pointedSlice into = Some slices →
       length slices = length into
       ∧ Forall (λ s, Rv.Kind s = Reflect.Slice ∧ canSet s = true) slices).
Proof.
  intros Hwf. split.
  - unfold getSlices. by rewrite getSlices_from_pointed.
  - intros slices Hm. apply mapM_Some in Hm. split; [by rewrite (Forall2_length _ _ _ Hm)|].
    clear Hwf. induction Hm as [|x s into slices Hx _ IH]; constructor; [|done].
    destruct x; simpl in Hx; try done. case_decide; [|done]. by injection Hx as <-.
Qed.

Lemma getSlices_result_witness :
  let into := [sliceTarget 1; StructVal X2 (PVar 0)] in
  Forall wellFormed into
  ∧ getSlices into
    = Some (match mapM pointedSlice into with
            | Some slices => (slices, None)
            | None => ([], Some "elements must be pointers to slice")
            end)
  ∧ (∀ slices, mapM pointedSlice into = Some slices →
       length slices = length into
       ∧ Forall (λ s, Rv.Kind s = Reflect.Slice ∧ canSet s = true) slices).
Proof.
  intros into.
  assert (Forall wellFormed into) as Hwf by (repeat constructor).
  split; [exact Hwf|]. exact (getSlices_result into Hwf).
Defined.

(** ** Failures before the loop of ScanArray *)

Section NoRowTouched.
Context {Src : Type} `{!UserMethods}.

Lemma noRowTouched_callGetFields g : keeps (@noRowTouched Src) (callGetFields g).
Proof.
  intros w a w' [= _ <-]. split; [done|]. simpl. by rewrite callsOf_app, app_nil_r.
Qed.
Lemma noRowTouched_resolve t : keeps (@noRowTouched Src) (onCache (getFieldCachesFor t)).
Proof.
  intros w a w'. unfold onCache. destruct (getFieldCachesFor _ _) as [[r c]|]; [|done].
  by intros [= _ <-].
Qed.
Lemma noRowTouched_callColumnTypes `{!AdvancedScannable Src} :
  keeps (@noRowTouched Src) callColumnTypes.
Proof.
  intros w a w'. unfold callColumnTypes. destruct (ColumnTypes _). intros [= _ <-].
  split; [done|]. simpl. by rewrite callsOf_app, app_nil_r.
Qed.
End NoRowTouched.

Lemma noRowTouched_prepare {Src} `{!IterableScannable Src} `{!UserMethods}
    (into : list ScanIntoArray) :
  keeps noRowTouched (prepare (Src:=Src) into).
Proof.
  apply frame_prepare;
    auto using noRowTouched_callGetFields, noRowTouched_resolve, noRowTouched_callColumnTypes
      with typeclass_instances.
Qed.

(** X14.  When ScanArray fails before its loop (a target that is not a
    pointer to a slice, an element type that cannot be scanned into, a
    failing GetFields or column enumeration), it returns that error without
    having asked the row source for a row or transferred one, and with the
    memory, in particular every target slice, unchanged; the deferred
    truncation is not yet armed. *)
Theorem ScanArray_fails_before_loop {Src} `{!IterableScannable Src} `{!UserMethods}
    (fuel : nat) (into : list ScanIntoArray) (w w' : World Src) (err : error) :
  prepare into w = Some (inl err, w') →
  ScanArray fuel into w = Some (Returned (Some err), w')
  ∧ memory w' = memory w
  ∧ callsOf isRowCall (trace w') = callsOf isRowCall (trace w).
Proof.
  intros Hp. split.
  - unfold ScanArray, mbind, M_bind. by rewrite Hp.
  - by apply (noRowTouched_prepare into _ _ _ Hp).
Qed.

Lemma ScanArray_fails_before_loop_witness :
  let into := [sliceTarget 1; StructVal X2 (PVar 0)] in
  @prepare Rows _ noUserMethods into twoRowsWorld
  = Some (inl "elements must be pointers to slice", twoRowsWorld)
  ∧ @ScanArray Rows _ noUserMethods 3 into twoRowsWorld
    = Some (Returned (Some "elements must be pointers to slice"), twoRowsWorld)
  ∧ memory twoRowsWorld = memory twoRowsWorld
  ∧ callsOf isRowCall (trace twoRowsWorld) = callsOf isRowCall (trace twoRowsWorld).
Proof.
  intros into.
  assert (@prepare Rows _ noUserMethods into twoRowsWorld
          = Some (inl "elements must be pointers to slice", twoRowsWorld)) as Hp
    by reflexivity.
  split; [exact Hp|].
  exact (@ScanArray_fails_before_loop Rows _ noUserMethods 3 into twoRowsWorld twoRowsWorld
           "elements must be pointers to slice" Hp).
Defined.

(** ** The calls that the entry points make on the row source *)

Lemma callsOf_GetFields tr :
  Forall (λ e, isGetFieldsCall e = true) tr → callsOf isSourceCall tr = [].
Proof.
  induction 1 as [|e tr He _ IH]; [done|].
  unfold callsOf. rewrite filter_cons_False; [exact IH|]. by destruct e.
Qed.

Lemma callsOf_hooks pps : callsOf isSourceCall (CallPostScan <$> pps) = [].
Proof.
  induction pps as [|pp pps IH]; [done|]. simpl.
  unfold callsOf. rewrite filter_cons_False; [exact IH|done].
Qed.

Section SourceCalls.
Context {Src : Type} `{!UserMethods}.

Lemma onlyGetFields_sourceCalls (w w' : World Src) :
  onlyGetFields w w' → sameCalls isSourceCall w w'.
Proof.
  intros (_ & _ & tr & Ht & Hall). unfold sameCalls. rewrite Ht, callsOf_app.
  by rewrite (callsOf_GetFields _ Hall), app_nil_r.
Qed.

Lemma sourceCalls_BuildNamedFields into (w w' : World Src) r :
  BuildNamedFields into w = Some (r, w') → sameCalls isSourceCall w w'.
Proof.
  intros Hb. apply onlyGetFields_sourceCalls.
  eapply (frame_BuildNamedFields onlyGetFields); [..|exact Hb];
    auto using onlyGetFields_callGetFields, onlyGetFields_resolve with typeclass_instances.
Qed.

Lemma sourceCalls_postScan into (w w' : World Src) r :
  postScan into w = Some (r, w') → sameCalls isSourceCall w w'.
Proof.
  rewrite postScan_spec. intros [= _ <-]. unfold sameCalls. simpl. rewrite callsOf_app.
  by rewrite callsOf_hooks, app_nil_r.
Qed.

Lemma sourceCalls_ScanWithMappedFields `{!Scannable Src} m fields (w w' : World Src) r :
  ScanWithMappedFields m fields w = Some (r, w') →
  sourceCallsBetween w w' [] ∨ ∃ rs, sourceCallsBetween w w' [CallScan rs].
Proof.
  assert (∀ field_list,
    (if decide (len field_list = 0)
     then mret (Some "cannot scan into empty list of fields")
     else callScan field_list) w = Some (r, w') →
    sourceCallsBetween w w' [] ∨ ∃ rs, sourceCallsBetween w w' [CallScan rs]) as Hlist.
  { intros field_list. case_decide.
    - intros [= _ <-]. left. unfold sourceCallsBetween. by rewrite app_nil_r.
    - unfold callScan. destruct (Scan _ _). intros [= _ <-]. right. exists field_list.
      unfold sourceCallsBetween. simpl. by rewrite callsOf_app. }
  unfold ScanWithMappedFields, mbind, M_bind. destruct m as [m|].
  - unfold orPanic. destruct (mapM _ m) as [field_list|]; [apply Hlist|done].
  - apply Hlist.
Qed.

Lemma sourceCalls_BuildMap `{!AdvancedScannable Src} fields (w w' : World Src) r :
  BuildMap fields w = Some (r, w') → sourceCallsBetween w w' [CallColumnTypes].
Proof.
  unfold BuildMap, mbind, M_bind, callColumnTypes. destruct (ColumnTypes _) as [[columns err] s].
  assert (sourceCallsBetween w
            (mkWorld s (memory w) (fieldsCache w) (trace w ++ [CallColumnTypes]))
            [CallColumnTypes]) as Hc.
  { unfold sourceCallsBetween. simpl. by rewrite callsOf_app. }
  destruct err; [by intros [= _ <-]|]. destruct columns; [|by intros [= _ <-]].
  unfold mbind, M_bind, orPanic. destruct (matchColumns _ _); [|done]. by intros [= _ <-].
Qed.
End SourceCalls.

Lemma sourceCallsBetween_trans {Src} (w1 w2 w3 : World Src) c1 c2 :
  sourceCallsBetween w1 w2 c1 → sourceCallsBetween w2 w3 c2 →
  sourceCallsBetween w1 w3 (c1 ++ c2).
Proof. unfold sourceCallsBetween. intros H1 H2. by rewrite H2, H1, app_assoc. Qed.

Lemma sourceCallsBetween_same {Src} (w1 w2 w3 : World Src) c :
  sameCalls isSourceCall w1 w2 → sourceCallsBetween w2 w3 c → sourceCallsBetween w1 w3 c.
Proof. unfold sourceCallsBetween, sameCalls. intros H1 H2. by rewrite H2, H1. Qed.

Lemma sourceCallsBetween_same_r {Src} (w1 w2 w3 : World Src) c :
  sourceCallsBetween w1 w2 c → sameCalls isSourceCall w2 w3 → sourceCallsBetween w1 w3 c.
Proof. unfold sourceCallsBetween, sameCalls. intros H1 H2. by rewrite H2, H1. Qed.

Lemma scan_then_hooks_calls {Src} `{!UserMethods}
    (scan : NamedFields.t → M Src (option error)) (allowed : list Event → Prop)
    (into : list ScanInto) (w w' : World Src) r :
  allowed [] →
  (∀ fields w1 w2 r, scan fields w1 = Some (r, w2) →
     ∃ calls, sourceCallsBetween w1 w2 calls ∧ allowed calls) →
  ('(fields, err) ← BuildNamedFields into;
   match err with
   | Some err => mret (Some err)
   | None =>
       err ← scan fields;
       match err with
       | Some err => mret (Some err)
       | None => postScan into
       end
   end) w = Some (r, w') →
  ∃ calls, sourceCallsBetween w w' calls ∧ allowed calls.
Proof.
  intros Hnil Hscan. unfold mbind, M_bind.
  destruct (BuildNamedFields into w) as [[[fields [err|]] w1]|] eqn:Hb; [| |done].
  { intros [= _ <-]. exists []. split; [|done].
    eapply sourceCallsBetween_same; [by eapply sourceCalls_BuildNamedFields|].
    unfold sourceCallsBetween. by rewrite app_nil_r. }
  destruct (scan fields w1) as [[[err|] w2]|] eqn:Hs; [| |done].
  - intros [= _ <-]. destruct (Hscan _ _ _ _ Hs) as (calls & Hc & Ha).
    exists calls. split; [|done].
    eapply sourceCallsBetween_same; [by eapply sourceCalls_BuildNamedFields|done].
  - intros Hp. destruct (Hscan _ _ _ _ Hs) as (calls & Hc & Ha).
    exists calls. split; [|done].
    eapply sourceCallsBetween_same; [by eapply sourceCalls_BuildNamedFields|].
    eapply sourceCallsBetween_same_r; [done|by eapply sourceCalls_postScan].
Qed.

(** X15.  What the single-object entry points ask of the row source,
    whatever they return: QuickScan and ScanWithMap call Scan at most once
    and nothing else; Scan calls ColumnTypes at most once and then Scan at
    most once; none of them calls Next or Err. *)
Theorem entry_points_source_calls {Src} `{!AdvancedScannable Src} `{!UserMethods}
    (into : list ScanInto) (m : option ScanMap) (w w' : World Src) (r : option error) :
  (QuickScan into w = Some (r, w') →
   ∃ calls, sourceCallsBetween w w' calls ∧ (calls = [] ∨ ∃ rs, calls = [CallScan rs]))
  ∧ (ScanWithMap m into w = Some (r, w') →
     ∃ calls, sourceCallsBetween w w' calls ∧ (calls = [] ∨ ∃ rs, calls = [CallScan rs]))
  ∧ (Scan_ into w = Some (r, w') →
     ∃ calls, sourceCallsBetween w w' calls
       ∧ (calls = [] ∨ calls = [CallColumnTypes]
          ∨ ∃ rs, calls = [CallColumnTypes; CallScan rs])).
Proof.
  split_and!.
  - apply (scan_then_hooks_calls (ScanWithMappedFields None)
             (λ calls, calls = [] ∨ ∃ rs, calls = [CallScan rs])); [by left|].
    intros fields w1 w2 r' Hs.
    destruct (sourceCalls_ScanWithMappedFields _ _ _ _ _ Hs) as [?|[rs ?]]; eauto.
  - apply (scan_then_hooks_calls (ScanWithMappedFields m)
             (λ calls, calls = [] ∨ ∃ rs, calls = [CallScan rs])); [by left|].
    intros fields w1 w2 r' Hs.
    destruct (sourceCalls_ScanWithMappedFields _ _ _ _ _ Hs) as [?|[rs ?]]; eauto.
  - apply (scan_then_hooks_calls ScanWithFields
             (λ calls, calls = [] ∨ calls = [CallColumnTypes]
                       ∨ ∃ rs, calls = [CallColumnTypes; CallScan rs])); [by left|].
    intros fields w1 w2 r' Hs. unfold ScanWithFields, mbind, M_bind in Hs.
    destruct (BuildMap fields w1) as [[[sm [err|]] w3]|] eqn:Hb; [| |done].
    + injection Hs as _ <-. exists [CallColumnTypes]. split; [|by auto].
      by eapply sourceCalls_BuildMap.
    + pose proof (sourceCalls_BuildMap _ _ _ _ Hb) as Hc.
      destruct (sourceCalls_ScanWithMappedFields _ _ _ _ _ Hs) as [H2|[rs H2]].
      * exists [CallColumnTypes]. split; [|by auto].
        by apply (sourceCallsBetween_trans _ _ _ _ _ Hc H2).
      * exists [CallColumnTypes; CallScan rs]. split; [|by eauto].
        by apply (sourceCallsBetween_trans _ _ _ _ _ Hc H2).
Qed.

(** ** Scan on pointers to tagged structs *)

Lemma fieldsOfAll_entries tps :
  NamedFields.Names (fieldsOfAll tps) = (λ x : Place * Entry, x.2.1.1) <$> entriesOfAll tps
  ∧ NamedFields.Fields (fieldsOfAll tps)
    = (λ x : Place * Entry, receiverOf x.1 x.2) <$> entriesOfAll tps.
Proof.
  unfold fieldsOfAll, concatFields, entriesOfAll. simpl.
  induction tps as [|tp tps [IH1 IH2]]; [done|].
  rewrite !fmap_cons. cbn [mjoin list_join]. rewrite !fmap_app.
  split; (f_equal; [|done]); simpl; rewrite <-!list_fmap_compose; by apply list_fmap_ext.
Qed.

Lemma Scan_of_tagged_structs_aux {Src} `{!AdvancedScannable Src} `{!UserMethods}
    (tps : list (Reflect.rtype * Place)) (w : World Src)
    (columns : list Sql.ColumnType) (s : Src) :
  tps ≠ [] → Forall tagged tps.*1 → cacheSound (fieldsCache w) →
  ColumnTypes (source w) = (Some columns, None, s) → columns ≠ [] →
  ∃ c' receivers,
    Scan_ (addressesOf tps) w
    = (err ← callScan receivers;
       match err with
       | Some err => mret (Some err)
       | None => postScan (addressesOf tps)
       end) (afterColumnTypes (withCache w c') s)
    ∧ is_Some (Scan_ (addressesOf tps) w)
    ∧ length receivers = length columns
    ∧ (∀ j c, columns !! j = Some c →
         receivers !! j = Some noopScanner
         ∨ (∃ p e, (p, e) ∈ entriesOfAll tps ∧ e.1.1 = Sql.Name c
                   ∧ receivers !! j = Some (receiverOf p e))).
Proof.
  intros Hne Hall Hs Hcols Hcne.
  destruct (BuildNamedFields_addresses tps w Hne Hall Hs) as (c' & Hb & _ & _).
  destruct (ScanWithFields_receivers_aux (fieldsOfAll tps) (withCache w c') columns s Hcols Hcne)
    as (out & Hscan & Hlen & Hrecv & _).
  { by rewrite fieldsOfAll_lengths. }
  exists c', (receiverFor (fieldsOfAll tps) <$> out).
  assert (Scan_ (addressesOf tps) w
          = (err ← callScan (receiverFor (fieldsOfAll tps) <$> out);
             match err with
             | Some err => mret (Some err)
             | None => postScan (addressesOf tps)
             end) (afterColumnTypes (withCache w c') s)) as Heq.
  { unfold Scan_. unfold mbind at 1, M_bind at 1. rewrite Hb. simpl.
    unfold mbind, M_bind. by rewrite Hscan. }
  split_and!; [done| |done|].
  - rewrite Heq. unfold mbind, M_bind, callScan. destruct (Scan _ _) as [sr s'].
    destruct (scanError sr); [by eexists|]. rewrite postScan_spec. by eexists.
  - intros j c Hj. destruct (Hrecv j c Hj) as [[_ ?]|(i & r & _ & Hn & Hf & Hr)]; [by left|right].
    destruct (fieldsOfAll_entries tps) as [Hnames Hfields].
    rewrite Hnames, list_lookup_fmap in Hn. rewrite Hfields, list_lookup_fmap in Hf.
    destruct (entriesOfAll tps !! i) as [[p e]|] eqn:He; [|done].
    simpl in Hn, Hf. injection Hn as Hn. injection Hf as <-.
    exists p, e. split_and!; [|done..]. by eapply list_elem_of_lookup_2.
Qed.

(** X16.  Scan on pointers to structs of tagged types, against a row source
    that lists at least one column, from a sound cache: it does not panic;
    it builds the field list, asks for the columns once and calls Scan once,
    with one receiver per column, and then runs the post-scan hooks unless
    Scan failed.  The receiver of a column is the discarding scanner or a
    tagged field, of one of the targets, whose dml name is the name of the
    column: no value is stored under another name. *)
Theorem Scan_of_tagged_structs {Src} `{!AdvancedScannable Src} `{!UserMethods}
    (tps : list (Reflect.rtype * Place)) (w : World Src)
    (columns : list Sql.ColumnType) (s : Src) :
  tps ≠ [] → Forall tagged tps.*1 → cacheSound (fieldsCache w) →
  ColumnTypes (source w) = (Some columns, None, s) → columns ≠ [] →
  ∃ c' receivers,
    Scan_ (addressesOf tps) w
    = (err ← callScan receivers;
       match err with
       | Some err => mret (Some err)
       | None => postScan (addressesOf tps)
       end) (afterColumnTypes (withCache w c') s)
    ∧ is_Some (Scan_ (addressesOf tps) w)
    ∧ length receivers = length columns
    ∧ (∀ j c, columns !! j = Some c →
         receivers !! j = Some noopScanner
         ∨ (∃ p e, (p, e) ∈ entriesOfAll tps ∧ e.1.1 = Sql.Name c
                   ∧ receivers !! j = Some (receiverOf p e))).
Proof. apply Scan_of_tagged_structs_aux. Qed.

Lemma Scan_of_tagged_structs_witness :
  let tps := [(X2, PVar 0)] in
  let src := mkRows (Some ["field_2"; "extra"; "field_1"]) (Some (mkRow ["b"; "x"; "a"] None)) [] in
  let w := mkWorld src (mkMemory {[ 0%nat := ∅ ]} ∅) [] [] in
  let columns := columnsNamed ["field_2"; "extra"; "field_1"] in
  tps ≠ [] ∧ Forall tagged tps.*1 ∧ cacheSound (fieldsCache w)
  ∧ ColumnTypes (source w) = (Some columns, None, src) ∧ columns ≠ []
  ∧ ∃ c' receivers,
      @Scan_ Rows noUserMethods _ (addressesOf tps) w
      = (err ← callScan receivers;
         match err with
         | Some err => mret (Some err)
         | None => @postScan Rows noUserMethods (addressesOf tps)
         end) (afterColumnTypes (withCache w c') src)
      ∧ is_Some (@Scan_ Rows noUserMethods _ (addressesOf tps) w)
      ∧ length receivers = length columns
      ∧ (∀ j c, columns !! j = Some c →
           receivers !! j = Some noopScanner
           ∨ (∃ p e, (p, e) ∈ entriesOfAll tps ∧ e.1.1 = Sql.Name c
                     ∧ receivers !! j = Some (receiverOf p e))).
Proof.
  intros tps src w columns.
  assert (tps ≠ []) as Hne by done.
  assert (Forall tagged tps.*1) as Hall by (repeat constructor).
  assert (columns ≠ []) as Hcne by done.
  split; [exact Hne|]. split; [exact Hall|]. split; [exact cacheSound_nil|].
  split; [reflexivity|]. split; [exact Hcne|].
  exact (@Scan_of_tagged_structs Rows _ noUserMethods tps w columns src
           Hne Hall cacheSound_nil eq_refl Hcne).
Defined.

(** ** GetFields takes precedence over the tags *)

Lemma GetFieldsFrom_implementor {Src} `{!UserMethods} (g : Value) (t : Reflect.rtype)
    (w : World Src) :
  Rv.dynamicType g = Some t → (∀ t' y, g ≠ InterfaceVar t' y) →
  Reflect.GetFields (Reflect.methods t) = true →
  GetFieldsFrom [Plain g] w
  = Some (passedOn (GetFields_method g), afterCalls w [CallGetFields g]).
Proof.
  intros Ht Hni Hg.
  assert (unwrapValue g false = Some (Implementor (mkValue g false))) as Hu.
  { unfold Rv.dynamicType, Rv.Typ, Rv.ValueOf in Ht.
    destruct g; simpl in *; simplify_eq; rewrite ?Hg; try done;
      exfalso; by eapply Hni. }
  assert (Rv.Interface (mkValue g false) = Some g) as Hi.
  { destruct g; try done. exfalso. by eapply Hni. }
  unfold GetFieldsFrom, NormalizeObjects. cbn [internalNormalizeObjects Rv.ValueOf val canSet].
  rewrite Hu. simpl. unfold Rv.dynamicType, Rv.ValueOf in Ht. unfold Rv.Typ at 1. simpl.
  unfold Rv.Typ in Ht. simpl in Ht. rewrite Ht. simpl.
  unfold mbind, M_bind, orPanic. simpl. unfold GetNamedFieldsMakers. simpl.
  unfold mbind, M_bind, onCache, getFieldCachesFor. rewrite Hg. simpl.
  unfold RenderNamedFields. simpl. unfold mbind, M_bind, orPanic. simpl.
  unfold namedFieldsFromGetFields_NamedFields, mbind, M_bind, orPanic. rewrite Hi.
  unfold Rv.dynamicType, Rv.ValueOf, Rv.Typ. simpl. rewrite Ht, Hg.
  unfold callGetFields, afterCalls, passedOn. simpl.
  destruct (GetFields_method g) as [fields [err|]]; [done|].
  by rewrite NamedFields_Append_zero.
Qed.

(** X17.  For a target whose type implements GetFields (a pointer, nil or
    not, or any other concrete value), GetFieldsFrom and BuildNamedFields
    call that method once and pass its result on: its field list when it
    returns no error, its error with the empty field list otherwise.  The
    dml tags of the type are not consulted and nothing else changes, not
    even the cache. *)
Theorem GetFields_method_takes_precedence {Src} `{!UserMethods} (g : Value) (t : Reflect.rtype)
    (w : World Src) :
  Rv.dynamicType g = Some t → (∀ t' y, g ≠ InterfaceVar t' y) →
  Reflect.GetFields (Reflect.methods t) = true →
  GetFieldsFrom [Plain g] w
  = Some (passedOn (GetFields_method g), afterCalls w [CallGetFields g])
  ∧ BuildNamedFields [Plain g] w
    = Some (passedOn (GetFields_method g), afterCalls w [CallGetFields g]).
Proof.
  intros Ht Hni Hg. pose proof (GetFieldsFrom_implementor g t w Ht Hni Hg) as Hf.
  split; [done|]. unfold BuildNamedFields, mbind, M_bind. rewrite Hf.
  unfold passedOn. by destruct (GetFields_method g) as [fields [err|]].
Qed.

Lemma GetFields_method_takes_precedence_witness :
  let g := Pointer (Reflect.PtrTo G) (StructVal G (PVar 0)) in
  let w := mkWorld twoRows (mkMemory {[ 0%nat := ∅ ]} ∅) [] [] in
  Rv.dynamicType g = Some (Reflect.PtrTo G) ∧ (∀ t' y, g ≠ InterfaceVar t' y)
  ∧ Reflect.GetFields (Reflect.methods (Reflect.PtrTo G)) = true
  ∧ @GetFieldsFrom Rows ownFields [Plain g] w
    = Some (passedOn (@GetFields_method ownFields g), afterCalls w [CallGetFields g])
  ∧ @BuildNamedFields Rows ownFields [Plain g] w
    = Some (passedOn (@GetFields_method ownFields g), afterCalls w [CallGetFields g]).
Proof.
  intros g w.
  assert (∀ t' y, g ≠ InterfaceVar t' y) as Hni by done.
  split; [reflexivity|]. split; [exact Hni|]. split; [reflexivity|].
  exact (@GetFields_method_takes_precedence Rows ownFields g (Reflect.PtrTo G) w
           eq_refl Hni eq_refl).
Defined.

(** ** ScanArray into elements whose pointers implement GetFields *)

Lemma BuildMap_is_Some {Src} `{!AdvancedScannable Src} fields (w : World Src) columns s :
  ColumnTypes (source w) = (columns, None, s) →
  ∃ m, BuildMap fields w = Some (m, None, afterColumnTypes w s).
Proof.
  intros Hc. unfold BuildMap, callColumnTypes, mbind, M_bind. rewrite Hc. simpl.
  destruct columns as [columns|]; [|by eexists].
  unfold mbind, M_bind, orPanic. rewrite matchColumns_fifo. by eexists.
Qed.

Lemma Interface_valueAt t p b : Rv.Interface (mkValue (Rv.valueAt t p) b) = Some (Rv.valueAt t p)
                                ∨ Reflect.kind t = Reflect.Interface.
Proof. destruct t; simpl; auto. Qed.

Lemma valueAt_not_implementor {Src} `{!UserMethods} t p b (w : World Src) :
  Reflect.GetFields (Reflect.methods t) = false →
  namedFieldsFromGetFields_NamedFields (mkValue (Rv.valueAt t p) b) w
  = Some (NamedFields.zero, Some "Object does not implement GetFields", w).
Proof.
  intros Hg. unfold namedFieldsFromGetFields_NamedFields, mbind, M_bind, orPanic.
  destruct t; simpl in *; by rewrite ?Hg.
Qed.

Lemma GetNamedFieldsMakers_implementor {Src} t (w : World Src) :
  Reflect.GetFields (Reflect.methods t) = true →
  GetNamedFieldsMakers [t] w = Some ([namedFieldsFromGetFields], None, w).
Proof.
  intros Hg. unfold GetNamedFieldsMakers. simpl.
  unfold mbind, M_bind, onCache, getFieldCachesFor. rewrite Hg. by destruct w.
Qed.

Lemma RenderNamedFields_single {Src} `{!UserMethods} n v (w : World Src) :
  RenderNamedFields [n] [v] w
  = match NamedFieldsMaker_NamedFields n v w with
    | Some (fields, None, w') => Some (fields, None, w')
    | Some (_, Some err, w') => Some (NamedFields.zero, Some err, w')
    | None => None
    end.
Proof.
  unfold RenderNamedFields. rewrite decide_False by (intros Hx; by apply Hx). simpl.
  unfold mbind, M_bind, orPanic. simpl.
  destruct (NamedFieldsMaker_NamedFields n v w) as [[[fields [err|]] w']|]; try done.
  unfold mret, M_ret. by rewrite NamedFields_Append_zero.
Qed.

Section PointerImplementor.
Local Arguments Reflect.methods : simpl never.
Local Arguments Rv.valueAt : simpl never.

Lemma prepare_pointer_implementor {Src} `{!IterableScannable Src} `{!UserMethods}
    (t : Reflect.rtype) (l : nat) (w : World Src) columns s1 fields :
  pointerImplements t →
  GetFields_method (Pointer (Reflect.PtrTo t) (Rv.valueAt t (PNew 0))) = (fields, None) →
  ColumnTypes (source w) = (columns, None, s1) →
  ∃ m, prepare [sliceOf t l] w
       = Some (inr (mkPrepared [mkValue (SliceVal (Reflect.SliceOf t) l) true]
                      [Plain (Pointer (Reflect.PtrTo t) (Rv.valueAt t (PNew 0)))]
                      [namedFieldsFromGetFields] m),
               mkWorld s1 (memory w) (fieldsCache w)
                 (trace w ++ [CallGetFields (Pointer (Reflect.PtrTo t) (Rv.valueAt t (PNew 0)));
                              CallColumnTypes])).
Proof.
  intros [Hp Hv] Hg Hc.
  set (zero := Pointer (Reflect.PtrTo t) (Rv.valueAt t (PNew 0))) in *.
  set (w1 := mkWorld (source w) (memory w) (fieldsCache w) (trace w ++ [CallGetFields zero])).
  destruct (BuildMap_is_Some fields w1 columns s1 Hc)
    as [m Hm].
  exists m. unfold prepare, sliceOf, mbind, M_bind, orPanic. simpl. rewrite Hp. simpl.
  rewrite GetNamedFieldsMakers_implementor by done. simpl.
  rewrite RenderNamedFields_single. simpl.
  unfold namedFieldsFromGetFields_NamedFields, mbind, M_bind, orPanic. simpl.
  unfold Rv.dynamicType. simpl. rewrite Hp.
  unfold callGetFields. fold zero. rewrite Hg. fold w1.
  rewrite Hm. unfold afterColumnTypes, w1. simpl. by rewrite <-app_assoc.
Qed.

Lemma bind_Some {Src A B} (m : M Src A) (k : A → M Src B) (w w1 : World Src) a r :
  m w = Some (a, w1) → k a w1 = r → (m ≫= k) w = r.
Proof. intros Hm <-. unfold mbind, M_bind. by rewrite Hm. Qed.

Lemma row_not_implementor {Src} `{!IterableScannable Src} `{!UserMethods}
    (t : Reflect.rtype) (l : nat) zeros m (w : World Src) xs s :
  Reflect.GetFields (Reflect.methods t) = false →
  slices (memory w) !! l = Some xs →
  Err (source w) = (None, s) →
  row (mkPrepared [mkValue (SliceVal (Reflect.SliceOf t) l) true] [zeros]
         [namedFieldsFromGetFields] m) w
  = Some (Some "Object does not implement GetFields",
          mkWorld s (mkMemory (structs (memory w)) (<[l := xs ++ [∅]]> (slices (memory w))))
            (fieldsCache w) (trace w ++ [CallErr])).
Proof.
  intros Hv Hl He. unfold row. cbn [p_slices p_zeros p_nfm p_smap].
  set (memA := mkMemory (structs (memory w)) (<[l := xs ++ [∅]]> (slices (memory w)))).
  eapply bind_Some.
  { unfold onMemory. simpl. unfold appendZero. simpl. rewrite Hl. simpl. fold memA. done. }
  eapply bind_Some.
  { unfold callErr. simpl. rewrite He. done. }
  eapply bind_Some.
  { unfold onMemory, renderInto. simpl. unfold lastElement. simpl.
    rewrite lookup_insert_eq. simpl.
    rewrite decide_False by (rewrite length_app; simpl; lia). simpl. done. }
  eapply bind_Some.
  { rewrite RenderNamedFields_single. simpl. by rewrite valueAt_not_implementor. }
  done.
Qed.

Lemma ScanArray_pointer_implementor_aux {Src} `{!IterableScannable Src} `{!UserMethods}
    (fuel : nat) (t : Reflect.rtype) (l : nat) (xs : list instance) (w : World Src)
    (fields : NamedFields.t) (columns : option (list Sql.ColumnType)) (s1 s2 s3 : Src) :
  pointerImplements t →
  slices (memory w) !! l = Some xs →
  GetFields_method (Pointer (Reflect.PtrTo t) (Rv.valueAt t (PNew 0))) = (fields, None) →
  ColumnTypes (source w) = (columns, None, s1) →
  Next s1 = (true, s2) →
  Err s2 = (None, s3) →
  ScanArray (S fuel) [sliceOf t l] w
  = Some (Returned (Some "Object does not implement GetFields"),
          mkWorld s3 (memory w) (fieldsCache w)
            (trace w ++ [CallGetFields (Pointer (Reflect.PtrTo t) (Rv.valueAt t (PNew 0)));
                         CallColumnTypes; CallNext; CallErr])).
Proof.
  intros Hpi Hl Hg Hc Hn He.
  destruct (prepare_pointer_implementor t l w columns s1 fields Hpi Hg Hc) as [m Hp].
  destruct Hpi as [_ Hv].
  unfold ScanArray. eapply bind_Some; [exact Hp|]. cbn [rows].
  eapply bind_Some.
  { eapply bind_Some.
    { unfold callNext. simpl. rewrite Hn. done. }
    eapply bind_Some.
    { by eapply (row_not_implementor t l _ m _ xs s3). }
    done. }
  cbn [p_slices]. eapply bind_Some.
  { unfold onMemory. simpl. unfold dropLast. simpl. rewrite lookup_insert_eq. simpl.
    rewrite decide_False by (rewrite length_app; simpl; lia).
    rewrite length_app, Nat.add_sub, take_app_length, insert_insert_eq, insert_id by done.
    simpl. done. }
  unfold mret, M_ret. do 3 f_equal; [by destruct (memory w)|by rewrite <-!app_assoc].
Qed.
End PointerImplementor.

(** X18.  ScanArray into a slice whose element type has its GetFields
    method on pointers only (the usual way to declare it): the preparation
    calls GetFields on a fresh element and succeeds, but the first row
    fails, because the method is then looked for on the element value
    itself.  The call returns "Object does not implement GetFields" after
    one Next and one Err, without any Scan, and the memory is as before:
    the element appended for the row has been removed again. *)
Theorem ScanArray_pointer_implementor {Src} `{!IterableScannable Src} `{!UserMethods}
    (fuel : nat) (t : Reflect.rtype) (l : nat) (xs : list instance) (w : World Src)
    (fields : NamedFields.t) (columns : option (list Sql.ColumnType)) (s1 s2 s3 : Src) :
  pointerImplements t →
  slices (memory w) !! l = Some xs →
  GetFields_method (Pointer (Reflect.PtrTo t) (Rv.valueAt t (PNew 0))) = (fields, None) →
  ColumnTypes (source w) = (columns, None, s1) →
  Next s1 = (true, s2) →
  Err s2 = (None, s3) →
  ScanArray (S fuel) [sliceOf t l] w
  = Some (Returned (Some "Object does not implement GetFields"),
          mkWorld s3 (memory w) (fieldsCache w)
            (trace w ++ [CallGetFields (Pointer (Reflect.PtrTo t) (Rv.valueAt t (PNew 0)));
                         CallColumnTypes; CallNext; CallErr])).
Proof. apply ScanArray_pointer_implementor_aux. Qed.

Lemma ScanArray_pointer_implementor_witness :
  let zero := Pointer (Reflect.PtrTo G) (Rv.valueAt G (PNew 0)) in
  pointerImplements G
  ∧ slices (memory twoRowsWorld) !! 1%nat = Some []
  ∧ @GetFields_method ownFields zero = (NamedFields.mk ["field_1"] [UserReceiver 0], None)
  ∧ ColumnTypes (source twoRowsWorld)
    = (Some (columnsNamed ["field_2"; "extra"; "field_1"]), None, twoRows)
  ∧ Next twoRows = (true, source twoRowsFirst)
  ∧ Err (source twoRowsFirst) = (None, source twoRowsFirst)
  ∧ @ScanArray Rows _ ownFields 1 [sliceOf G 1] twoRowsWorld
    = Some (Returned (Some "Object does not implement GetFields"),
            mkWorld (source twoRowsFirst) (memory twoRowsWorld) (fieldsCache twoRowsWorld)
              (trace twoRowsWorld ++ [CallGetFields zero; CallColumnTypes; CallNext; CallErr])).
Proof.
  intros zero.
  assert (pointerImplements G) as Hpi by (by split).
  assert (slices (memory twoRowsWorld) !! 1%nat = Some []) as Hl by (by vm_compute).
  split; [exact Hpi|]. split; [exact Hl|]. do 4 (split; [reflexivity|]).
  exact (@ScanArray_pointer_implementor Rows _ ownFields 0 G 1 [] twoRowsWorld _ _ _ _ _
           Hpi Hl eq_refl eq_refl eq_refl eq_refl).
Defined.

(** ** A row stores into the appended elements only *)

Lemma firstKept_same {Src} n (w w' : World Src) : memory w' = memory w → firstKept n w w'.
Proof. intros Hm. unfold firstKept. by rewrite Hm. Qed.

Lemma take_alter_ge {A} (f : A → A) (xs : list A) n i :
  (n ≤ i)%nat → take n (alter f i xs) = take n xs.
Proof.
  intros Hle. apply list_eq. intros j. destruct (decide (j < n)%nat).
  - rewrite !lookup_take_lt by done. apply list_lookup_alter_ne. lia.
  - by rewrite !lookup_take_ge by lia.
Qed.

Lemma writeField_safe n p path v mem :
  safeReceiver n (FieldAddr p path) →
  structs (writeField p path v mem) = structs mem
  ∧ ∀ l, take (n l) <$> slices (writeField p path v mem) !! l = take (n l) <$> slices mem !! l.
Proof.
  destruct p as [l0|l0 i|k]; simpl; [done| |done]. intros Hle. split; [done|]. intros l.
  rewrite lookup_alter. case_decide; [subst|done].
  destruct (slices mem !! l); simpl; [|done]. by rewrite take_alter_ge.
Qed.

Lemma applyStores_safe n receivers values mem :
  Forall (safeReceiver n) receivers →
  structs (applyStores receivers values mem) = structs mem
  ∧ ∀ l, take (n l) <$> slices (applyStores receivers values mem) !! l
         = take (n l) <$> slices mem !! l.
Proof.
  revert values mem. induction receivers as [|r receivers IH]; intros values mem Hall; simpl.
  { by destruct values. }
  apply Forall_cons in Hall as [Hr Hall].
  destruct r, values as [|[v|] values]; simpl; try (by apply IH); try done.
  destruct (IH values (writeField p path v mem) Hall) as [Hs Hl].
  destruct (writeField_safe n p path v mem Hr) as [Hs' Hl'].
  split; [congruence|]. intros l. by rewrite Hl, Hl'.
Qed.

Lemma firstKept_callScan {Src} `{!Scannable Src} n receivers :
  Forall (safeReceiver n) receivers → keeps (@firstKept Src n) (callScan receivers).
Proof.
  intros Hall w a w'. unfold callScan. destruct (Scan _ _) as [r s]. intros [= _ <-].
  by apply applyStores_safe.
Qed.

Lemma receiverFor_safe n fields idx :
  Forall (safeReceiver n) (NamedFields.Fields fields) → safeReceiver n (receiverFor fields idx).
Proof.
  intros Hall. unfold receiverFor. case_decide; [done|].
  destruct (NamedFields.Fields fields !! Z.to_nat idx) as [r|] eqn:Hr; [|done]. simpl.
  by eapply (proj1 (Forall_lookup _ _) Hall).
Qed.

Lemma firstKept_ScanWithMappedFields {Src} `{!Scannable Src} n m fields :
  Forall (safeReceiver n) (NamedFields.Fields fields) →
  keeps (@firstKept Src n) (ScanWithMappedFields m fields).
Proof.
  intros Hall. destruct m as [m|].
  - intros w a w'. rewrite ScanWithMappedFields_mapped_eq.
    case_decide; [|done]. case_decide; [by intros [= _ <-]|].
    apply firstKept_callScan. apply Forall_fmap, Forall_forall. intros idx _.
    by apply receiverFor_safe.
  - intros w a w'. unfold ScanWithMappedFields, mbind, M_bind, mret, M_ret.
    case_decide; [by intros [= _ <-]|]. by apply firstKept_callScan.
Qed.

Lemma renderField_safe n c v i nf nf' :
  safeValue n v → Forall (safeReceiver n) (NamedFields.Fields nf) →
  renderField c v i nf = Some nf' → Forall (safeReceiver n) (NamedFields.Fields nf').
Proof.
  intros Hv Hall. unfold renderField, safeValue in *.
  destruct (fieldCacheEntry.Fields c !! i) as [path|]; [simpl|done].
  destruct (val v) as [| | | |t p| |]; try done. simpl.
  destruct (Rv.fieldType t path); [simpl|done].
  destruct (fieldCacheEntry.IsScanner c !! i) as [scanner|]; [simpl|done].
  destruct (fieldCacheEntry.Names c !! i) as [name|]; [simpl|done].
  destruct scanner; [|destruct (canSet v); [|done]]; intros [= <-]; simpl;
    apply Forall_app; (split; [done|]); constructor; try done.
Qed.

Lemma fieldCacheEntry_NamedFields_safe n c v nf err :
  safeValue n v → fieldCacheEntry_NamedFields c v = Some (nf, err) →
  Forall (safeReceiver n) (NamedFields.Fields nf).
Proof.
  intros Hv. unfold fieldCacheEntry_NamedFields.
  generalize (seq 0 (length (fieldCacheEntry.Names c))). intros idxs.
  assert (∀ acc, from_option (λ a, Forall (safeReceiver n) (NamedFields.Fields a)) True acc →
            from_option (λ a, Forall (safeReceiver n) (NamedFields.Fields a)) True
              (foldl (λ n0 i, n0 ← n0; renderField c v i n0) acc idxs)) as Hfold.
  { induction idxs as [|i idxs IH]; intros acc Hacc; [done|]. simpl. apply IH.
    destruct acc as [a|]; [simpl|done].
    destruct (renderField c v i a) as [a'|] eqn:Hr; [simpl|done].
    by eapply renderField_safe. }
  specialize (Hfold (Some NamedFields.zero) (Forall_nil_2 _)).
  destruct (foldl _ _ _) as [a|]; [simpl in *|done]. by intros [= <- _].
Qed.

Lemma RenderNamedFields_from_safe {Src} `{!UserMethods} n i nfm values output
    (w w' : World Src) nf :
  descriptorsOnly nfm → Forall (safeValue n) values →
  Forall (safeReceiver n) (NamedFields.Fields output) →
  RenderNamedFields_from i nfm values output w = Some (nf, None, w') →
  Forall (safeReceiver n) (NamedFields.Fields nf).
Proof.
  revert i output. induction nfm as [|m nfm IH]; intros i output Hd Hvals Hout; simpl.
  { by intros [= <- _]. }
  apply Forall_cons in Hd as [Hm Hd]. destruct m as [|c]; [done|]. simpl.
  unfold mbind, M_bind, orPanic.
  destruct (values !! i) as [v|] eqn:Hv; [|done].
  destruct (fieldCacheEntry_NamedFields c v) as [[fields [err|]]|] eqn:Hf; [done| |done].
  apply IH; [done..|]. simpl. apply Forall_app. split; [done|].
  eapply fieldCacheEntry_NamedFields_safe; [|done].
  by eapply (proj1 (Forall_lookup _ _) Hvals).
Qed.

Lemma RenderNamedFields_safe {Src} `{!UserMethods} n nfm values (w w' : World Src) nf :
  descriptorsOnly nfm → Forall (safeValue n) values →
  RenderNamedFields nfm values w = Some (nf, None, w') →
  Forall (safeReceiver n) (NamedFields.Fields nf).
Proof.
  intros Hd Hvals. unfold RenderNamedFields. case_decide; [done|].
  by apply RenderNamedFields_from_safe.
Qed.

Lemma occurrences_elem_of l ls : l ∈ ls → (1 ≤ occurrences l ls)%nat.
Proof.
  induction ls as [|l' ls IH]; [by intros ?%elem_of_nil|].
  rewrite occurrences_cons. intros [->|Hin]%elem_of_cons.
  - rewrite decide_True by done. lia.
  - specialize (IH Hin). lia.
Qed.

Lemma targets_elem_of s slices_ t l : s ∈ slices_ → val s = SliceVal t l → l ∈ targets slices_.
Proof.
  intros Hs Hv. unfold targets. apply list_elem_of_omap. exists s. split; [done|]. by rewrite Hv.
Qed.

Lemma renderInto_safe i slices_ zeros mem mem1 elements :
  appendZeros i slices_ zeros mem = Some mem1 →
  renderInto slices_ mem1 = Some elements →
  Forall (safeValue (lengthAt mem)) elements.
Proof.
  intros (_ & _ & _ & Hsl)%appendZeros_spec Hr. unfold renderInto in Hr.
  apply mapM_Some in Hr. apply Forall_forall. intros v Hv.
  apply list_elem_of_lookup in Hv as [j Hj].
  destruct (Forall2_lookup_r _ _ _ _ _ Hr Hj) as (s & Hs & Hlast).
  unfold lastElement in Hlast. destruct (val s) as [| | | | |t l|] eqn:Hvs; try done.
  rewrite Hsl in Hlast. unfold lengthAt, safeValue.
  destruct (slices mem !! l) as [xs|] eqn:Hxs; [simpl in Hlast|done].
  destruct (Reflect.Elem t) as [e|]; [simpl in Hlast|done].
  case_decide; [done|]. injection Hlast as <-. simpl.
  assert (1 ≤ occurrences l (targets slices_))%nat.
  { apply occurrences_elem_of. eapply targets_elem_of; [|done]. by eapply list_elem_of_lookup_2. }
  destruct e; simpl; try done. rewrite Hxs. simpl. rewrite length_app, length_replicate. lia.
Qed.

Section RowStores.
Context {Src : Type} `{!IterableScannable Src} `{!UserMethods}.

Lemma firstKept_RenderNamedFields n nfm values :
  keeps (@firstKept Src n) (RenderNamedFields nfm values).
Proof.
  apply frame_RenderNamedFields; [apply _|].
  intros g w a w' [= _ <-]. by apply firstKept_same.
Qed.

Lemma row_appends p (wn wf : World Src) r :
  descriptorsOnly (p_nfm p) →
  row p wn = Some (r, wf) →
  structs (memory wf) = structs (memory wn)
  ∧ ∀ l, slices (memory wf) !! l = None ∧ slices (memory wn) !! l = None
         ∨ ∃ xs ys, slices (memory wn) !! l = Some xs
                    ∧ slices (memory wf) !! l = Some (xs ++ ys)
                    ∧ length ys = occurrences l (targets (p_slices p)).
Proof.
  intros Hd Hrow. pose proof (row_lengths _ _ _ _ Hrow) as (_ & _ & Hlen).
  revert Hrow.
  change (row p) with
    (onMemory (λ mem, mem ← appendZeros 0 (p_slices p) (p_zeros p) mem; Some ((), mem))
       ≫= λ _ : (), rowRest p).
  unfold mbind at 1, M_bind at 1, onMemory at 1.
  destruct (appendZeros 0 (p_slices p) (p_zeros p) (memory wn)) as [mem1|] eqn:Happ;
    [simpl|done].
  set (w1 := mkWorld (source wn) mem1 (fieldsCache wn) (trace wn)).
  set (n := lengthAt (memory wn)). intros Hrest.
  assert (firstKept n w1 wf) as [Hst Hkept].
  { revert Hrest. unfold rowRest, mbind, M_bind.
    destruct (callErr w1) as [[e w2]|] eqn:He; [|done].
    assert (memory w2 = mem1) as Hm2.
    { revert He. unfold callErr. destruct (Err _). by intros [= _ <-]. }
    assert (firstKept n w1 w2) as Hk2 by (by apply firstKept_same).
    destruct e as [e|]; [by intros [= _ <-]|].
    unfold onMemory. rewrite Hm2.
    destruct (renderInto (p_slices p) mem1) as [elements|] eqn:Hr; [simpl|done].
    pose proof (renderInto_safe _ _ _ _ _ _ Happ Hr) as Hsafe. fold n in Hsafe.
    set (w3 := mkWorld (source w2) mem1 (fieldsCache w2) (trace w2)).
    assert (firstKept n w2 w3) as Hk3 by (by apply firstKept_same).
    destruct (RenderNamedFields (p_nfm p) elements w3) as [[[nf [e|]] w4]|] eqn:Hrn; [| |done].
    - intros [= _ <-]. etrans; [done|]. etrans; [done|].
      by eapply firstKept_RenderNamedFields.
    - intros Hscan. etrans; [done|]. etrans; [done|].
      etrans; [by eapply firstKept_RenderNamedFields|].
      eapply firstKept_ScanWithMappedFields; [|done].
      by eapply RenderNamedFields_safe. }
  apply appendZeros_spec in Happ as (Hs1 & _ & _ & Hsl1).
  split; [simpl in Hst; congruence|]. intros l.
  specialize (Hlen l). specialize (Hkept l). simpl in Hkept. rewrite Hsl1 in Hkept.
  unfold n, lengthAt in Hkept.
  destruct (slices (memory wn) !! l) as [xs|] eqn:Hxs; simpl in *.
  - right. destruct (slices (memory wf) !! l) as [zs|]; [|done].
    injection Hlen as Hlen. injection Hkept as Hkept.
    rewrite take_app_length in Hkept. exists xs, (drop (length xs) zs).
    split_and!; [done| |rewrite length_drop; lia].
    by rewrite <-Hkept at 1; rewrite take_drop.
  - left. by destruct (slices (memory wf) !! l).
Qed.
End RowStores.

Section Restores.
Context {Src : Type} `{!IterableScannable Src} `{!UserMethods}.

Lemma completed_appends p k (w wk : World Src) :
  descriptorsOnly (p_nfm p) → completed p k w wk →
  structs (memory wk) = structs (memory w)
  ∧ ∀ l, slices (memory wk) !! l = None ∧ slices (memory w) !! l = None
         ∨ ∃ xs ys, slices (memory w) !! l = Some xs
                    ∧ slices (memory wk) !! l = Some (xs ++ ys)
                    ∧ length ys = (k * occurrences l (targets (p_slices p)))%nat.
Proof.
  intros Hd. induction 1 as [w|k w w1 w2 w3 Hnext Hrow _ [IHs IH]].
  - split; [done|]. intros l. destruct (slices (memory w) !! l) as [xs|] eqn:Hxs; [|by left].
    right. exists xs, []. by rewrite app_nil_r.
  - destruct (row_appends p w1 w2 _ Hd Hrow) as [Hs Hl].
    rewrite (callNext_memory _ _ _ Hnext) in Hs, Hl. split; [congruence|]. intros l.
    destruct (Hl l) as [[H2 H1]|(xs & ys & H1 & H2 & Hlen)];
      destruct (IH l) as [[H3 H2']|(xs' & ys' & H2' & H3 & Hlen')]; simplify_eq; [by left|].
    right. exists xs, (ys ++ ys'). rewrite app_assoc, length_app. split_and!; [done..|lia].
Qed.

Lemma ScanArray_failure_restores_memory_aux
    (fuel k : nat) (into : list ScanIntoArray) (p : Prepared) (w w0 wk wn wf : World Src)
    (err : error) :
  prepare into w = Some (inr p, w0) →
  descriptorsOnly (p_nfm p) →
  completed p k w0 wk → (k < fuel)%nat →
  callNext wk = Some (true, wn) →
  row p wn = Some (Some err, wf) →
  ScanArray fuel into w
  = Some (Returned (Some err), mkWorld (source wf) (memory wk) (fieldsCache wf) (trace wf))
  ∧ structs (memory wk) = structs (memory w0)
  ∧ ∀ l xs, slices (memory w0) !! l = Some xs →
      ∃ ys, slices (memory wk) !! l = Some (xs ++ ys)
            ∧ length ys = (k * occurrences l (targets (p_slices p)))%nat.
Proof.
  intros Hp Hd Hc Hlt Hn Hr.
  destruct (completed_appends p k w0 wk Hd Hc) as [Hs Hl].
  split_and!; [|done|].
  - destruct (row_appends p wn wf _ Hd Hr) as [Hsf Hlf].
    rewrite (callNext_memory _ _ _ Hn) in Hsf, Hlf.
    pose proof (row_lengths _ _ _ _ Hr) as (Hall & Hdom & _).
    destruct (rewindSlices_spec (p_slices p) (memory wf) Hall) as (mem' & Hrew & Hs' & Hl').
    { intros l Hin. destruct (Hlf l) as [[Hf Hk]|(xs & ys & Hk & Hf & Hlen)].
      - destruct (Hdom l Hin) as [xs Hx]. rewrite (callNext_memory _ _ _ Hn) in Hx. congruence.
      - exists (xs ++ ys). split; [done|]. rewrite length_app. lia. }
    unfold ScanArray. eapply bind_Some; [exact Hp|].
    eapply bind_Some; [by eapply rows_failed|].
    eapply bind_Some; [unfold onMemory; by rewrite Hrew|].
    unfold mret, M_ret. do 3 f_equal.
    assert (slices mem' = slices (memory wk)) as Hsl.
    { apply map_eq. intros l. rewrite Hl'.
      destruct (Hlf l) as [[-> ->]|(xs & ys & -> & -> & Hlen)]; [done|]. simpl.
      rewrite length_app, <-Hlen, Nat.add_sub. by rewrite take_app_length. }
    destruct mem', (memory wk). simpl in *. congruence.
  - intros l xs Hxs. destruct (Hl l) as [[_ ?]|(xs' & ys & ? & ? & ?)]; simplify_eq. eauto.
Qed.
End Restores.

(** X19.  When no element type implements GetFields, a row of ScanArray
    stores only into the elements appended for it.  Hence the elements a
    slice had before the call, and those of the rows that went through, are
    never changed, and when the next row fails ScanArray returns its error
    with the memory exactly as the last good row left it: the values that the
    failing transfer had already stored are gone with the truncated
    elements. *)
Theorem ScanArray_failure_restores_memory {Src} `{!IterableScannable Src} `{!UserMethods}
    (fuel k : nat) (into : list ScanIntoArray) (p : Prepared) (w w0 wk wn wf : World Src)
    (err : error) :
  prepare into w = Some (inr p, w0) →
  descriptorsOnly (p_nfm p) →
  completed p k w0 wk → (k < fuel)%nat →
  callNext wk = Some (true, wn) →
  row p wn = Some (Some err, wf) →
  ScanArray fuel into w
  = Some (Returned (Some err), mkWorld (source wf) (memory wk) (fieldsCache wf) (trace wf))
  ∧ structs (memory wk) = structs (memory w0)
  ∧ ∀ l xs, slices (memory w0) !! l = Some xs →
      ∃ ys, slices (memory wk) !! l = Some (xs ++ ys)
            ∧ length ys = (k * occurrences l (targets (p_slices p)))%nat.
Proof. apply ScanArray_failure_restores_memory_aux. Qed.

Lemma ScanArray_failure_restores_memory_witness :
  @prepare Rows _ noUserMethods [sliceTarget 1] twoRowsWorld
  = Some (inr twoRowsPrepared, twoRowsReady)
  ∧ descriptorsOnly (p_nfm twoRowsPrepared)
  ∧ @completed Rows _ noUserMethods twoRowsPrepared 1 twoRowsReady twoRowsOneDone
  ∧ (1 < 3)%nat
  ∧ callNext twoRowsOneDone = Some (true, twoRowsSecond)
  ∧ @row Rows _ noUserMethods twoRowsPrepared twoRowsSecond
    = Some (Some "transfer failed", twoRowsFailed)
  ∧ @ScanArray Rows _ noUserMethods 3 [sliceTarget 1] twoRowsWorld
    = Some (Returned (Some "transfer failed"),
            mkWorld (source twoRowsFailed) (memory twoRowsOneDone) (fieldsCache twoRowsFailed)
              (trace twoRowsFailed))
  ∧ structs (memory twoRowsOneDone) = structs (memory twoRowsReady)
  ∧ ∀ l xs, slices (memory twoRowsReady) !! l = Some xs →
      ∃ ys, slices (memory twoRowsOneDone) !! l = Some (xs ++ ys)
            ∧ length ys = (1 * occurrences l (targets (p_slices twoRowsPrepared)))%nat.
Proof.
  assert (Hp : @prepare Rows _ noUserMethods [sliceTarget 1] twoRowsWorld
               = Some (inr twoRowsPrepared, twoRowsReady)).
  { vm_cast_no_check (eq_refl (Some (@inr error _ twoRowsPrepared, twoRowsReady))). }
  assert (Hd : descriptorsOnly (p_nfm twoRowsPrepared)) by (by repeat constructor).
  assert (Hn : callNext twoRowsReady = Some (true, twoRowsFirst)).
  { vm_cast_no_check (eq_refl (Some (true, twoRowsFirst))). }
  assert (Hr : @row Rows _ noUserMethods twoRowsPrepared twoRowsFirst
               = Some (None, twoRowsOneDone)).
  { vm_cast_no_check (eq_refl (Some (@None error, twoRowsOneDone))). }
  assert (Hc : @completed Rows _ noUserMethods twoRowsPrepared 1 twoRowsReady twoRowsOneDone).
  { exact (completed_S _ _ _ _ _ _ Hn Hr (completed_O _ _)). }
  assert (Hlt : (1 < 3)%nat) by lia.
  assert (Hn2 : callNext twoRowsOneDone = Some (true, twoRowsSecond)).
  { vm_cast_no_check (eq_refl (Some (true, twoRowsSecond))). }
  assert (Hr2 : @row Rows _ noUserMethods twoRowsPrepared twoRowsSecond
                = Some (Some "transfer failed", twoRowsFailed)).
  { vm_cast_no_check (eq_refl (Some (Some "transfer failed", twoRowsFailed))). }
  split; [exact Hp|]. split; [exact Hd|]. split; [exact Hc|]. split; [exact Hlt|].
  split; [exact Hn2|]. split; [exact Hr2|].
  exact (@ScanArray_failure_restores_memory Rows _ noUserMethods 3 1 [sliceTarget 1]
           twoRowsPrepared twoRowsWorld twoRowsReady twoRowsOneDone twoRowsSecond
           twoRowsFailed "transfer failed" Hp Hd Hc Hlt Hn2 Hr2).
Defined.

(** ** ScanArray over a wrapped single row *)

Section OverWrapper.
Context {Src : Type} `{!Scannable Src} `{!UserMethods}.
Local Abbreviation W := (World (scannableWrapper Src)).

Lemma sameDone_source (w w' : W) : source w' = source w → sameDone w w'.
Proof. intros Hs. unfold sameDone. by rewrite Hs. Qed.

Lemma sameDone_callGetFields g : keeps (@sameDone Src) (callGetFields g).
Proof. intros w a w' [= _ <-]. by apply sameDone_source. Qed.
Lemma sameDone_resolve t : keeps (@sameDone Src) (onCache (getFieldCachesFor t)).
Proof.
  intros w a w'. unfold onCache. destruct (getFieldCachesFor _ _) as [[r c]|]; [|done].
  intros [= _ <-]. by apply sameDone_source.
Qed.
Lemma sameDone_onMemory A (f : Memory → option (A * Memory)) : keeps (@sameDone Src) (onMemory f).
Proof.
  intros w a w'. unfold onMemory. destruct (f _) as [[??]|]; [|done].
  intros [= _ <-]. by apply sameDone_source.
Qed.
Lemma sameDone_callColumnTypes : keeps (@sameDone Src) callColumnTypes.
Proof. intros w a w' [= _ <-]. by apply sameDone_source. Qed.
Lemma sameDone_callErr : keeps (@sameDone Src) callErr.
Proof. intros w a w' [= _ <-]. by apply sameDone_source. Qed.
Lemma sameDone_callScan receivers : keeps (@sameDone Src) (callScan receivers).
Proof.
  intros w a w'. unfold callScan. simpl. unfold wrapper.Scan.
  destruct (Scan _ _). by intros [= _ <-].
Qed.

Lemma sameDone_prepare into : keeps (@sameDone Src) (prepare into).
Proof.
  apply frame_prepare;
    auto using sameDone_callGetFields, sameDone_resolve, sameDone_callColumnTypes
      with typeclass_instances.
Qed.

Lemma sameDone_row p : keeps (@sameDone Src) (row p).
Proof.
  apply frame_row;
    auto using sameDone_callGetFields, sameDone_onMemory, sameDone_callErr, sameDone_callScan
      with typeclass_instances.
Qed.

Lemma callNext_fresh (w : W) :
  done_ (source w) = false →
  callNext w = Some (true, mkWorld (mkScannableWrapper (inner (source w)) true) (memory w)
                             (fieldsCache w) (trace w ++ [CallNext])).
Proof. intros Hd. unfold callNext. simpl. unfold wrapper.Next. by rewrite Hd. Qed.

Lemma callNext_done (w : W) :
  done_ (source w) = true →
  callNext w = Some (false, afterCalls w [CallNext]).
Proof. intros Hd. unfold callNext. simpl. unfold wrapper.Next. by rewrite Hd. Qed.

Lemma ScanArray_over_WrapBasic_aux (fuel : nat) (into : list ScanIntoArray) (p : Prepared)
    (w w0 : W) :
  done_ (source w) = false →
  prepare into w = Some (inr p, w0) →
  ∃ w1, callNext w0 = Some (true, w1) ∧ memory w1 = memory w0
    ∧ ∀ r w2, row p w1 = Some (r, w2) →
        (∀ l, length <$> slices (memory w2) !! l
              = (λ xs, (length xs + occurrences l (targets (p_slices p)))%nat)
                  <$> slices (memory w0) !! l)
        ∧ match r with
          | None =>
              ScanArray (S (S fuel)) into w = Some (Returned None, afterCalls w2 [CallNext])
          | Some err =>
              ∃ mem', ScanArray (S fuel) into w
                      = Some (Returned (Some err),
                              mkWorld (source w2) mem' (fieldsCache w2) (trace w2))
                ∧ ∀ l, length <$> slices mem' !! l = length <$> slices (memory w0) !! l
          end.
Proof.
  intros Hd Hp. pose proof (sameDone_prepare into _ _ _ Hp) as Hd0. unfold sameDone in Hd0.
  rewrite Hd in Hd0. eexists. split; [by apply callNext_fresh|]. split; [done|].
  intros r w2 Hr. pose proof (sameDone_row p _ _ _ Hr) as Hd2. unfold sameDone in Hd2.
  simpl in Hd2. pose proof (row_lengths _ _ _ _ Hr) as (Hall & Hdom & Hlen). simpl in *.
  split; [done|]. destruct r as [err|].
  - destruct (rewindSlices_spec (p_slices p) (memory w2) Hall) as (mem' & Hrew & Hs' & Hl').
    { intros l Hin. destruct (Hdom l Hin) as [xs Hxs]. specialize (Hlen l).
      rewrite Hxs in Hlen. destruct (slices (memory w2) !! l) as [ys|]; [|done].
      exists ys. split; [done|]. simpl in Hlen. injection Hlen as ->. lia. }
    exists mem'. split.
    + unfold ScanArray. eapply bind_Some; [exact Hp|].
      eapply bind_Some.
      { eapply (rows_failed p 0); [constructor|by apply callNext_fresh|exact Hr|lia]. }
      eapply bind_Some; [unfold onMemory; by rewrite Hrew|]. done.
    + intros l. rewrite Hl'. specialize (Hlen l).
      destruct (slices (memory w2) !! l) as [ys|], (slices (memory w0) !! l) as [xs|];
        simplify_eq/=; [|done]. rewrite length_take. f_equal. lia.
  - unfold ScanArray. eapply bind_Some; [exact Hp|].
    eapply bind_Some.
    { eapply (rows_exhausted p 1 _ w0 w2); [|by apply callNext_done|lia].
      eapply completed_S; [by apply callNext_fresh|exact Hr|constructor]. }
    done.
Qed.
End OverWrapper.

(** X20.  ScanArray over the row source returned by WrapBasic attempts
    exactly one row, provided its preparation succeeds.  If that row goes
    through, ScanArray returns nil after a second call of Next, and every
    target slice has one more element per target that refers to it; if the
    row fails, ScanArray returns its error and every target slice has the
    length it had. *)
Theorem ScanArray_over_WrapBasic {Src} `{!Scannable Src} `{!UserMethods}
    (fuel : nat) (into : list ScanIntoArray) (p : Prepared)
    (w w0 : World (scannableWrapper Src)) :
  done_ (source w) = false →
  prepare into w = Some (inr p, w0) →
  ∃ w1, callNext w0 = Some (true, w1) ∧ memory w1 = memory w0
    ∧ ∀ r w2, row p w1 = Some (r, w2) →
        (∀ l, length <$> slices (memory w2) !! l
              = (λ xs, (length xs + occurrences l (targets (p_slices p)))%nat)
                  <$> slices (memory w0) !! l)
        ∧ match r with
          | None =>
              ScanArray (S (S fuel)) into w = Some (Returned None, afterCalls w2 [CallNext])
          | Some err =>
              ∃ mem', ScanArray (S fuel) into w
                      = Some (Returned (Some err),
                              mkWorld (source w2) mem' (fieldsCache w2) (trace w2))
                ∧ ∀ l, length <$> slices mem' !! l = length <$> slices (memory w0) !! l
          end.
Proof. apply ScanArray_over_WrapBasic_aux. Qed.

Lemma ScanArray_over_WrapBasic_witness :
  done_ (source oneRowWorld) = false
  ∧ @prepare (scannableWrapper Rows) _ noUserMethods [sliceTarget 1] oneRowWorld
    = Some (inr oneRowPrepared, oneRowReady)
  ∧ ∃ w1, callNext oneRowReady = Some (true, w1) ∧ memory w1 = memory oneRowReady
    ∧ ∀ r w2, @row (scannableWrapper Rows) _ noUserMethods oneRowPrepared w1 = Some (r, w2) →
        (∀ l, length <$> slices (memory w2) !! l
              = (λ xs, (length xs + occurrences l (targets (p_slices oneRowPrepared)))%nat)
                  <$> slices (memory oneRowReady) !! l)
        ∧ match r with
          | None =>
              @ScanArray (scannableWrapper Rows) _ noUserMethods 2 [sliceTarget 1] oneRowWorld
              = Some (Returned None, afterCalls w2 [CallNext])
          | Some err =>
              ∃ mem', @ScanArray (scannableWrapper Rows) _ noUserMethods 1 [sliceTarget 1]
                        oneRowWorld
                      = Some (Returned (Some err),
                              mkWorld (source w2) mem' (fieldsCache w2) (trace w2))
                ∧ ∀ l, length <$> slices mem' !! l
                       = length <$> slices (memory oneRowReady) !! l
          end.
Proof.
  assert (Hp : @prepare (scannableWrapper Rows) _ noUserMethods [sliceTarget 1] oneRowWorld
               = Some (inr oneRowPrepared, oneRowReady)).
  { vm_cast_no_check (eq_refl (Some (@inr error _ oneRowPrepared, oneRowReady))). }
  split; [reflexivity|]. split; [exact Hp|].
  exact (@ScanArray_over_WrapBasic Rows _ noUserMethods 0 [sliceTarget 1] oneRowPrepared
           oneRowWorld oneRowReady eq_refl Hp).
Defined.

(** ** The adapter of scannables.go *)

Lemma foldl_names (columns : list Sql.ColumnType) (names : list string) :
  foldl (λ names c, names ++ [Sql.Name c]) names columns = names ++ (Sql.Name <$> columns).
Proof.
  revert names. induction columns as [|c columns IH]; intros names; simpl.
  - by rewrite app_nil_r.
  - by rewrite IH, <-app_assoc.
Qed.

(** X21.  ColumnNames of the adapter returned by X asks the wrapped rows for
    their column types once.  On an error it returns a nil list and that
    error; otherwise it returns the names of the columns, one per column and
    in order, in a list that is never nil: when the rows report their
    columns as unavailable (nil), the adapter reports an empty list of
    names. *)
Theorem adapter_ColumnNames {Src} `{!IterableScannable Src} (rows : Src) (e : option error)
    (columns : option (list Sql.ColumnType)) (err : option error) (s : Src) :
  ColumnTypes rows = (columns, err, s) →
  adapter.ColumnNames (adapter.X rows e).1
  = (match err with
     | Some err => (None, Some err)
     | None => (Some (Sql.Name <$> default [] columns), None)
     end, mkAdapter s)
  ∧ (adapter.X rows e).2 = e.
Proof.
  intros Hc. split; [|done]. unfold adapter.ColumnNames, adapter.X. simpl. rewrite Hc.
  destruct err; [done|]. by rewrite foldl_names.
Qed.

Lemma adapter_ColumnNames_witness :
  ColumnTypes twoRows = (Some (columnsNamed ["field_2"; "extra"; "field_1"]), None, twoRows)
  ∧ adapter.ColumnNames (adapter.X twoRows None).1
    = (Some (Sql.Name <$> default [] (Some (columnsNamed ["field_2"; "extra"; "field_1"]))), None,
       mkAdapter twoRows)
  ∧ (adapter.X twoRows None).2 = None.
Proof.
  split; [reflexivity|].
  exact (adapter_ColumnNames twoRows None (Some (columnsNamed ["field_2"; "extra"; "field_1"]))
           None twoRows eq_refl).
Defined.

(** ** The earlier GetFieldsFrom of cache.go *)

Lemma bind_unfold {Src A B} (m : M Src A) (k : A → M Src B) (w : World Src) :
  (m ≫= k) w = match m w with Some (a, w1) => k a w1 | None => None end.
Proof. done. Qed.

Lemma GetFieldsFrom_v1_implementor {Src} `{!UserMethods} (g : Value) (t : Reflect.rtype)
    (w : World Src) :
  Rv.dynamicType g = Some t → (∀ t' y, g ≠ InterfaceVar t' y) →
  Reflect.GetFields (Reflect.methods t) = true →
  GetFieldsFrom_v1 (Plain g) w = Some (GetFields_method g, afterCalls w [CallGetFields g]).
Proof.
  intros Ht Hni Hg.
  assert (Rv.Interface (Rv.ValueOf g) = Some g) as Hi.
  { destruct g; try done. exfalso. by eapply Hni. }
  unfold GetFieldsFrom_v1, mbind, M_bind, orPanic. rewrite Hi, Ht, Hg. done.
Qed.

Lemma GetFieldsFrom_address {Src} `{!UserMethods} (t : Reflect.rtype) (p : Place)
    (w : World Src) :
  tagged t →
  GetFieldsFrom [Plain (addressOf (t, p))] w
  = (r ← onCache (cachedFor t);
     match r.2 with
     | Some err => mret (NamedFields.zero, Some err)
     | None => orPanic (fieldCacheEntry_NamedFields r.1 (mkValue (StructVal t p) true))
     end) w.
Proof.
  intros (Hk & Hg & Hp).
  unfold GetFieldsFrom, NormalizeObjects, addressOf.
  cbn [internalNormalizeObjects Rv.ValueOf val canSet unwrapValue fst snd].
  rewrite Hp. cbn [unwrapValue]. rewrite Hg. simpl.
  unfold mbind, M_bind, orPanic. simpl. unfold GetNamedFieldsMakers. simpl.
  unfold mbind, M_bind, onCache, getFieldCachesFor, cachedFor. rewrite Hg.
  rewrite (unwrapType_struct _ Hk). simpl. rewrite decide_False by (by intros ?).
  destruct (cacheLookup (fieldsCache w) t) as [cached|] eqn:Hc; simpl.
  - unfold RenderNamedFields. simpl. unfold mbind, M_bind, orPanic. simpl.
    destruct (fieldCacheEntry_NamedFields cached _) as [[n [e|]]|] eqn:Hn; simpl; try done.
    + unfold fieldCacheEntry_NamedFields in Hn. simpl in Hn.
      destruct (foldl _ _ _); simpl in Hn; done.
    + by rewrite NamedFields_Append_zero.
  - rewrite (build_describe t [] Hk). simpl.
    unfold RenderNamedFields. simpl. unfold mbind, M_bind, orPanic. simpl.
    destruct (fieldCacheEntry_NamedFields _ _) as [[n [e|]]|] eqn:Hn; simpl; try done.
    + unfold fieldCacheEntry_NamedFields in Hn. simpl in Hn.
      destruct (foldl _ _ _); simpl in Hn; done.
    + by rewrite NamedFields_Append_zero.
Qed.

Lemma GetFieldsFrom_v1_address {Src} `{!UserMethods} (t : Reflect.rtype) (p : Place)
    (w : World Src) :
  tagged t →
  GetFieldsFrom_v1 (Plain (addressOf (t, p))) w
  = (r ← onCache (cachedFor t);
     match r.2 with
     | Some err => mret (NamedFields.zero, Some err)
     | None => orPanic (fieldCacheEntry_NamedFields r.1 (mkValue (StructVal t p) true))
     end) w.
Proof.
  intros (Hk & Hg & Hp).
  unfold GetFieldsFrom_v1, addressOf.
  cbn [fst snd Rv.ValueOf Rv.Interface val canSet].
  unfold mbind at 1, M_bind at 1, orPanic at 1.
  cbn [Rv.dynamicType Rv.ValueOf Rv.Typ val]. rewrite Hp.
  unfold mbind, M_bind, orPanic, onCache. simpl.
  destruct (cachedFor t (fieldsCache w)) as [[[cached err] c]|]; simpl; done.
Qed.

(** X22.  The one-target GetFieldsFrom of cache.go and the variadic
    GetFieldsFrom that replaced it agree on the two usual kinds of target.
    For the address of a struct without a GetFields method they return the
    same result and leave the same cache, whatever the cache held.  For a
    target whose own type implements GetFields both call the method once;
    the results differ only when the method returns an error, where the
    later version replaces the field list that came with it by the empty
    one. *)
Theorem GetFieldsFrom_versions_agree {Src} `{!UserMethods} (x : Value) (w : World Src) :
  (∃ t p, tagged t ∧ x = addressOf (t, p))
  ∨ (∃ t, Rv.dynamicType x = Some t ∧ (∀ t' y, x ≠ InterfaceVar t' y)
          ∧ Reflect.GetFields (Reflect.methods t) = true) →
  GetFieldsFrom [Plain x] w = (r ← GetFieldsFrom_v1 (Plain x); mret (passedOn r)) w.
Proof.
  intros [(t & p & Ht & ->)|(t & Ht & Hni & Hg)].
  - rewrite (GetFieldsFrom_address t p w Ht).
    rewrite (bind_unfold (GetFieldsFrom_v1 _)), (GetFieldsFrom_v1_address t p w Ht).
    unfold mbind, M_bind, onCache.
    destruct (cachedFor t (fieldsCache w)) as [[[cached [err|]] c]|]; simpl; try done.
    unfold orPanic.
    destruct (fieldCacheEntry_NamedFields cached _) as [[n [e|]]|] eqn:Hn; simpl; try done.
    unfold fieldCacheEntry_NamedFields in Hn. simpl in Hn.
    destruct (foldl _ _ _); simpl in Hn; done.
  - rewrite (GetFieldsFrom_implementor x t w Ht Hni Hg).
    unfold mbind, M_bind. by rewrite (GetFieldsFrom_v1_implementor x t w Ht Hni Hg).
Qed.

Lemma GetFieldsFrom_versions_agree_witness :
  ((∃ t p, tagged t ∧ addressOf (X2, PVar 0) = addressOf (t, p))
   ∨ (∃ t, Rv.dynamicType (addressOf (X2, PVar 0)) = Some t
           ∧ (∀ t' y, addressOf (X2, PVar 0) ≠ InterfaceVar t' y)
           ∧ Reflect.GetFields (Reflect.methods t) = true))
  ∧ @GetFieldsFrom Rows noUserMethods [Plain (addressOf (X2, PVar 0))] twoRowsWorld
    = (r ← @GetFieldsFrom_v1 Rows noUserMethods (Plain (addressOf (X2, PVar 0)));
       mret (passedOn r)) twoRowsWorld.
Proof.
  assert (H : (∃ t p, tagged t ∧ addressOf (X2, PVar 0) = addressOf (t, p))
   ∨ (∃ t, Rv.dynamicType (addressOf (X2, PVar 0)) = Some t
           ∧ (∀ t' y, addressOf (X2, PVar 0) ≠ InterfaceVar t' y)
           ∧ Reflect.GetFields (Reflect.methods t) = true)).
  { left. exists X2, (PVar 0). split; [|reflexivity]. repeat split; reflexivity. }
  split; [exact H|].
  exact (@GetFieldsFrom_versions_agree Rows noUserMethods (addressOf (X2, PVar 0)) twoRowsWorld H).
Defined.

(** ** The earlier ScanArray *)

(** X23.  The earlier ScanArray inspects the index of each target instead of
    the target: whenever it is given at least one target, even a pointer to
    a slice of tagged structs that the later ScanArray fills, it returns the
    error of getSlices without calling the row source and without touching
    the memory or the cache. *)
Theorem earlier_ScanArray_rejects_targets {Src} `{!IterableScannable Src} `{!UserMethods}
    (fuel : nat) (x : ScanIntoArray) (into : list ScanIntoArray) (w : World Src) :
  ScanArray_v1 fuel (x :: into) w
  = Some (Returned (Some "elements must be a pointers to slices"), w).
Proof. by destruct w. Qed.
